(** * Webhook dashboard: the aggregation engine, the fetch adapters and the table

    A shallow embedding of

    - [processApiData] (src/app/page.tsx), the client-side aggregation and
      incremental merge of delivery attempts into per-message aggregates;
    - the [GET] handlers of the attempts and messages routes
      (src/app/api/webhook-attempts/route.ts and its sibling versions):
      parameter validation, time windows, parallel pages, pagination
      metadata and payload decoding;
    - the sequential handlers of src/unnamed, which page through the
      upstream in a [while] loop;
    - the table of src/app/page.tsx: search and status filter, sort,
      pages and page list, badges and expanded rows;
    - [fetchData] and [handleLoadMore] of src/app/page.tsx, the two
      places [processApiData] is called from.

    Conventions of the embedding.

    - An ISO-8601 timestamp is kept as the number of epoch milliseconds
      that [new Date(s).getTime()] yields for it (a [Z]); the code only
      ever compares and copies timestamps.  Invalid dates are outside the
      model, except for the [before] parameter of the routes.
    - A JavaScript [number] that holds a count or a status code is a [nat]
      or a [Z]; [successRate], the one genuinely fractional number, is a
      binary64 [float], computed with the same two operations as the code.
    - A JavaScript [Map] is an association list in insertion order
      ([JsMap]); a [Map] or object that is only ever looked up is a [gmap],
      a [Map] used as a set of keys is a [gset].
    - [Array.prototype.sort] is stable; for a comparator that is a
      difference of keys every stable sort returns the same array, and the
      model uses insertion sort.  Of the sort of the table by a column
      whose comparator is not such a difference only the numeric columns
      are reasoned about.
    - A loop whose number of iterations is not known beforehand is a
      function with fuel; that the fuel it is given suffices is proved.
    - The platform ([fetch], [JSON.parse], [new Date(s)], the clock, the
      environment, [localeCompare], [toISOString]) is a parameter. *)

From Stdlib Require Import ZArith String Ascii List Floats Uint63.
From stdpp Require Import base tactics option list sorting gmap strings fin_maps
  pretty.

Local Open Scope string_scope.
Local Open Scope Z_scope.
Local Open Scope list_scope.

(** ** JavaScript [Map] with string keys *)

Module JsMap.
Section JsMap.
Context {V : Type}.

(** [m.set(k, v)]: an existing key keeps its position, a new key goes last. *)
Fixpoint set (m : list (string * V)) (k : string) (v : V) : list (string * V) :=
  match m with
  | [] => [(k, v)]
  | (k', v') :: r =>
      if decide (k' = k) then (k, v) :: r else (k', v') :: set r k v
  end.

Fixpoint get (m : list (string * V)) (k : string) : option V :=
  match m with
  | [] => None
  | (k', v') :: r => if decide (k' = k) then Some v' else get r k
  end.

Definition has (m : list (string * V)) (k : string) : bool :=
  match get m k with Some _ => true | None => false end.

(** [new Map(entries)] *)
Definition from_entries (entries : list (string * V)) : list (string * V) :=
  foldl (fun m kv => set m kv.1 kv.2) [] entries.

(** [Array.from(m.values())] *)
Definition values (m : list (string * V)) : list V := m.*2.

Definition keys (m : list (string * V)) : list string := m.*1.

End JsMap.
End JsMap.

(** ** [Array.prototype.sort] *)

Section array_sort.
Context {A : Type} (compareFn : A -> A -> Z).

(** [x] was in front of every element of [l] before the sort: it goes
    behind the elements that the comparator puts strictly first, and in
    front of the rest (ties keep their order). *)
Fixpoint sort_insert (x : A) (l : list A) : list A :=
  match l with
  | [] => [x]
  | y :: r => if compareFn y x <? 0 then y :: sort_insert x r else x :: y :: r
  end.

Definition array_sort (l : list A) : list A := foldr sort_insert [] l.

End array_sort.

(** ** Strings *)

Definition lower_ascii (c : ascii) : ascii :=
  let n := nat_of_ascii c in
  if ((65 <=? n)%nat && (n <=? 90)%nat)%bool then ascii_of_nat (n + 32) else c.

(** [s.toLowerCase()], on the ASCII letters. *)
Fixpoint toLowerCase (s : string) : string :=
  match s with
  | EmptyString => EmptyString
  | String c r => String (lower_ascii c) (toLowerCase r)
  end.

(** [s.includes(needle)] *)
Definition includes (s needle : string) : bool :=
  match String.index 0 needle s with Some _ => true | None => false end.

(** [field?.toLowerCase().includes(needle)], [undefined] read as falsy. *)
Definition lower_includes (field : option string) (needle : string) : bool :=
  match field with
  | Some s => includes (toLowerCase s) needle
  | None => false
  end.

(** [s.substring(0, n)] *)
Fixpoint substring0 (n : nat) (s : string) : string :=
  match n, s with
  | S n', String c r => String c (substring0 n' r)
  | _, _ => EmptyString
  end.

(** ** Records of src/app/page.tsx *)

Module Attempt.
Record t := mk {
  id : string;
  projectId : string;
  inProgress : bool;
  duration : Z;
  createdAt : Z;
  updatedAt : Z;
  messageId : option string;  (* absent on a record that cannot be attributed *)
  hookId : string;
  isFailure : bool;
  failureReason : option string;
  resultCode : Z;
  resultBody : option string
}.
End Attempt.

Module MessageWithError.
Record t := mk {
  id : string;
  error : string;
  payload : option string
}.
End MessageWithError.

Module ProcessedMessage.
Record t := mk {
  messageId : string;
  oldestAttempt : Z;
  newestAttempt : Z;
  attemptCount : nat;
  successRate : float;
  hookId : string;
  documentId : option string;
  attempts : list Attempt.t;
  latestFailure : option Attempt.t;
  parsingError : option string;
  largePayloadFailure : option bool
}.
End ProcessedMessage.

Import ProcessedMessage.

(** ** [processApiData] *)

(** [(a, b) => new Date(a.createdAt).getTime() - new Date(b.createdAt).getTime()] *)
Definition byCreatedAt (a b : Attempt.t) : Z :=
  Attempt.createdAt a - Attempt.createdAt b.

(** [(a, b) => new Date(b.newestAttempt).getTime() - new Date(a.newestAttempt).getTime()] *)
Definition byNewestDesc (a b : ProcessedMessage.t) : Z :=
  newestAttempt b - newestAttempt a.

(** A JavaScript number holding a count. *)
Definition number_of_nat (n : nat) : float :=
  PrimFloat.of_uint63 (Uint63.of_Z (Z.of_nat n)).

(** [attempts.forEach(...)] of lines 373-382: attempts without a
    [messageId] are skipped, the others are pushed onto their group. *)
Definition groupStep (messageMap : list (string * list Attempt.t))
    (attempt : Attempt.t) : list (string * list Attempt.t) :=
  match Attempt.messageId attempt with
  | None => messageMap
  | Some mid =>
      if decide (mid = "") then messageMap
      else
        let messageMap :=
          if JsMap.has messageMap mid then messageMap
          else JsMap.set messageMap mid [] in
        match JsMap.get messageMap mid with
        | Some group => JsMap.set messageMap mid (group ++ [attempt])
        | None => messageMap
        end
  end.

Definition groupByMessageId (attempts : list Attempt.t)
    : list (string * list Attempt.t) :=
  foldl groupStep [] attempts.

(** [attempts[0].createdAt] and [attempts[attempts.length - 1].createdAt].
    Reading element 0 of an empty array would throw; every array these are
    applied to is non-empty ([groupByMessageId_nonempty] and
    [newAttempts.length > 0]), so the fallback is never taken. *)
Definition firstCreatedAt (attempts : list Attempt.t) : Z :=
  from_option Attempt.createdAt 0 (head attempts).

Definition lastCreatedAt (attempts : list Attempt.t) : Z :=
  from_option Attempt.createdAt 0 (last attempts).

Definition firstHookId (attempts : list Attempt.t) : string :=
  from_option Attempt.hookId "" (head attempts).

(** [(attempts.filter((a) => !a.isFailure).length / attempts.length) * 100] *)
Definition successRateOf (attempts : list Attempt.t) : float :=
  let successfulAttempts :=
    length (filter (fun a => Attempt.isFailure a = false) attempts) in
  PrimFloat.mul
    (PrimFloat.div (number_of_nat successfulAttempts)
                   (number_of_nat (length attempts)))
    100%float.

(** The last element of [attempts.filter((a) => a.isFailure)], or [null]. *)
Definition latestFailureOf (attempts : list Attempt.t) : option Attempt.t :=
  last (filter (fun a => Attempt.isFailure a = true) attempts).

(** Lines 410-421; [None] is [undefined]. *)
Definition isLargePayloadFailure (latestFailure : option Attempt.t)
    : option bool :=
  match latestFailure with
  | Some f =>
      Some (lower_includes (Attempt.failureReason f) "payload too large"
            || lower_includes (Attempt.failureReason f) "request entity too large"
            || lower_includes (Attempt.resultBody f) "payload too large"
            || (Attempt.resultCode f =? 413))%bool
  | None => None
  end.

(** [errorMap], lines 361-364. *)
Definition buildErrorMap (messagesWithErrors : list MessageWithError.t)
    : gmap string string :=
  foldl (fun errorMap item =>
           <[MessageWithError.id item := MessageWithError.error item]> errorMap)
        ∅ messagesWithErrors.

(** [errorMap.get(messageId) || null]: an empty error text is falsy. *)
Definition parsingErrorOf (errorMap : gmap string string) (mid : string)
    : option string :=
  match errorMap !! mid with
  | Some e => if decide (e = "") then None else Some e
  | None => None
  end.

(** The body of [messageMap.forEach], lines 387-442.  The identifier map
    is a plain object of own properties: [messageId in map] is a lookup. *)
Definition deriveMessage (messageIdToDocumentId : gmap string string)
    (errorMap : gmap string string)
    (entry : string * list Attempt.t) : ProcessedMessage.t :=
  let mid := entry.1 in
  let attempts := array_sort byCreatedAt entry.2 in
  let latestFailure := latestFailureOf attempts in
  {| messageId := mid;
     oldestAttempt := firstCreatedAt attempts;
     newestAttempt := lastCreatedAt attempts;
     attemptCount := length attempts;
     successRate := successRateOf attempts;
     hookId := firstHookId attempts;
     documentId := messageIdToDocumentId !! mid;
     attempts := attempts;
     latestFailure := latestFailure;
     parsingError := parsingErrorOf errorMap mid;
     largePayloadFailure := isLargePayloadFailure latestFailure |}.

(** [existingAttemptMap], lines 455-463: the ids of every member attempt
    of every existing aggregate. *)
Definition buildExistingAttemptMap (messages : list ProcessedMessage.t)
    : gset string :=
  foldl (fun acc msg =>
           foldl (fun acc attempt => {[Attempt.id attempt]} ∪ acc)
                 acc (attempts msg))
        ∅ messages.

(** The entries [[msg.messageId, { ...msg }]] of lines 459 and 470. *)
Definition messageEntries (messages : list ProcessedMessage.t)
    : list (string * ProcessedMessage.t) :=
  (fun msg => (messageId msg, msg)) <$> messages.

(** Lines 496-517: the existing aggregate with its attempts replaced by the
    combined, re-sorted list and five fields recomputed from it. *)
Definition updateMessage (existingMsg : ProcessedMessage.t)
    (newAttempts : list Attempt.t) : ProcessedMessage.t :=
  let combinedAttempts :=
    array_sort byCreatedAt (attempts existingMsg ++ newAttempts) in
  {| messageId := messageId existingMsg;
     oldestAttempt := firstCreatedAt combinedAttempts;
     newestAttempt := lastCreatedAt combinedAttempts;
     attemptCount := length combinedAttempts;
     successRate := successRateOf combinedAttempts;
     hookId := hookId existingMsg;
     documentId := documentId existingMsg;
     attempts := combinedAttempts;
     latestFailure := latestFailureOf combinedAttempts;
     parsingError := parsingError existingMsg;
     largePayloadFailure := largePayloadFailure existingMsg |}.

(** [newMsg.attempts.filter((attempt) => !existingAttemptMap.has(attempt.id))] *)
Definition unseenAttempts (existingAttemptMap : gset string)
    (candidates : list Attempt.t) : list Attempt.t :=
  filter (fun attempt => Attempt.id attempt ∉ existingAttemptMap) candidates.

(** The body of [processedMessages.forEach], lines 474-527. *)
Definition mergeStep (existingMessageMap : list (string * ProcessedMessage.t))
    (existingAttemptMap : gset string)
    (combinedMessagesMap : list (string * ProcessedMessage.t))
    (newMsg : ProcessedMessage.t) : list (string * ProcessedMessage.t) :=
  if JsMap.has existingMessageMap (messageId newMsg) then
    match JsMap.get combinedMessagesMap (messageId newMsg) with
    | Some existingMsg =>
        let newAttempts := unseenAttempts existingAttemptMap (attempts newMsg) in
        if (0 <? length newAttempts)%nat then
          JsMap.set combinedMessagesMap (messageId newMsg)
                    (updateMessage existingMsg newAttempts)
        else combinedMessagesMap
    | None => combinedMessagesMap
    end
  else JsMap.set combinedMessagesMap (messageId newMsg) newMsg.

(** Lines 371-449: the aggregates of one batch, newest first. *)
Definition processBatch (attempts : list Attempt.t)
    (messageIdToDocumentId : gmap string string)
    (messagesWithErrors : list MessageWithError.t) : list ProcessedMessage.t :=
  let errorMap := buildErrorMap messagesWithErrors in
  let messageMap := groupByMessageId attempts in
  array_sort byNewestDesc
    (deriveMessage messageIdToDocumentId errorMap <$> messageMap).

(** [processApiData], with the component state [messages] passed in and the
    argument of [setMessages] returned. *)
Definition processApiData (messages : list ProcessedMessage.t)
    (attempts : list Attempt.t)
    (messageIdToDocumentId : gmap string string)
    (messagesWithErrors : list MessageWithError.t)
    (isLoadingMoreData : bool) : list ProcessedMessage.t :=
  let processedMessages :=
    processBatch attempts messageIdToDocumentId messagesWithErrors in
  if (isLoadingMoreData && (0 <? length messages)%nat)%bool then
    let existingMessageMap := JsMap.from_entries (messageEntries messages) in
    let existingAttemptMap := buildExistingAttemptMap messages in
    let combinedMessagesMap := JsMap.from_entries (messageEntries messages) in
    let combinedMessagesMap :=
      foldl (mergeStep existingMessageMap existingAttemptMap)
            combinedMessagesMap processedMessages in
    array_sort byNewestDesc (JsMap.values combinedMessagesMap)
  else processedMessages.

(** A session of the component: [messages] starts as [[]] ([useState([])])
    and every call of [processApiData] replaces it.  A call made from an
    older render reads an older state; that state and the one the call
    leaves are again reached by a sequence of calls from [[]]. *)
Record Call := mkCall {
  batch : list Attempt.t;
  documentIds : gmap string string;
  parsingErrors : list MessageWithError.t;
  incremental : bool
}.

Definition runCall (messages : list ProcessedMessage.t) (c : Call)
    : list ProcessedMessage.t :=
  processApiData messages (batch c) (documentIds c) (parsingErrors c)
                 (incremental c).

Definition runCalls (calls : list Call) : list ProcessedMessage.t :=
  foldl runCall [] calls.

(** ** The route handlers *)

Module Route.

(** A JavaScript number that may be [NaN]. *)
Definition number := option Z.

Definition num_add (a b : number) : number :=
  match a, b with Some x, Some y => Some (x + y) | _, _ => None end.

Definition num_mul (a b : number) : number :=
  match a, b with Some x, Some y => Some (x * y) | _, _ => None end.

(** [Math.min(a, b)] *)
Definition num_min (a b : number) : number :=
  match a, b with Some x, Some y => Some (Z.min x y) | _, _ => None end.

Definition is_space (c : ascii) : bool :=
  let n := nat_of_ascii c in
  ((n =? 32)%nat || ((9 <=? n)%nat && (n <=? 13)%nat))%bool.

Fixpoint trimStart (s : string) : string :=
  match s with
  | String c r => if is_space c then trimStart r else s
  | EmptyString => EmptyString
  end.

Fixpoint trimEnd (s : string) : string :=
  match s with
  | String c r =>
      match trimEnd r with
      | EmptyString => if is_space c then EmptyString else String c EmptyString
      | r' => String c r'
      end
  | EmptyString => EmptyString
  end.

(** [s.trim()], on ASCII white space. *)
Definition trim (s : string) : string := trimEnd (trimStart s).

Definition digit_of (c : ascii) : option Z :=
  let n := nat_of_ascii c in
  if ((48 <=? n)%nat && (n <=? 57)%nat)%bool then Some (Z.of_nat (n - 48)) else None.

Fixpoint leading_digits (s : string) (acc : option Z) : option Z :=
  match s with
  | String c r =>
      match digit_of c with
      | Some d => leading_digits r (Some (from_option (fun a => 10 * a) 0 acc + d))
      | None => acc
      end
  | EmptyString => acc
  end.

(** [parseInt(s, 10)]: white space, an optional sign, then the longest run
    of digits; [NaN] when there is none. *)
Definition parseInt (s : string) : number :=
  match trimStart s with
  | String "-" r => Z.opp <$> leading_digits r None
  | String "+" r => leading_digits r None
  | r => leading_digits r None
  end.

(** A query parameter or an environment variable is truthy when it is
    present and not the empty string. *)
Definition truthy (v : option string) : bool :=
  match v with
  | Some s => if decide (s = "") then false else true
  | None => false
  end.

(** [url.searchParams] *)
Record Request := mkRequest {
  projectId : option string;
  webhookId : option string;
  offset : option string;
  limit : option string;
  before : option string
}.

(** One call of [fetch]: the URL with its query and the bearer token. *)
Record UpstreamRequest := mkUpstreamRequest {
  baseUrl : string;
  limitQuery : number;
  offsetQuery : number;
  bearer : string
}.

(** What one call of [fetch] comes back with: a rejection; an answer that
    is not [ok], with its status and the text of its body, [None] for an
    answer that has no body; or the records of an answer that is [ok]. *)
Inductive FetchResult (A : Type) :=
| NetworkError
| HttpError (status : Z) (body : option string)
| HttpOk (data : list A).
Arguments NetworkError {A}.
Arguments HttpError {A}.
Arguments HttpOk {A}.

(** A [Date], [None] when invalid. *)
Definition date := option Z.

Definition hours (n : Z) : Z := n * 3600000.

(** [d >= start && d <= end]; a comparison with an invalid date is false. *)
Definition inWindow (start end_ : date) (d : Z) : bool :=
  match start, end_ with
  | Some s, Some e => (s <=? d) && (d <=? e)
  | _, _ => false
  end.

Record TimeWindow := mkTimeWindow {
  start : Z;
  end_ : Z;
  olderDataAvailable : bool
}.

Record Pagination := mkPagination {
  pg_offset : number;
  pg_limit : number;
  hasMore : bool;
  nextOffset : option number;   (* [None] is [null] *)
  totalFetched : nat;
  pages : nat
}.

Record AttemptsBody := mkAttemptsBody {
  ab_attempts : list Attempt.t;
  pagination : Pagination;
  ab_timeWindow : TimeWindow
}.

(** [NextResponse.json(...)] *)
Inductive Response (B : Type) :=
| JsonError (status : Z) (error : string)
| JsonOk (body : B).
Arguments JsonError {B}.
Arguments JsonOk {B}.

Definition missingParameters : string :=
  "Missing required parameters: projectId and webhookId are required".

Definition tokenUndefined : string :=
  "SANITY_API_TOKEN is not defined in environment variables".

Definition MAX_OFFSET : Z := 950.
Definition MAX_PAGES : nat := 10.
Definition MAX_PARALLEL_REQUESTS : nat := 3.
Definition PAGES_TO_FETCH : nat := Nat.min MAX_PAGES 5.

(** [Array.from({ length: n }, (_, i) => f(i))] *)
Definition arrayFrom {A} (n : nat) (f : nat -> A) : list A := f <$> seq 0 n.

(** [(a, b) => new Date(b.createdAt).getTime() - new Date(a.createdAt).getTime()] *)
Definition byCreatedAtDesc (a b : Attempt.t) : Z :=
  Attempt.createdAt b - Attempt.createdAt a.

(** [Date.prototype.toISOString] throws on an invalid date. *)
Definition toISOString (d : date) : string + Z :=
  match d with Some t => inr t | None => inl "Invalid time value" end.

Section handlers.
(** The platform: [new Date(s)] on a query parameter, the clock, the
    environment and the upstream API; and [hoursEarlier t n], the instant
    that [d.setHours(d.getHours() - n)] leaves in a date [d] of instant
    [t]: the one whose wall-clock reading in the time zone of the server
    is [n] hours before that of [t].  It is [t - hours n] unless the clock
    of the zone was changed in between. *)
Variable parseDate : string -> date.
Variable now : Z.
Variable SANITY_API_TOKEN : option string.
Variable hoursEarlier : Z -> Z -> Z.

(** [d.setHours(d.getHours() - n)]; an invalid date stays invalid. *)
Definition minusHours (d : date) (n : Z) : date :=
  (fun t => hoursEarlier t n) <$> d.

(** [timeWindowStart] and [timeWindowEnd], with a window of [withBefore]
    hours before the [before] parameter or of [recent] hours before now. *)
Definition timeWindowOf (beforeTimestamp : option string)
    (withBefore recent : Z) : date * date :=
  if truthy beforeTimestamp then
    let d := parseDate (default "" beforeTimestamp) in
    (minusHours d withBefore, d)
  else (minusHours (Some now) recent, Some now).

(** The [timeWindow] object of a response; [toISOString] may throw. *)
Definition timeWindowBody (beforeTimestamp : option string)
    (timeWindowStart timeWindowEnd : date) : string + TimeWindow :=
  match toISOString timeWindowStart with
  | inl e => inl e
  | inr s =>
      match toISOString timeWindowEnd with
      | inl e => inl e
      | inr e =>
          inr {| start := s; end_ := e;
                 olderDataAvailable :=
                   negb (truthy beforeTimestamp) || (0 <? s) |}
      end
  end.

(** One page of the attempts route, lines 77-125: a failed request or a
    non-2xx answer is an empty page. *)
Definition attemptsPage (fetch : UpstreamRequest -> FetchResult Attempt.t)
    (timeWindowStart timeWindowEnd : date) (rq : UpstreamRequest)
    : list Attempt.t :=
  match fetch rq with
  | HttpOk data =>
      filter (fun a => inWindow timeWindowStart timeWindowEnd
                                (Attempt.createdAt a) = true) data
  | HttpError _ _ => []
  | NetworkError => []
  end.

(** [GET] of src/app/api/webhook-attempts/route.ts, lines 9-172.  The
    result is the response and the upstream requests that were issued. *)
Definition GET_attempts (fetch : UpstreamRequest -> FetchResult Attempt.t)
    (request : Request) : Response AttemptsBody * list UpstreamRequest :=
  let initialOffset : number :=
    if truthy (offset request) then parseInt (default "" (offset request))
    else Some 0 in
  let limit : number :=
    if truthy (limit request)
    then num_min (parseInt (default "" (limit request))) (Some 50)
    else Some 50 in
  if negb (truthy (projectId request)) || negb (truthy (webhookId request)) then
    (JsonError 400 missingParameters, [])
  else
    let '(timeWindowStart, timeWindowEnd) :=
      timeWindowOf (before request) 24 12 in
    let baseUrl :=
      "https://api.sanity.io/v2021-10-04/hooks/projects/"
      +:+ default "" (projectId request) +:+ "/"
      +:+ default "" (webhookId request) +:+ "/attempts" in
    let token := trim <$> SANITY_API_TOKEN in
    if negb (truthy token) then (JsonError 500 tokenUndefined, [])
    else
      let offsets :=
        arrayFrom PAGES_TO_FETCH
          (fun i => num_add initialOffset (num_mul (Some (Z.of_nat i)) limit)) in
      let requests :=
        (fun currentOffset =>
           mkUpstreamRequest baseUrl limit currentOffset (default "" token))
          <$> offsets in
      let results := attemptsPage fetch timeWindowStart timeWindowEnd <$> requests in
      let allAttempts := array_sort byCreatedAtDesc (concat results) in
      let hasMore := (MAX_PAGES <=? length offsets)%nat in
      match timeWindowBody (before request) timeWindowStart timeWindowEnd with
      | inl e => (JsonError 500 e, requests)
      | inr tw =>
          (JsonOk {| ab_attempts := allAttempts;
                     pagination :=
                       {| pg_offset := initialOffset;
                          pg_limit := limit;
                          hasMore := hasMore;
                          nextOffset :=
                            if hasMore then Some (num_add initialOffset limit)
                            else None;
                          totalFetched := length allAttempts;
                          pages := PAGES_TO_FETCH |};
                     ab_timeWindow := tw |},
           requests)
      end.


(** *** The messages route and the payload decoder *)

(** The values [JSON.parse] returns. *)
#[local] Set Warnings "-register-all".
Inductive JsValue :=
| JNull
| JBool (b : bool)
| JNumber (n : float)
| JString (s : string)
| JArray (items : list JsValue)
| JObject (fields : list (string * JsValue)).

(** Truthiness of a parsed value. *)
Definition js_truthy (v : JsValue) : bool :=
  match v with
  | JNull => false
  | JBool b => b
  | JNumber n => negb (PrimFloat.eqb n 0%float || PrimFloat.is_nan n)
  | JString s => if decide (s = "") then false else true
  | JArray _ => true
  | JObject _ => true
  end.

(** [v.name] for a value [v] that is not [null]: an own property of an
    object, [undefined] ([None]) otherwise. *)
Definition js_get (v : JsValue) (name : string) : option JsValue :=
  match v with
  | JObject fields => JsMap.get fields name
  | _ => None
  end.

Definition cannotReadAfter : string :=
  "Cannot read properties of null (reading 'after')".

(** [payload.after && payload.after._id], as the value that is assigned to
    the identifier map when it is truthy; reading [after] of [null] throws
    a [TypeError]. *)
Definition afterId (payload : JsValue) : string + option JsValue :=
  match payload with
  | JNull => inl cannotReadAfter
  | _ =>
      match js_get payload "after" with
      | Some after =>
          if js_truthy after then
            match js_get after "_id" with
            | Some _id => if js_truthy _id then inr (Some _id) else inr None
            | None => inr None
            end
          else inr None
      | None => inr None
      end
  end.

Record WebhookMessage := mkWebhookMessage {
  wm_id : string;
  wm_createdAt : Z;
  wm_payload : option string
}.

(** [(a, b) => new Date(b.createdAt).getTime() - new Date(a.createdAt).getTime()] *)
Definition messagesByCreatedAtDesc (a b : WebhookMessage) : Z :=
  wm_createdAt b - wm_createdAt a.

Section decoder.
(** [JSON.parse]: a parsed value, or the message of the [SyntaxError]. *)
Variable JSON_parse : string -> string + JsValue.

(** The [try] block of the decoding loop: [inl] is the message of the
    exception it throws, [inr (Some v)] the identifier it stores. *)
Definition tryExtract (message : WebhookMessage) : string + option JsValue :=
  if truthy (wm_payload message) then
    match JSON_parse (default "" (wm_payload message)) with
    | inl e => inl e
    | inr payload => afterId payload
    end
  else inr None.

(** src/app/api/webhook-attempts/route.ts, lines 470-484: the current
    decoder records [{ id, error }]. *)
Definition decodeStep (acc : gmap string JsValue * list MessageWithError.t)
    (message : WebhookMessage) : gmap string JsValue * list MessageWithError.t :=
  let '(messageIdToDocumentId, messagesWithParsingErrors) := acc in
  match tryExtract message with
  | inr (Some _id) =>
      (<[wm_id message := _id]> messageIdToDocumentId, messagesWithParsingErrors)
  | inr None => acc
  | inl e =>
      (messageIdToDocumentId,
       messagesWithParsingErrors ++ [MessageWithError.mk (wm_id message) e None])
  end.

Definition decodeMessages (allMessages : list WebhookMessage)
    : gmap string JsValue * list MessageWithError.t :=
  foldl decodeStep (∅, []) allMessages.

(** src/unnamed/part_001, lines 139-156: the earlier decoder adds the start
    of the payload, [message.payload.substring(0, 100) + '...']. *)
Definition payloadSnippet (message : WebhookMessage) : option string :=
  if truthy (wm_payload message)
  then Some (substring0 100 (default "" (wm_payload message)) +:+ "...")
  else None.

Definition decodeStepSnippet (acc : gmap string JsValue * list MessageWithError.t)
    (message : WebhookMessage) : gmap string JsValue * list MessageWithError.t :=
  let '(messageIdToDocumentId, messagesWithParsingErrors) := acc in
  match tryExtract message with
  | inr (Some _id) =>
      (<[wm_id message := _id]> messageIdToDocumentId, messagesWithParsingErrors)
  | inr None => acc
  | inl e =>
      (messageIdToDocumentId,
       messagesWithParsingErrors
         ++ [MessageWithError.mk (wm_id message) e (payloadSnippet message)])
  end.

Definition decodeMessagesSnippet (allMessages : list WebhookMessage)
    : gmap string JsValue * list MessageWithError.t :=
  foldl decodeStepSnippet (∅, []) allMessages.

Record MessagesBody := mkMessagesBody {
  mb_documentIds : gmap string JsValue;
  messagesWithErrors : list MessageWithError.t;
  timestamp : Z;
  mb_timeWindow : TimeWindow
}.

Definition MESSAGE_PAGES : nat := 3.

(** One page of the messages route, route.ts lines 401-446. *)
Definition messagesPage (fetch : UpstreamRequest -> FetchResult WebhookMessage)
    (timeWindowStart timeWindowEnd : date) (rq : UpstreamRequest)
    : list WebhookMessage :=
  match fetch rq with
  | HttpOk data =>
      filter (fun m => inWindow timeWindowStart timeWindowEnd
                                (wm_createdAt m) = true) data
  | HttpError _ _ => []
  | NetworkError => []
  end.

(** [GET] of the messages route.  [earlier = false] is the current handler
    (route.ts, lines 345-509); [earlier = true] is the handler of
    src/unnamed/part_001, lines 3-185, which logs the time window (so an
    invalid [before] throws before any request is made) and records payload
    snippets. *)
Definition GET_messages (earlier : bool)
    (fetch : UpstreamRequest -> FetchResult WebhookMessage)
    (request : Request) : Response MessagesBody * list UpstreamRequest :=
  if negb (truthy (projectId request)) || negb (truthy (webhookId request)) then
    (JsonError 400 missingParameters, [])
  else
    let baseUrl :=
      "https://" +:+ default "" (projectId request)
      +:+ ".api.sanity.io/v2021-10-04/hooks/"
      +:+ default "" (webhookId request) +:+ "/messages" in
    let token := trim <$> SANITY_API_TOKEN in
    if negb (truthy token) then (JsonError 500 tokenUndefined, [])
    else
      let limit : number := Some 50 in
      let '(timeWindowStart, timeWindowEnd) :=
        timeWindowOf (before request) 12 6 in
      match (if earlier && truthy (before request)
             then timeWindowBody (before request) timeWindowStart timeWindowEnd
             else inr (mkTimeWindow 0 0 false)) with
      | inl e => (JsonError 500 e, [])
      | inr _ =>
          let offsets :=
            arrayFrom MESSAGE_PAGES (fun i => num_mul (Some (Z.of_nat i)) limit) in
          let requests :=
            (fun currentOffset =>
               mkUpstreamRequest baseUrl limit currentOffset (default "" token))
              <$> offsets in
          let results :=
            messagesPage fetch timeWindowStart timeWindowEnd <$> requests in
          let allMessages :=
            array_sort messagesByCreatedAtDesc (concat results) in
          let '(messageIdToDocumentId, messagesWithParsingErrors) :=
            if earlier then decodeMessagesSnippet allMessages
            else decodeMessages allMessages in
          match timeWindowBody (before request) timeWindowStart timeWindowEnd with
          | inl e => (JsonError 500 e, requests)
          | inr tw =>
              (JsonOk {| mb_documentIds := messageIdToDocumentId;
                         messagesWithErrors := messagesWithParsingErrors;
                         timestamp := now;
                         mb_timeWindow := tw |},
               requests)
          end
      end.

End decoder.
End handlers.
End Route.


(** ** The sequential handlers of src/unnamed *)

Module Sequential.
Import Route.

Definition limit : Z := 50.
Definition MAX_OFFSET : Z := 1000.

(** [`API responded with status: ${response.status}${errorText ? ` - ${errorText}` : ''}`] *)
Definition apiErrorMessage (status : Z) (errorText : string) : string :=
  "API responded with status: " +:+ pretty status
  +:+ (if decide (errorText = "") then "" else " - " +:+ errorText).

(** [error.message || fallback] *)
Definition messageOr (message fallback : string) : string :=
  if decide (message = "") then fallback else message.

Record MessagesBody := mkMessagesBody {
  documentIds : gmap string JsValue;
  messagesWithErrors : list MessageWithError.t;
  timestamp : Z
}.

Section handlers.
(** The platform: the clock, [hoursEarlier] as for the routes, the
    environment, [JSON.parse] and [JSON.stringify], the message of the
    error a failed [fetch] rejects with, and the message of the [TypeError]
    that reading the body of a response a second time rejects with. *)
Variable now : Z.
Variable hoursEarlier : Z -> Z -> Z.
Variable SANITY_API_TOKEN : option string.
Variable JSON_parse : string -> string + JsValue.
Variable JSON_stringify : JsValue -> string.
Variable fetchFailed : string.
Variable bodyUnusable : string.

(** part_001, lines 245-260, and part_000, lines 59-71, for an answer
    that is not [ok].  [response.json()] reads the body: when it is JSON,
    [errorText] is its [JSON.stringify] and the loop throws the message
    with the status.  When it is not, the [catch] calls [response.text()]:
    on a body that was read already this rejects, and that error is the
    one that leaves the loop; on an answer without a body there is nothing
    that was read, [text()] is the empty string and the message has the
    status alone. *)
Definition notOkError (status : Z) (body : option string) : string :=
  match JSON_parse (default "" body) with
  | inr errorData => apiErrorMessage status (JSON_stringify errorData)
  | inl _ =>
      match body with
      | Some _ => bodyUnusable
      | None => apiErrorMessage status ""
      end
  end.

Section loop.
Context {A : Type} (createdAt : A -> Z).
Variable fetch : UpstreamRequest -> FetchResult A.
Variable baseUrl token : string.
Variable twentyFourHoursAgo : Z.

(** The [while] loop of src/unnamed/part_001, lines 230-305, from the state
    [(hasMoreData, offset, allMessages)]; [issued] collects the requests.
    [inl] is the message of the error the loop throws; [None] is a loop
    that is still running when [fuel] iterations are over. *)
Fixpoint fetchPages (fuel : nat) (hasMoreData : bool) (offset : Z)
    (allMessages : list A) (issued : list UpstreamRequest)
    : option ((string + list A) * list UpstreamRequest) :=
  if hasMoreData && (offset <? MAX_OFFSET) then
    match fuel with
    | O => None
    | S fuel =>
        let rq := mkUpstreamRequest baseUrl (Some limit) (Some offset) token in
        let issued := issued ++ [rq] in
        match fetch rq with
        | NetworkError => Some (inl fetchFailed, issued)
        | HttpError status body =>
            Some (inl (notOkError status body), issued)
        | HttpOk data =>
            if (length data =? 0)%nat then
              fetchPages fuel false offset allMessages issued
            else
              let recentMessages :=
                filter (fun message => twentyFourHoursAgo <= createdAt message)
                       data in
              let allMessages := allMessages ++ recentMessages in
              if (length recentMessages <? length data)%nat then
                fetchPages fuel false offset allMessages issued
              else if Z.of_nat (length data) <? limit then
                fetchPages fuel false offset allMessages issued
              else
                let offset := offset + limit in
                if MAX_OFFSET <=? offset
                then fetchPages fuel false offset allMessages issued
                else fetchPages fuel hasMoreData offset allMessages issued
        end
    end
  else Some (inr allMessages, issued).

End loop.

(** [GET] of src/unnamed/part_001, lines 188-355.  One iteration per page
    up to [MAX_OFFSET] is all the loop can take ([GET_messages_returns]). *)
Definition GET_messages (fetch : UpstreamRequest -> FetchResult WebhookMessage)
    (request : Request)
    : option (Response MessagesBody * list UpstreamRequest) :=
  if negb (truthy (projectId request)) || negb (truthy (webhookId request)) then
    Some (JsonError 400 missingParameters, [])
  else
    let baseUrl :=
      "https://" +:+ default "" (projectId request)
      +:+ ".api.sanity.io/v2021-10-04/hooks/"
      +:+ default "" (webhookId request) +:+ "/messages" in
    let token := trim <$> SANITY_API_TOKEN in
    if negb (truthy token) then Some (JsonError 500 tokenUndefined, [])
    else
      let twentyFourHoursAgo := hoursEarlier now 24 in
      match fetchPages wm_createdAt fetch baseUrl (default "" token)
                       twentyFourHoursAgo
                       (Z.to_nat (MAX_OFFSET / limit)) true 0 [] [] with
      | None => None
      | Some (inl e, issued) =>
          Some (JsonError 500 (messageOr e "Failed to fetch webhook messages"),
                issued)
      | Some (inr allMessages, issued) =>
          let '(messageIdToDocumentId, messagesWithParsingErrors) :=
            decodeMessagesSnippet JSON_parse allMessages in
          Some (JsonOk {| documentIds := messageIdToDocumentId;
                          messagesWithErrors := messagesWithParsingErrors;
                          timestamp := now |},
                issued)
      end.

Section attempts_loop.
Variable fetch : UpstreamRequest -> FetchResult Attempt.t.
Variable baseUrl token : string.
Variable twentyFourHoursAgo : Z.

(** The [while] loop of src/unnamed/part_000, lines 44-109, from the state
    [(hasMoreData, reachedOldData, offset, allAttempts)]. *)
Fixpoint fetchAttemptPages (fuel : nat) (hasMoreData reachedOldData : bool)
    (offset : Z) (allAttempts : list Attempt.t) (issued : list UpstreamRequest)
    : option ((string + list Attempt.t) * list UpstreamRequest) :=
  if hasMoreData && negb reachedOldData && (offset <? MAX_OFFSET) then
    match fuel with
    | O => None
    | S fuel =>
        let rq := mkUpstreamRequest baseUrl (Some limit) (Some offset) token in
        let issued := issued ++ [rq] in
        match fetch rq with
        | NetworkError => Some (inl fetchFailed, issued)
        | HttpError status body =>
            Some (inl (notOkError status body), issued)
        | HttpOk data =>
            if (length data =? 0)%nat then
              fetchAttemptPages fuel false reachedOldData offset allAttempts issued
            else
              let recentAttempts :=
                filter (fun attempt =>
                          twentyFourHoursAgo <= Attempt.createdAt attempt)
                       data in
              let allAttempts := allAttempts ++ recentAttempts in
              if (length recentAttempts <? length data)%nat then
                fetchAttemptPages fuel hasMoreData true offset allAttempts issued
              else if Z.of_nat (length data) <? limit then
                fetchAttemptPages fuel false reachedOldData offset allAttempts
                                  issued
              else
                let offset := offset + limit in
                if MAX_OFFSET <=? offset
                then fetchAttemptPages fuel false reachedOldData offset
                                       allAttempts issued
                else fetchAttemptPages fuel hasMoreData reachedOldData offset
                                       allAttempts issued
        end
    end
  else Some (inr allAttempts, issued).

End attempts_loop.

(** [GET] of src/unnamed/part_000: the answer is the bare array of
    attempts. *)
Definition GET_attempts (fetch : UpstreamRequest -> FetchResult Attempt.t)
    (request : Request)
    : option (Response (list Attempt.t) * list UpstreamRequest) :=
  if negb (truthy (projectId request)) || negb (truthy (webhookId request)) then
    Some (JsonError 400 missingParameters, [])
  else
    let twentyFourHoursAgo := hoursEarlier now 24 in
    let baseUrl :=
      "https://api.sanity.io/v2021-10-04/hooks/projects/"
      +:+ default "" (projectId request) +:+ "/"
      +:+ default "" (webhookId request) +:+ "/attempts" in
    let token := trim <$> SANITY_API_TOKEN in
    if negb (truthy token) then Some (JsonError 500 tokenUndefined, [])
    else
      match fetchAttemptPages fetch baseUrl (default "" token)
                              twentyFourHoursAgo
                              (Z.to_nat (MAX_OFFSET / limit))
                              true false 0 [] [] with
      | None => None
      | Some (inl e, issued) =>
          Some (JsonError 500 (messageOr e "Failed to fetch webhook attempts"),
                issued)
      | Some (inr allAttempts, issued) => Some (JsonOk allAttempts, issued)
      end.

End handlers.
End Sequential.

(** ** The table of src/app/page.tsx: filter, sort and pages *)

Module View.

Inductive SortField :=
| sort_messageId
| sort_documentId
| sort_oldestAttempt
| sort_newestAttempt
| sort_attemptCount
| sort_successRate.

(** The string a [SortField] is in the source. *)
Definition fieldName (field : SortField) : string :=
  match field with
  | sort_messageId => "messageId"
  | sort_documentId => "documentId"
  | sort_oldestAttempt => "oldestAttempt"
  | sort_newestAttempt => "newestAttempt"
  | sort_attemptCount => "attemptCount"
  | sort_successRate => "successRate"
  end.

Inductive SortDirection := asc | desc.

#[export] Instance SortField_eq_dec : EqDecision SortField.
Proof. solve_decision. Defined.

#[export] Instance SortDirection_eq_dec : EqDecision SortDirection.
Proof. solve_decision. Defined.

(** [getStatusBadge], lines 571-583: the badge, without its markup; the
    partial badge shows the rate. *)
Inductive Badge := Success | Failed | Partial (successRate : float).

Definition getStatusBadge (successRate : float) : Badge :=
  if PrimFloat.eqb successRate 100 then Success
  else if PrimFloat.eqb successRate 0 then Failed
  else Partial successRate.

(** [toggleExpand], lines 585-595: the new set. *)
Definition toggleExpand (prev : gset string) (messageId : string)
    : gset string :=
  if decide (messageId ∈ prev) then prev ∖ {[messageId]}
  else prev ∪ {[messageId]}.

(** [handleSort], lines 617-632: the sort field and direction after a
    click on the header of [field]. *)
Definition handleSort (sortField : SortField) (sortDirection : SortDirection)
    (field : SortField) : SortField * SortDirection :=
  if decide (field = sortField) then
    (sortField, if decide (sortDirection = asc) then desc else asc)
  else
    (field,
     if includes (fieldName field) "Attempt" then desc
     else if decide (field = sort_attemptCount) then desc
     else asc).

(** The status part, lines 656-663. *)
Definition matchesStatus (statusFilter : string) (message : ProcessedMessage.t)
    : bool :=
  if decide (statusFilter = "success") then
    PrimFloat.eqb (successRate message) 100
  else if decide (statusFilter = "failed") then
    PrimFloat.eqb (successRate message) 0
  else if decide (statusFilter = "partial") then
    PrimFloat.ltb 0 (successRate message)
    && PrimFloat.ltb (successRate message) 100
  else true.

(** What [sort] sees of a comparator that returns a float: its sign, and
    [NaN] as a tie. *)
Definition floatSign (x : float) : Z :=
  if PrimFloat.ltb x 0 then -1 else if PrimFloat.ltb 0 x then 1 else 0.

Section view.
(** [String.prototype.toLowerCase], and [String.prototype.localeCompare]
    in the locale of the browser. *)
Variable toLowerCase : string -> string.
Variable localeCompare : string -> string -> Z.

(** The search part of the filter, lines 648-653. *)
Definition matchesSearch (searchQuery : string) (message : ProcessedMessage.t)
    : bool :=
  (if decide (searchQuery = "") then true else false)
  || includes (toLowerCase (messageId message)) (toLowerCase searchQuery)
  || match documentId message with
     | Some documentId =>
         Route.truthy (Some documentId)
         && includes (toLowerCase documentId) (toLowerCase searchQuery)
     | None => false
     end
  || includes (toLowerCase (hookId message)) (toLowerCase searchQuery).

(** [filteredMessages], lines 646-666. *)
Definition filteredMessages (searchQuery statusFilter : string)
    (messages : list ProcessedMessage.t) : list ProcessedMessage.t :=
  filter (fun message =>
            matchesSearch searchQuery message
            && matchesStatus statusFilter message = true)
         messages.

(** The comparator of lines 669-712. *)
Definition compareMessages (sortField : SortField)
    (sortDirection : SortDirection) (a b : ProcessedMessage.t) : Z :=
  match sortField with
  | sort_messageId =>
      if decide (sortDirection = asc)
      then localeCompare (messageId a) (messageId b)
      else localeCompare (messageId b) (messageId a)
  | sort_documentId =>
      if negb (Route.truthy (documentId a)) && negb (Route.truthy (documentId b))
      then 0
      else if negb (Route.truthy (documentId a))
      then (if decide (sortDirection = asc) then -1 else 1)
      else if negb (Route.truthy (documentId b))
      then (if decide (sortDirection = asc) then 1 else -1)
      else if decide (sortDirection = asc)
      then localeCompare (default "" (documentId a)) (default "" (documentId b))
      else localeCompare (default "" (documentId b)) (default "" (documentId a))
  | sort_oldestAttempt =>
      if decide (sortDirection = asc)
      then oldestAttempt a - oldestAttempt b
      else oldestAttempt b - oldestAttempt a
  | sort_newestAttempt =>
      if decide (sortDirection = asc)
      then newestAttempt a - newestAttempt b
      else newestAttempt b - newestAttempt a
  | sort_attemptCount =>
      if decide (sortDirection = asc)
      then Z.of_nat (attemptCount a) - Z.of_nat (attemptCount b)
      else Z.of_nat (attemptCount b) - Z.of_nat (attemptCount a)
  | sort_successRate =>
      if decide (sortDirection = asc)
      then floatSign (PrimFloat.sub (successRate a) (successRate b))
      else floatSign (PrimFloat.sub (successRate b) (successRate a))
  end.

(** [sortedMessages], lines 669-712. *)
Definition sortedMessages (searchQuery statusFilter : string)
    (sortField : SortField) (sortDirection : SortDirection)
    (messages : list ProcessedMessage.t) : list ProcessedMessage.t :=
  array_sort (compareMessages sortField sortDirection)
             (filteredMessages searchQuery statusFilter messages).

End view.

(** [Array.prototype.slice(start, end)]: a negative index counts from the
    end of the array. *)
Definition slice {A} (start end_ : Z) (l : list A) : list A :=
  let len := Z.of_nat (length l) in
  let k := if start <? 0 then Z.max (len + start) 0 else Z.min start len in
  let final := if end_ <? 0 then Z.max (len + end_) 0 else Z.min end_ len in
  take (Z.to_nat (final - k)) (drop (Z.to_nat k) l).

(** [Math.ceil(a / b)] for [b > 0], which every [itemsPerPage] is: 25 at
    first, then one of the options 10, 25, 50 and 100. *)
Definition ceilDiv (a b : Z) : Z := - ((- a) / b).

(** Lines 715-718. *)
Definition totalPages (length : nat) (itemsPerPage : Z) : Z :=
  ceilDiv (Z.of_nat length) itemsPerPage.

Definition startIndex (currentPage itemsPerPage : Z) : Z :=
  (currentPage - 1) * itemsPerPage.

Definition endIndex (length : nat) (currentPage itemsPerPage : Z) : Z :=
  Z.min (startIndex currentPage itemsPerPage + itemsPerPage) (Z.of_nat length).

Definition currentMessages {A} (sorted : list A) (currentPage itemsPerPage : Z)
    : list A :=
  slice (startIndex currentPage itemsPerPage)
        (endIndex (length sorted) currentPage itemsPerPage) sorted.

(** An entry of the page list: a number or one of the two ellipses. *)
Inductive PageItem :=
| PageNumber (page : Z)
| EllipsisStart
| EllipsisEnd.

(** [for (let i = first; i <= last; i++) pages.push(i)] *)
Definition pushPages (pages : list PageItem) (first last : Z) : list PageItem :=
  pages ++ (PageNumber <$> seqZ first (last - first + 1)).

(** [getPageNumbers], lines 721-770, for a window of width [innerWidth]. *)
Definition getPageNumbers (innerWidth totalPages currentPage : Z)
    : list PageItem :=
  let pages := [] in
  let maxVisiblePages := if 768 <=? innerWidth then 7 else 5 in
  if totalPages <=? maxVisiblePages then pushPages pages 1 totalPages
  else
    let pages := pages ++ [PageNumber 1] in
    let pagesAroundCurrent := (maxVisiblePages - 2) / 2 in
    let startPage := Z.max 2 (currentPage - pagesAroundCurrent) in
    let endPage := Z.min (totalPages - 1) (currentPage + pagesAroundCurrent) in
    let '(startPage, endPage) :=
      if currentPage <=? pagesAroundCurrent + 1
      then (startPage, Z.min (maxVisiblePages - 1) (totalPages - 1))
      else if totalPages - pagesAroundCurrent <=? currentPage
      then (Z.max 2 (totalPages - maxVisiblePages + 2), endPage)
      else (startPage, endPage) in
    let pages := if 2 <? startPage then pages ++ [EllipsisStart] else pages in
    let pages := pushPages pages startPage endPage in
    let pages :=
      if endPage <? totalPages - 1 then pages ++ [EllipsisEnd] else pages in
    let pages :=
      if 1 <? totalPages then pages ++ [PageNumber totalPages] else pages in
    pages.

(** The three ways to change the page, lines 1326-1362. *)
Definition previousPage (prev : Z) : Z := Z.max (prev - 1) 1.

Definition nextPage (totalPages prev : Z) : Z := Z.min (prev + 1) totalPages.

Definition clickPage (page : PageItem) (currentPage : Z) : Z :=
  match page with PageNumber n => n | _ => currentPage end.

End View.

(** ** Loading: [fetchData] and [handleLoadMore] of src/app/page.tsx *)

Module Loader.

(** What [await fetch(...)] of one of the two routes gives the component:
    a rejected promise, a response that is not [ok] with the [error] of
    its body, or the parsed body of a response that is. *)
Inductive Fetched (B : Type) :=
| Rejected (message : string)
| NotOk (status : Z) (error : option string)
| Ok (body : B).
Arguments Rejected {B}.
Arguments NotOk {B}.
Arguments Ok {B}.

(** The body of the attempts route as the component reads it:
    [attemptsData.attempts], which may be absent. *)
Definition AttemptsData := option (list Attempt.t).

Record MessagesData := mkMessagesData {
  documentIds : option (gmap string string);
  messagesWithErrors : option (list MessageWithError.t)
}.

Record Settings := mkSettings {
  projectId : string;
  webhookId : string
}.

Inductive LoadingState :=
| IDLE | LOADING_INITIAL | LOADING_FULL | COMPLETE | ERROR.

(** The state of the component that loading reads and writes. *)
Record State := mkState {
  messages : list ProcessedMessage.t;
  loadingState : LoadingState;
  error : option string;
  loadingProgress : Z;
  totalItems : Z;
  isLoadingMore : bool;
  hasOlderData : bool
}.


(** [(a, b) => new Date(a.oldestAttempt).getTime() - new Date(b.oldestAttempt).getTime()] *)
Definition byOldestAsc (a b : ProcessedMessage.t) : Z :=
  oldestAttempt a - oldestAttempt b.




Section component.
(** The platform: [Date.prototype.toISOString]; [minuteEarlier t], the
    instant that [d.setMinutes(d.getMinutes() - 1)] leaves in a date [d]
    of instant [t], which is [t - 60000] unless the clock of the time zone
    of the browser was changed in that minute; the two routes as the
    browser reaches them; and the rejection [Promise.all] reports when
    both of its promises reject. *)
Variable isoString : Z -> string.
Variable minuteEarlier : Z -> Z.
Variable fetchAttempts : Route.Request -> Fetched AttemptsData.
Variable fetchMessages : Route.Request -> Fetched MessagesData.
Variable firstRejection : string -> string -> string.
Variable settings : Settings.

(** The query string of both requests. *)
Definition queryOf (before : option string) : Route.Request :=
  Route.mkRequest (Some (projectId settings)) (Some (webhookId settings))
                  None None before.


(** [handleLoadMore], lines 773-849: the state when it returns. *)
Definition handleLoadMore (st : State) : State :=
  if isLoadingMore st || (length (messages st) =? 0)%nat then st
  else
    let finally (messages : list ProcessedMessage.t) (error : option string)
                (hasOlderData : bool) :=
      {| messages := messages; loadingState := loadingState st;
         error := error; loadingProgress := loadingProgress st;
         totalItems := totalItems st; isLoadingMore := false;
         hasOlderData := hasOlderData |} in
    match head (array_sort byOldestAsc (messages st)) with
    | None => finally (messages st) (error st) (hasOlderData st)
    | Some oldestMessage =>
        let oldestDate := minuteEarlier (oldestAttempt oldestMessage) in
        let request := queryOf (Some (isoString oldestDate)) in
        match fetchAttempts request, fetchMessages request with
        | Rejected first, Rejected second =>
            finally (messages st) (Some (firstRejection first second))
                    (hasOlderData st)
        | Rejected message, _ =>
            finally (messages st) (Some message) (hasOlderData st)
        | _, Rejected message =>
            finally (messages st) (Some message) (hasOlderData st)
        | NotOk status _, _ =>
            finally (messages st)
                    (Some ("Attempts API responded with status: "
                           +:+ pretty status))
                    (hasOlderData st)
        | Ok attemptsData, messagesResponse =>
            let allAttempts := default [] attemptsData in
            if (length allAttempts =? 0)%nat then
              finally (messages st) (error st) false
            else
              let '(messageIdToDocumentId, messagesWithErrors) :=
                match messagesResponse with
                | Ok messagesData =>
                    (default ∅ (documentIds messagesData),
                     default [] (Loader.messagesWithErrors messagesData))
                | _ => (∅, [])
                end in
              finally (processApiData (messages st) allAttempts
                                      messageIdToDocumentId messagesWithErrors
                                      true)
                      (error st) (hasOlderData st)
        end
    end.

End component.
End Loader.

(** ** Closed forms and predicates used in the statements *)

(** Sorted by a key, smallest first. *)
Definition sortedBy {A} (key : A -> Z) (l : list A) : Prop :=
  StronglySorted (fun x y => key x <= key y) l.

(** The attempts of a batch that belong to message [k], in batch order. *)
Definition attemptsOf (k : string) (l : list Attempt.t) : list Attempt.t :=
  filter (fun a => Attempt.messageId a = Some k) l.

(** The group of message [k] in a batch, if the batch has one. *)
Definition groupOf (k : string) (l : list Attempt.t) : option (list Attempt.t) :=
  if decide (k = "") then None
  else match attemptsOf k l with [] => None | g => Some g end.

(** The aggregate of message [k] in a collection. *)
Definition findMessage (P : list ProcessedMessage.t) (k : string)
    : option ProcessedMessage.t :=
  JsMap.get (messageEntries P) k.

(** What the merge loop does to one existing aggregate [s], given the
    aggregates [P] of the new batch and the known attempt ids. *)
Definition mergeExisting (ids : gset string) (P : list ProcessedMessage.t)
    (s : ProcessedMessage.t) : ProcessedMessage.t :=
  match findMessage P (messageId s) with
  | Some p =>
      let newAttempts := unseenAttempts ids (attempts p) in
      if (0 <? length newAttempts)%nat then updateMessage s newAttempts else s
  | None => s
  end.

(** The collection the merge loop leaves in [combinedMessagesMap]: the
    existing aggregates in their order, each merged, then the aggregates of
    new messages in the order of [P]. *)
Definition mergedCollection (M P : list ProcessedMessage.t)
    : list ProcessedMessage.t :=
  (mergeExisting (buildExistingAttemptMap M) P <$> M)
  ++ filter (fun p => messageId p ∉ messageId <$> M) P.

(** What one incremental call leaves under key [k]. *)
Definition mergedAt (ids : gset string) (existing : option ProcessedMessage.t)
    (d : gmap string string) (e : list MessageWithError.t) (k : string)
    (group : option (list Attempt.t)) : option ProcessedMessage.t :=
  match existing, group with
  | Some s, Some g =>
      let newAttempts := unseenAttempts ids (array_sort byCreatedAt g) in
      Some (if (0 <? length newAttempts)%nat then updateMessage s newAttempts
            else s)
  | Some s, None => Some s
  | None, Some g => Some (deriveMessage d (buildErrorMap e) (k, g))
  | None, None => None
  end.

(** The attempts of batch [B] for the message of the existing aggregate
    [s] that no aggregate of [M] holds yet. *)
Definition unseenFor (M : list ProcessedMessage.t) (B : list Attempt.t)
    (s : ProcessedMessage.t) : list Attempt.t :=
  unseenAttempts (buildExistingAttemptMap M)
                 (array_sort byCreatedAt (attemptsOf (messageId s) B)).

(** The aggregate a derivation from scratch gives for the members of [s]
    together with the unseen attempts of the batch. *)
Definition derivedFromUnion (M : list ProcessedMessage.t) (B : list Attempt.t)
    (d : gmap string string) (e : list MessageWithError.t)
    (s : ProcessedMessage.t) : ProcessedMessage.t :=
  deriveMessage d (buildErrorMap e) (messageId s, attempts s ++ unseenFor M B s).

(** The attempt-derived part of an aggregate: its key, its members and the
    five fields computed from the members. *)
Record AttemptFields := mkAttemptFields {
  af_messageId : string;
  af_attempts : list Attempt.t;
  af_oldestAttempt : Z;
  af_newestAttempt : Z;
  af_attemptCount : nat;
  af_successRate : float;
  af_latestFailure : option Attempt.t
}.

Definition attemptFields (m : ProcessedMessage.t) : AttemptFields :=
  {| af_messageId := messageId m;
     af_attempts := attempts m;
     af_oldestAttempt := oldestAttempt m;
     af_newestAttempt := newestAttempt m;
     af_attemptCount := attemptCount m;
     af_successRate := successRate m;
     af_latestFailure := latestFailure m |}.

(** The attempt-derived fields as both branches of [processApiData]
    compute them from a sorted member list. *)
Definition fieldsOf (k : string) (members : list Attempt.t) : AttemptFields :=
  {| af_messageId := k;
     af_attempts := members;
     af_oldestAttempt := firstCreatedAt members;
     af_newestAttempt := lastCreatedAt members;
     af_attemptCount := length members;
     af_successRate := successRateOf members;
     af_latestFailure := latestFailureOf members |}.

(** Every member attempt of a collection. *)
Definition allAttempts (M : list ProcessedMessage.t) : list Attempt.t :=
  mjoin (attempts <$> M).

(** One aggregate per message id. *)
Definition distinctMessageIds (M : list ProcessedMessage.t) : Prop :=
  NoDup (messageId <$> M).

(** An aggregate with a proper key whose members all carry that key. *)
Definition attributed (m : ProcessedMessage.t) : Prop :=
  messageId m ≠ "" /\
  Forall (fun a => Attempt.messageId a = Some (messageId m)) (attempts m).

(** The shape every collection built by [processApiData] has
    ([runCalls_wellFormed]). *)
Definition wellFormedMessage (m : ProcessedMessage.t) : Prop :=
  attributed m /\ attempts m ≠ [] /\
  newestAttempt m = lastCreatedAt (attempts m).

Definition wellFormed (M : list ProcessedMessage.t) : Prop :=
  distinctMessageIds M /\ Forall wellFormedMessage M.

(** The attempt-derived fields agree with the member list. *)
Definition derivedFromMembers (m : ProcessedMessage.t) : Prop :=
  sortedBy Attempt.createdAt (attempts m) /\
  attempts m ≠ [] /\
  oldestAttempt m = firstCreatedAt (attempts m) /\
  newestAttempt m = lastCreatedAt (attempts m) /\
  attemptCount m = length (attempts m) /\
  successRate m = successRateOf (attempts m) /\
  latestFailure m = latestFailureOf (attempts m).

(** Attempts are immutable records with their own id and their own
    instant: two attempts with the same id, or the same [createdAt], are
    the same record. *)
Definition consistentAttempts (U : list Attempt.t) : Prop :=
  forall x y, x ∈ U -> y ∈ U ->
    Attempt.id x = Attempt.id y \/ Attempt.createdAt x = Attempt.createdAt y ->
    x = y.

Definition disjointById (A B : list Attempt.t) : Prop :=
  forall x y, x ∈ A -> y ∈ B -> Attempt.id x ≠ Attempt.id y.

(** The two decoding loops differ only in the error record they push;
    [decodeStepWith] is their common form ([decodeMessages_with],
    [decodeMessagesSnippet_with]). *)
Definition errorRecord (message : Route.WebhookMessage) (e : string)
    : MessageWithError.t :=
  MessageWithError.mk (Route.wm_id message) e None.

Definition errorRecordSnippet (message : Route.WebhookMessage) (e : string)
    : MessageWithError.t :=
  MessageWithError.mk (Route.wm_id message) e (Route.payloadSnippet message).

Definition decodeStepWith (JSON_parse : string -> string + Route.JsValue)
    (record : Route.WebhookMessage -> string -> MessageWithError.t)
    (acc : gmap string Route.JsValue * list MessageWithError.t)
    (message : Route.WebhookMessage)
    : gmap string Route.JsValue * list MessageWithError.t :=
  match Route.tryExtract JSON_parse message with
  | inr (Some _id) => (<[Route.wm_id message := _id]> acc.1, acc.2)
  | inr None => acc
  | inl e => (acc.1, acc.2 ++ [record message e])
  end.

(** What one upstream request delivers: the records of a 2xx answer, and
    nothing when the request or the answer failed. *)
Definition delivered {A} (fetch : Route.UpstreamRequest -> Route.FetchResult A)
    (rq : Route.UpstreamRequest) : list A :=
  match fetch rq with
  | Route.HttpOk data => data
  | Route.HttpError _ _ => []
  | Route.NetworkError => []
  end.

(** What a loop iteration throws on the answer to its request. *)
Definition thrownOn (fetchFailed : string)
    (notOk : Z -> option string -> string)
    {A} (answer : Route.FetchResult A) : option string :=
  match answer with
  | Route.NetworkError => Some fetchFailed
  | Route.HttpError status body => Some (notOk status body)
  | Route.HttpOk _ => None
  end.

(** A page after which the loop asks for the next one: full, and with no
    record older than the threshold. *)
Definition fullAndRecent {A} (createdAt : A -> Z) (threshold : Z)
    (answer : Route.FetchResult A) : Prop :=
  match answer with
  | Route.HttpOk data =>
      (50 <= length data)%nat /\
      Forall (fun x => threshold <= createdAt x) data
  | _ => False
  end.

(** The request for page [k]. *)
Definition pageRequest (baseUrl token : string) (k : nat)
    : Route.UpstreamRequest :=
  Route.mkUpstreamRequest baseUrl (Some 50) (Some (50 * Z.of_nat k)) token.

(** The number a column with a numeric comparator sorts by. *)
Definition columnKey (field : View.SortField)
    : option (ProcessedMessage.t -> Z) :=
  match field with
  | View.sort_oldestAttempt => Some oldestAttempt
  | View.sort_newestAttempt => Some newestAttempt
  | View.sort_attemptCount => Some (fun m => Z.of_nat (attemptCount m))
  | _ => None
  end.

(** The order of a column in a direction. *)
Definition columnOrder (key : ProcessedMessage.t -> Z)
    (direction : View.SortDirection) (a b : ProcessedMessage.t) : Prop :=
  match direction with
  | View.asc => key a <= key b
  | View.desc => key b <= key a
  end.

(** [needle] occurs in [s]. *)
Definition occursIn (needle s : string) : Prop :=
  exists pre post, s = pre +:+ needle +:+ post.

(** The direction a second click on a header turns [direction] into. *)
Definition otherDirection (direction : View.SortDirection)
    : View.SortDirection :=
  match direction with View.asc => View.desc | View.desc => View.asc end.

(** The page numbers of a page list, without the ellipses. *)
Definition pageNumbersOf (items : list View.PageItem) : list Z :=
  omap (fun item => match item with
                    | View.PageNumber page => Some page
                    | _ => None
                    end) items.

(** [maxVisiblePages], line 725. *)
Definition maxVisiblePagesOf (innerWidth : Z) : Z :=
  if 768 <=? innerWidth then 7 else 5.

(** The attempts request of the component served by the attempts route. *)
Definition attemptsVia (parseDate : string -> Route.date) (now : Z)
    (token : option string) (hoursEarlier : Z -> Z -> Z)
    (upstream : Route.UpstreamRequest -> Route.FetchResult Attempt.t)
    (request : Route.Request) : Loader.Fetched Loader.AttemptsData :=
  match (Route.GET_attempts parseDate now token
      hoursEarlier upstream request).1 with
  | Route.JsonOk body => Loader.Ok (Some (Route.ab_attempts body))
  | Route.JsonError status e => Loader.NotOk status (Some e)
  end.

(** ** Example data *)

Definition sampleAttempt (id mid hook : string) (t : Z) (failed : bool) (code : Z)
    : Attempt.t :=
  Attempt.mk id "p" false 10 t t (Some mid) hook failed None code None.

(** A successful attempt of message [m1], and the earlier attempt of [m1]
    that it retried, which failed with status 413. *)
Definition okAttempt : Attempt.t :=
  Attempt.mk "a1" "p" false 12 1000 1000 (Some "m1") "hook" false None 200 None.

Definition tooLargeAttempt : Attempt.t :=
  Attempt.mk "a2" "p" false 9 400 400 (Some "m1") "hook" true
             (Some "upstream rejected the request") 413 None.

(** The collection after a full load of [okAttempt]
    ([lateDecodeState_reached]). *)
Definition okAggregate : ProcessedMessage.t :=
  {| messageId := "m1"; oldestAttempt := 1000; newestAttempt := 1000;
     attemptCount := 1; successRate := 100%float; hookId := "hook";
     documentId := None; attempts := [okAttempt]; latestFailure := None;
     parsingError := None; largePayloadFailure := None |}.

Definition lateDecodeState : list ProcessedMessage.t := [okAggregate].

(** An identifier map and an error list that mention [m1]. *)
Definition lateDocumentIds : gmap string string := {[ "m1" := "doc-1" ]}.

Definition lateErrors : list MessageWithError.t :=
  [ MessageWithError.mk "m1" "Unexpected token" None ].

(** A collection that [processApiData] never builds: two aggregates under
    one message id. *)
Definition repeatedKeyState : list ProcessedMessage.t :=
  [ okAggregate;
    {| messageId := "m1"; oldestAttempt := 400; newestAttempt := 400;
       attemptCount := 1; successRate := 0%float; hookId := "hook";
       documentId := None; attempts := [tooLargeAttempt];
       latestFailure := Some tooLargeAttempt;
       parsingError := None; largePayloadFailure := Some true |} ].

(** A full load that finds [okAttempt], then a load of older data that
    brings [tooLargeAttempt]. *)
Definition staleFlagCalls : list Call :=
  [ mkCall [okAttempt] ∅ [] false; mkCall [tooLargeAttempt] ∅ [] true ].

(** One full load whose batch holds the same attempt twice, as two
    overlapping pages return it. *)
Definition dupCall : Call := mkCall [okAttempt; okAttempt] ∅ [] false.

(** A session with an overlapping re-fetch: [a1] arrives again, together
    with the new [a2]. *)
Definition overlapCalls : list Call :=
  [ mkCall [okAttempt] ∅ [] false;
    mkCall [okAttempt; tooLargeAttempt] ∅ [] true ].

(** Two batches with disjoint ids for two new messages whose attempts were
    created in the same millisecond. *)
Definition tieBatchA : list Attempt.t :=
  [ sampleAttempt "b1" "m2" "hook" 5000 false 200 ].

Definition tieBatchB : list Attempt.t :=
  [ sampleAttempt "c1" "m3" "hook" 5000 false 200 ].

(** Two batches with disjoint ids and distinct instants for the same new
    message; the call of the first decoded the document id, the call of the
    second reports a decode error. *)
Definition splitBatchA : list Attempt.t :=
  [ sampleAttempt "b1" "m2" "hook-a" 5000 false 200 ].

Definition splitBatchB : list Attempt.t :=
  [ sampleAttempt "c1" "m2" "hook-b" 6000 false 200 ].

Definition splitDocumentIds : gmap string string := {[ "m2" := "doc-2" ]}.

Definition splitErrors : list MessageWithError.t :=
  [ MessageWithError.mk "m2" "Unexpected token" None ].

(** The batches of the scenarios of the specification. *)
Definition batch1 : list Attempt.t :=
  [ sampleAttempt "a1" "m1" "hook" 10 false 200;
    sampleAttempt "a2" "m1" "hook" 20 false 200;
    sampleAttempt "a3" "m1" "hook" 30 true 500 ].

Definition batch2 : list Attempt.t :=
  [ sampleAttempt "a4" "m1" "hook" 40 false 200;
    sampleAttempt "a5" "m2" "hook" 50 false 200 ].

(** A request with both identifiers, an upstream without data and a
    [Date] parser that rejects everything. *)
Definition sampleRequest : Route.Request :=
  Route.mkRequest (Some "proj") (Some "hook-1") None None None.

Definition emptyUpstream {A} : Route.UpstreamRequest -> Route.FetchResult A :=
  fun _ => Route.HttpOk [].

Definition noDate : string -> Route.date := fun _ => None.

(** A server, and a browser, whose clock is never changed: on UTC. *)
Definition utcHoursEarlier (t n : Z) : Z := t - Route.hours n.

Definition utcMinuteEarlier (t : Z) : Z := t - 60000.

(** [s] between double quotes. *)
Definition quoted (s : string) : string :=
  String "034" EmptyString +:+ s +:+ String "034" EmptyString.

(** A payload with a document identifier at [after._id]. *)
Definition goodPayload : string :=
  "{" +:+ quoted "after" +:+ ":{" +:+ quoted "_id" +:+ ":"
  +:+ quoted "doc-1" +:+ "}}".

(** What [JSON.parse] returns on the payloads of the examples; every
    other string is taken to be malformed. *)
Definition sampleParse (s : string) : string + Route.JsValue :=
  if decide (s = "{}") then inr (Route.JObject [])
  else if decide (s = "null") then inr Route.JNull
  else if decide (s = goodPayload)
       then inr (Route.JObject
                   [("after", Route.JObject [("_id", Route.JString "doc-1")])])
       else inl "Unexpected token".

(** A [JSON.stringify] for the values the examples read back, and the
    message of the error a second read of a body rejects with. *)
Definition sampleStringify (v : Route.JsValue) : string :=
  match v with
  | Route.JNull => "null"
  | Route.JObject [] => "{}"
  | _ => "{...}"
  end.

Definition sampleBodyUnusable : string :=
  "Body is unusable: Body has already been read".

Definition emptyObjectMessage : Route.WebhookMessage :=
  Route.mkWebhookMessage "msg-1" 3000 (Some "{}").

Definition malformedMessage : Route.WebhookMessage :=
  Route.mkWebhookMessage "msg-2" 2000 (Some "{not json").

Definition goodMessage : Route.WebhookMessage :=
  Route.mkWebhookMessage "msg-3" 1000 (Some goodPayload).

(** An attempt of the last hours and one of long ago, for a clock that
    reads 100000000. *)
Definition recentAttempt : Attempt.t :=
  sampleAttempt "r1" "m1" "hook" 99000000 false 200.

Definition staleAttempt : Attempt.t :=
  sampleAttempt "r0" "m1" "hook" 1000 false 200.

(** An upstream whose first page holds both, whose second page is answered
    with status 503 and that has nothing else. *)
Definition pagedUpstream (rq : Route.UpstreamRequest)
    : Route.FetchResult Attempt.t :=
  match Route.offsetQuery rq with
  | Some 0 => Route.HttpOk [staleAttempt; recentAttempt]
  | Some 50 => Route.HttpError 503 (Some "unavailable")
  | _ => Route.HttpOk []
  end.

(** An upstream every page of which is full of recent attempts. *)
Definition fullUpstream (rq : Route.UpstreamRequest)
    : Route.FetchResult Attempt.t :=
  Route.HttpOk (replicate 50 recentAttempt).



(** An upstream of messages: a recent message with a document identifier
    and a stale malformed one on the first page. *)
Definition recentMessage : Route.WebhookMessage :=
  Route.mkWebhookMessage "msg-5" 99000000 (Some goodPayload).

Definition messagesUpstream (rq : Route.UpstreamRequest)
    : Route.FetchResult Route.WebhookMessage :=
  match Route.offsetQuery rq with
  | Some 0 => Route.HttpOk [malformedMessage; recentMessage]
  | _ => Route.HttpOk []
  end.

(** An upstream of messages with a full page of recent messages followed
    by an answer with status 503. *)
Definition failingSecondPage (rq : Route.UpstreamRequest)
    : Route.FetchResult Route.WebhookMessage :=
  match Route.offsetQuery rq with
  | Some 0 => Route.HttpOk (replicate 50 recentMessage)
  | _ => Route.HttpError 503 (Some "unavailable")
  end.

(** An upstream of attempts with a full page of recent attempts followed
    by a page that reaches an old one. *)
Definition twoPageUpstream (rq : Route.UpstreamRequest)
    : Route.FetchResult Attempt.t :=
  match Route.offsetQuery rq with
  | Some 0 => Route.HttpOk (replicate 50 recentAttempt)
  | Some 50 => Route.HttpOk [recentAttempt; staleAttempt]
  | _ => Route.HttpOk []
  end.

Definition sampleMessagesUrl : string :=
  "https://proj.api.sanity.io/v2021-10-04/hooks/hook-1/messages".

Definition sampleAttemptsUrl : string :=
  "https://api.sanity.io/v2021-10-04/hooks/projects/proj/hook-1/attempts".


Definition messagesDown : Route.Request -> Loader.Fetched Loader.MessagesData :=
  fun _ => Loader.NotOk 500 None.

Definition sampleSettings : Loader.Settings :=
  Loader.mkSettings "proj" "hook-1".

(** The component after a full load of [recentAttempt], with the button
    "Load older data" enabled. *)
Definition recentState : Loader.State :=
  {| Loader.messages := runCalls [mkCall [recentAttempt] ∅ [] false];
     Loader.loadingState := Loader.COMPLETE; Loader.error := None;
     Loader.loadingProgress := 1; Loader.totalItems := 1;
     Loader.isLoadingMore := false; Loader.hasOlderData := true |}.

(** An attempt of the same message a quarter of an hour earlier, and the
    upstream and the attempts request that deliver it. *)
Definition olderAttempt : Attempt.t :=
  sampleAttempt "r2" "m1" "hook" 98000000 true 500.

Definition olderUpstream (rq : Route.UpstreamRequest)
    : Route.FetchResult Attempt.t :=
  match Route.offsetQuery rq with
  | Some 0 => Route.HttpOk [olderAttempt; recentAttempt]
  | _ => Route.HttpOk []
  end.

Definition olderAttempts : Route.Request -> Loader.Fetched Loader.AttemptsData :=
  fun _ => Loader.Ok (Some [olderAttempt]).

(** Instants written in decimal, and a [Date] parser that knows the one
    instant the examples ask for. *)
Definition decimalInstant (t : Z) : string := pretty t.

Definition parseDecimalInstant (s : string) : Route.date :=
  if decide (s = "98940000") then Some 98940000 else None.

(** * Properties *)

(** ** Facts about [JsMap] *)

Section JsMap_facts.
Context {V : Type}.
Implicit Types (m : list (string * V)) (k : string) (v : V).

Lemma get_None m k : JsMap.get m k = None <-> k ∉ m.*1.
Proof.
  induction m as [|[k' v'] m IH]; simpl.
  - split; [intros _; apply not_elem_of_nil | done].
  - rewrite not_elem_of_cons. destruct (decide (k' = k)) as [->|Hne].
    + split; [done | intros [? _]; done].
    + rewrite IH. split; [intros ?; split; [congruence | done] | intros [_ ?]; done].
Qed.

Lemma get_is_Some m k : is_Some (JsMap.get m k) <-> k ∈ m.*1.
Proof.
  rewrite <- not_eq_None_Some, get_None.
  split; [apply dec_stable | intros ? ?; done].
Qed.

Lemma has_true m k : JsMap.has m k = true <-> k ∈ m.*1.
Proof.
  unfold JsMap.has. rewrite <- get_is_Some.
  destruct (JsMap.get m k); split; intros H; try done.
Qed.

Lemma has_false m k : JsMap.has m k = false <-> k ∉ m.*1.
Proof.
  rewrite <- has_true. destruct (JsMap.has m k); split; done.
Qed.

Lemma get_Some_elem m k v : JsMap.get m k = Some v -> (k, v) ∈ m.
Proof.
  induction m as [|[k' v'] m IH]; simpl; [done|].
  destruct (decide (k' = k)) as [->|Hne].
  - intros [= ->]. left.
  - intros H. right. auto.
Qed.

Lemma get_NoDup m k v : NoDup m.*1 -> (k, v) ∈ m -> JsMap.get m k = Some v.
Proof.
  induction m as [|[k' v'] m IH]; simpl; intros Hnd Hin.
  - by apply elem_of_nil in Hin.
  - apply NoDup_cons in Hnd as [Hk' Hnd].
    apply elem_of_cons in Hin as [[= <- <-]|Hin].
    + by rewrite decide_True.
    + rewrite decide_False; [auto|].
      intros ->. apply Hk'. apply list_elem_of_fmap. by exists (k, v).
Qed.

Lemma get_app_l m1 m2 k :
  k ∈ m1.*1 -> JsMap.get (m1 ++ m2) k = JsMap.get m1 k.
Proof.
  induction m1 as [|[k' v'] m1 IH]; simpl; intros Hin.
  - by apply elem_of_nil in Hin.
  - destruct (decide (k' = k)); [done|].
    apply elem_of_cons in Hin as [?|?]; [congruence | auto].
Qed.

Lemma set_fresh m k v : k ∉ m.*1 -> JsMap.set m k v = m ++ [(k, v)].
Proof.
  induction m as [|[k' v'] m IH]; simpl; [done|].
  rewrite not_elem_of_cons. intros [Hne Hnin].
  rewrite decide_False by congruence. by rewrite IH.
Qed.

Lemma set_app_l m1 m2 k v :
  k ∈ m1.*1 -> JsMap.set (m1 ++ m2) k v = JsMap.set m1 k v ++ m2.
Proof.
  induction m1 as [|[k' v'] m1 IH]; simpl; intros Hin.
  - by apply elem_of_nil in Hin.
  - destruct (decide (k' = k)); [done|].
    apply elem_of_cons in Hin as [?|?]; [congruence|].
    by rewrite IH.
Qed.

(** On a map without repeated keys, [set] on a present key rewrites that
    one entry in place. *)
Lemma set_present m k v :
  NoDup m.*1 -> k ∈ m.*1 ->
  JsMap.set m k v = (fun kv => if decide (kv.1 = k) then (k, v) else kv) <$> m.
Proof.
  induction m as [|[k' v'] m IH]; simpl; intros Hnd Hin.
  - by apply elem_of_nil in Hin.
  - apply NoDup_cons in Hnd as [Hk' Hnd].
    destruct (decide (k' = k)) as [->|Hne].
    + f_equal. clear IH Hin Hnd.
      induction m as [|[k2 v2] m IH]; simpl; [done|].
      simpl in Hk'. apply not_elem_of_cons in Hk' as [Hne Hk'].
      rewrite decide_False by congruence. f_equal. auto.
    + apply elem_of_cons in Hin as [?|?]; [congruence|].
      f_equal. auto.
Qed.

Lemma set_keys_present m k v : k ∈ m.*1 -> (JsMap.set m k v).*1 = m.*1.
Proof.
  induction m as [|[k' v'] m IH]; simpl; intros Hin.
  - by apply elem_of_nil in Hin.
  - destruct (decide (k' = k)) as [->|Hne]; simpl; [done|].
    apply elem_of_cons in Hin as [?|?]; [congruence|].
    f_equal. auto.
Qed.

Lemma set_keys_NoDup m k v : NoDup m.*1 -> NoDup (JsMap.set m k v).*1.
Proof.
  intros Hnd. destruct (decide (k ∈ m.*1)) as [Hin|Hnin].
  - by rewrite set_keys_present.
  - rewrite set_fresh by done. rewrite fmap_app. simpl.
    apply NoDup_app. split_and!; [done | | apply NoDup_singleton].
    intros x Hx Hx'. apply list_elem_of_singleton in Hx'. by subst.
Qed.

Lemma get_set_eq m k v : JsMap.get (JsMap.set m k v) k = Some v.
Proof.
  induction m as [|[k' v'] m IH]; simpl.
  - by rewrite decide_True.
  - destruct (decide (k' = k)) as [->|Hne]; simpl.
    + by rewrite decide_True.
    + by rewrite decide_False.
Qed.

Lemma get_set_ne m k k' v :
  k ≠ k' -> JsMap.get (JsMap.set m k v) k' = JsMap.get m k'.
Proof.
  intros Hne. induction m as [|[k2 v2] m IH]; simpl.
  - by rewrite decide_False.
  - destruct (decide (k2 = k)) as [->|Hne2]; simpl.
    + by rewrite !decide_False.
    + destruct (decide (k2 = k')); [done | auto].
Qed.

Lemma set_elem m k v k' v' :
  (k', v') ∈ JsMap.set m k v -> (k', v') = (k, v) \/ (k', v') ∈ m.
Proof.
  induction m as [|[k2 v2] m IH]; simpl.
  - intros ?%list_elem_of_singleton. by left.
  - destruct (decide (k2 = k)) as [->|Hne].
    + intros [?|?]%elem_of_cons; [by left | right; by right].
    + intros [->|?]%elem_of_cons; [right; left|].
      destruct IH as [?|?]; [done | by left | right; by right].
Qed.

Lemma from_entries_app_NoDup (m l : list (string * V)) :
  NoDup (m ++ l).*1 -> foldl (fun m kv => JsMap.set m kv.1 kv.2) m l = m ++ l.
Proof.
  revert m. induction l as [|[k v] l IH]; intros m Hnd; simpl.
  - by rewrite app_nil_r.
  - rewrite set_fresh.
    + rewrite IH; rewrite <- app_assoc; done.
    + rewrite fmap_app in Hnd. simpl in Hnd.
      apply NoDup_app in Hnd as (_ & Hd & _).
      intros Hin. apply (Hd k Hin). left.
Qed.

Lemma from_entries_NoDup (l : list (string * V)) :
  NoDup l.*1 -> JsMap.from_entries l = l.
Proof. intros Hnd. unfold JsMap.from_entries. by rewrite from_entries_app_NoDup. Qed.

Lemma from_entries_keys_NoDup (l : list (string * V)) :
  NoDup (JsMap.from_entries l).*1.
Proof.
  unfold JsMap.from_entries.
  assert (NoDup (@nil (string * V)).*1) as Hnil by constructor.
  revert Hnil. generalize (@nil (string * V)).
  induction l as [|[k v] l IH]; intros m Hm; simpl; [done|].
  apply IH. by apply set_keys_NoDup.
Qed.

Lemma from_entries_elem (l : list (string * V)) kv :
  kv ∈ JsMap.from_entries l -> kv ∈ l.
Proof.
  unfold JsMap.from_entries.
  enough (forall m, kv ∈ foldl (fun m kv => JsMap.set m kv.1 kv.2) m l ->
                    kv ∈ m \/ kv ∈ l) as H.
  { intros Hin. destruct (H _ Hin) as [Hnil|?]; [|done].
    by apply elem_of_nil in Hnil. }
  induction l as [|[k v] l IH]; intros m; simpl; [by left|].
  intros Hin. destruct (IH _ Hin) as [Hset|?]; [|right; by right].
  destruct kv as [k' v']. apply set_elem in Hset as [->|?]; [right; left | by left].
Qed.

End JsMap_facts.
(** ** Facts about [array_sort] *)

Section array_sort_facts.
Context {A : Type} (compareFn : A -> A -> Z) (key : A -> Z).
Hypothesis compare_key : forall x y, (compareFn x y <? 0) = (key x <? key y).

Lemma sort_insert_Permutation x l : sort_insert compareFn x l ≡ₚ x :: l.
Proof.
  induction l as [|y l IH]; simpl; [done|].
  destruct (compareFn y x <? 0); [|done].
  rewrite IH. apply Permutation_swap.
Qed.

Lemma array_sort_Permutation l : array_sort compareFn l ≡ₚ l.
Proof.
  induction l as [|x l IH]; simpl; [done|].
  rewrite sort_insert_Permutation. by rewrite IH.
Qed.

Lemma array_sort_elem x l : x ∈ array_sort compareFn l <-> x ∈ l.
Proof. by rewrite array_sort_Permutation. Qed.

Lemma array_sort_length l : length (array_sort compareFn l) = length l.
Proof. by rewrite array_sort_Permutation. Qed.

Lemma array_sort_nil_inv l : array_sort compareFn l = [] -> l = [].
Proof.
  intros H. apply Permutation_nil_r. rewrite <- H.
  symmetry. apply array_sort_Permutation.
Qed.

Lemma sort_insert_sorted x l : sortedBy key l -> sortedBy key (sort_insert compareFn x l).
Proof.
  unfold sortedBy. induction 1 as [|y l Hl IH Hy]; simpl.
  - repeat constructor.
  - rewrite compare_key. destruct (Z.ltb_spec (key y) (key x)).
    + constructor; [done|].
      rewrite sort_insert_Permutation. constructor; [lia | done].
    + constructor; [by constructor|].
      constructor; [done|]. eapply Forall_impl; [done|]. simpl. lia.
Qed.

Lemma array_sort_sorted l : sortedBy key (array_sort compareFn l).
Proof.
  induction l as [|x l IH]; simpl; [constructor|].
  by apply sort_insert_sorted.
Qed.

Lemma sort_insert_least x l :
  Forall (fun y => key x <= key y) l -> sort_insert compareFn x l = x :: l.
Proof.
  destruct 1 as [|y l Hy _]; simpl; [done|].
  rewrite compare_key. destruct (Z.ltb_spec (key y) (key x)); [lia | done].
Qed.

(** Sorting a sorted array changes nothing. *)
Lemma array_sort_sorted_id l : sortedBy key l -> array_sort compareFn l = l.
Proof.
  unfold sortedBy. induction 1 as [|x l Hl IH Hx]; simpl; [done|].
  rewrite IH. by apply sort_insert_least.
Qed.

Lemma array_sort_idemp l :
  array_sort compareFn (array_sort compareFn l) = array_sort compareFn l.
Proof. apply array_sort_sorted_id, array_sort_sorted. Qed.

(** Two sorted arrangements of the same elements coincide when elements
    with equal keys are equal. *)
Lemma sortedBy_unique l1 l2 :
  (forall x y, x ∈ l1 -> y ∈ l2 -> key x = key y -> x = y) ->
  sortedBy key l1 -> sortedBy key l2 -> l1 ≡ₚ l2 -> l1 = l2.
Proof.
  intros Hinj. apply StronglySorted_unique_strong.
  intros x y Hx Hy ? ?. apply Hinj; [done | done | lia].
Qed.

End array_sort_facts.

Lemma byCreatedAt_key x y :
  (byCreatedAt x y <? 0) = (Attempt.createdAt x <? Attempt.createdAt y).
Proof.
  unfold byCreatedAt.
  destruct (Z.ltb_spec (Attempt.createdAt x - Attempt.createdAt y) 0),
           (Z.ltb_spec (Attempt.createdAt x) (Attempt.createdAt y)); lia.
Qed.

Lemma byNewestDesc_key x y :
  (byNewestDesc x y <? 0) = (- newestAttempt x <? - newestAttempt y).
Proof.
  unfold byNewestDesc.
  destruct (Z.ltb_spec (newestAttempt y - newestAttempt x) 0),
           (Z.ltb_spec (- newestAttempt x) (- newestAttempt y)); lia.
Qed.

(** ** Grouping *)

Lemma groupByMessageId_snoc l a :
  groupByMessageId (l ++ [a]) = groupStep (groupByMessageId l) a.
Proof. unfold groupByMessageId. by rewrite foldl_snoc. Qed.

Lemma attemptsOf_snoc k l a :
  attemptsOf k (l ++ [a]) =
  attemptsOf k l ++ (if decide (Attempt.messageId a = Some k) then [a] else []).
Proof.
  unfold attemptsOf. rewrite filter_app. f_equal.
Qed.

Lemma groupStep_keys_NoDup m a : NoDup m.*1 -> NoDup (groupStep m a).*1.
Proof.
  intros Hnd. unfold groupStep.
  destruct (Attempt.messageId a) as [mid|]; [|done].
  destruct (decide (mid = "")); [done|].
  destruct (JsMap.has m mid).
  - destruct (JsMap.get m mid); [by apply set_keys_NoDup | done].
  - rewrite get_set_eq. by do 2 apply set_keys_NoDup.
Qed.

Lemma groupByMessageId_keys_NoDup l : NoDup (groupByMessageId l).*1.
Proof.
  induction l as [|a l IH] using rev_ind; [constructor|].
  rewrite groupByMessageId_snoc. by apply groupStep_keys_NoDup.
Qed.

(** Every group is the batch filtered by its message id, and only
    non-empty groups with a non-empty key exist. *)
Lemma groupByMessageId_get l k :
  JsMap.get (groupByMessageId l) k = groupOf k l.
Proof.
  unfold groupOf. induction l as [|a l IH] using rev_ind.
  { simpl. by case_decide. }
  rewrite groupByMessageId_snoc, attemptsOf_snoc.
  unfold groupStep. destruct (Attempt.messageId a) as [mid|] eqn:Hmid.
  2:{ rewrite (decide_False (P := None = Some k)) by done. by rewrite app_nil_r. }
  destruct (decide (mid = k)) as [->|Hne].
  - rewrite (decide_True (P := Some k = Some k)) by done.
    destruct (decide (k = "")) as [->|Hk]; [done|].
    destruct (JsMap.has (groupByMessageId l) k) eqn:Hhas.
    + unfold JsMap.has in Hhas.
      destruct (JsMap.get (groupByMessageId l) k) as [g|] eqn:Hg; [|done].
      rewrite get_set_eq.
      destruct (attemptsOf k l) as [|x g']; [done|].
      by simplify_eq.
    + unfold JsMap.has in Hhas.
      destruct (JsMap.get (groupByMessageId l) k) as [g|] eqn:Hg; [done|].
      rewrite get_set_eq, get_set_eq.
      by destruct (attemptsOf k l).
  - rewrite (decide_False (P := Some mid = Some k)) by congruence.
    rewrite app_nil_r, <- IH.
    destruct (decide (mid = "")); [done|].
    destruct (JsMap.has (groupByMessageId l) mid).
    + destruct (JsMap.get (groupByMessageId l) mid); [|done].
      by rewrite get_set_ne.
    + rewrite get_set_eq. by rewrite !get_set_ne.
Qed.

Lemma groupOf_Some k l g :
  groupOf k l = Some g -> k ≠ "" /\ g ≠ [] /\ g = attemptsOf k l.
Proof.
  unfold groupOf. destruct (decide (k = "")); [done|].
  destruct (attemptsOf k l) eqn:E; [done|]. intros [= <-]. done.
Qed.

Lemma groupByMessageId_elem l k g :
  (k, g) ∈ groupByMessageId l <-> groupOf k l = Some g.
Proof.
  rewrite <- groupByMessageId_get. split.
  - apply get_NoDup, groupByMessageId_keys_NoDup.
  - apply get_Some_elem.
Qed.

(** No group is empty: [attempts[0]] in the derivation is always there. *)
Lemma groupByMessageId_nonempty l k g :
  (k, g) ∈ groupByMessageId l -> g ≠ [].
Proof. intros H%groupByMessageId_elem%groupOf_Some. tauto. Qed.

(** ** The merge loop in closed form *)

Lemma filter_all {A} (P : A -> Prop) `{forall x, Decision (P x)} (l : list A) :
  (forall x, x ∈ l -> P x) -> filter P l = l.
Proof.
  induction l as [|x l IH]; intros Hall; [done|].
  rewrite filter_cons_True by (apply Hall; left).
  f_equal. apply IH. intros y Hy. apply Hall. by right.
Qed.

Lemma filter_none {A} (P : A -> Prop) `{forall x, Decision (P x)} (l : list A) :
  (forall x, x ∈ l -> ~ P x) -> filter P l = [].
Proof.
  induction l as [|x l IH]; intros Hall; [done|].
  rewrite filter_cons_False by (apply Hall; left).
  apply IH. intros y Hy. apply Hall. by right.
Qed.

Lemma fmap_ext_elem {A B} (f g : A -> B) (l : list A) :
  (forall x, x ∈ l -> f x = g x) -> f <$> l = g <$> l.
Proof.
  intros H. apply list_fmap_ext. intros i x Hx.
  apply H. by eapply list_elem_of_lookup_2.
Qed.

Lemma messageEntries_keys (l : list ProcessedMessage.t) :
  (messageEntries l).*1 = messageId <$> l.
Proof. unfold messageEntries. rewrite <- list_fmap_compose. done. Qed.

Lemma messageEntries_values (l : list ProcessedMessage.t) :
  (messageEntries l).*2 = l.
Proof.
  unfold messageEntries. rewrite <- list_fmap_compose.
  rewrite <- (list_fmap_id l) at 2. by apply list_fmap_ext.
Qed.

Lemma messageEntries_app (l1 l2 : list ProcessedMessage.t) :
  messageEntries (l1 ++ l2) = messageEntries l1 ++ messageEntries l2.
Proof. apply fmap_app. Qed.

Lemma findMessage_cons p P k :
  findMessage (p :: P) k =
  if decide (messageId p = k) then Some p else findMessage P k.
Proof. done. Qed.

Lemma findMessage_Some P k p :
  findMessage P k = Some p -> p ∈ P /\ messageId p = k.
Proof.
  induction P as [|q P IH]; [done|]. rewrite findMessage_cons.
  case_decide.
  - intros [= ->]. split; [left | done].
  - intros [? ?]%IH. split; [by right | done].
Qed.

Lemma findMessage_None P k :
  findMessage P k = None <-> k ∉ messageId <$> P.
Proof. unfold findMessage. by rewrite get_None, messageEntries_keys. Qed.

Lemma findMessage_NoDup P p :
  distinctMessageIds P -> p ∈ P -> findMessage P (messageId p) = Some p.
Proof.
  intros Hnd Hin. apply get_NoDup.
  - by rewrite messageEntries_keys.
  - unfold messageEntries. apply list_elem_of_fmap. by exists p.
Qed.

Lemma updateMessage_messageId s na : messageId (updateMessage s na) = messageId s.
Proof. done. Qed.

Lemma mergeExisting_messageId ids P s :
  messageId (mergeExisting ids P s) = messageId s.
Proof.
  unfold mergeExisting. destruct (findMessage P (messageId s)); [|done].
  simpl. by destruct (0 <? _)%nat.
Qed.

Lemma mergeExisting_keys ids P (M : list ProcessedMessage.t) :
  messageId <$> (mergeExisting ids P <$> M) = messageId <$> M.
Proof.
  rewrite <- list_fmap_compose. apply list_fmap_ext.
  intros ? s _. apply mergeExisting_messageId.
Qed.

Lemma mergeExisting_absent ids P s :
  messageId s ∉ messageId <$> P -> mergeExisting ids P s = s.
Proof.
  intros H%findMessage_None. unfold mergeExisting. by rewrite H.
Qed.

Lemma mergeExisting_nil ids s : mergeExisting ids [] s = s.
Proof. done. Qed.

Lemma merge_loop E ids P : forall M1 M2 : list ProcessedMessage.t,
  (forall k, JsMap.has E k = true <-> k ∈ messageId <$> M1) ->
  distinctMessageIds (M1 ++ M2) ->
  distinctMessageIds P ->
  (forall p, p ∈ P -> messageId p ∉ messageId <$> M2) ->
  foldl (mergeStep E ids) (messageEntries (M1 ++ M2)) P =
  messageEntries ((mergeExisting ids P <$> M1) ++ M2
                  ++ filter (fun p => messageId p ∉ messageId <$> M1) P).
Proof.
  unfold distinctMessageIds.
  induction P as [|p P IH]; intros M1 M2 HE Hnd HP Hfresh.
  { simpl. rewrite filter_nil, app_nil_r. do 2 f_equal.
    rewrite <- (list_fmap_id M1) at 1. apply list_fmap_ext. done. }
  cbn [foldl]. rewrite fmap_cons in HP. apply NoDup_cons in HP as [Hp HP].
  assert (NoDup (messageId <$> M1)) as Hnd1.
  { rewrite fmap_app in Hnd. by apply NoDup_app in Hnd as (? & _ & _). }
  unfold mergeStep at 2.
  destruct (JsMap.has E (messageId p)) eqn:Hhas.
  - apply HE in Hhas.
    rewrite filter_cons_False by (intros ?; done).
    rewrite messageEntries_app, get_app_l by by rewrite messageEntries_keys.
    apply list_elem_of_fmap in Hhas as Hs. destruct Hs as (s & Hk & Hs).
    rewrite Hk. fold (findMessage M1 (messageId s)).
    rewrite findMessage_NoDup by done.
    assert (forall s', s' ∈ M1 -> messageId s' = messageId s -> s' = s) as Huniq.
    { intros s' Hs' Heq. pose proof (findMessage_NoDup M1 s' Hnd1 Hs') as H1.
      rewrite Heq, findMessage_NoDup in H1 by done. congruence. }
    destruct (0 <? length (unseenAttempts ids (attempts p)))%nat eqn:Hlen.
    + rewrite set_app_l by (rewrite messageEntries_keys; by rewrite <- Hk).
      rewrite set_present;
        [| by rewrite messageEntries_keys
         | rewrite messageEntries_keys; by rewrite <- Hk ].
      set (na := unseenAttempts ids (attempts p)) in *.
      set (M1' := (fun s' => if decide (messageId s' = messageId s)
                            then updateMessage s na else s') <$> M1).
      assert (messageId <$> M1' = messageId <$> M1) as Hkeys.
      { unfold M1'. rewrite <- list_fmap_compose. apply list_fmap_ext.
        intros ? s' _. simpl. by case_decide. }
      replace ((fun kv : string * t => if decide (kv.1 = messageId s)
                  then (messageId s, updateMessage s na) else kv)
               <$> messageEntries M1) with (messageEntries M1').
      2:{ unfold M1', messageEntries. rewrite <- !list_fmap_compose.
          apply list_fmap_ext. intros ? s' _. simpl. by case_decide. }
      rewrite <- messageEntries_app, IH.
      * rewrite Hkeys. do 2 f_equal. unfold M1'.
        rewrite <- list_fmap_compose. apply fmap_ext_elem.
        intros s' Hs'. simpl. unfold mergeExisting at 2.
        rewrite findMessage_cons. case_decide as Hd.
        -- rewrite (Huniq s') by congruence.
           rewrite decide_True by done.
           simpl. fold na. rewrite Hlen.
           apply mergeExisting_absent. by rewrite updateMessage_messageId, <- Hk.
        -- rewrite decide_False by congruence. done.
      * intros k. by rewrite HE, Hkeys.
      * by rewrite fmap_app, Hkeys, <- fmap_app.
      * done.
      * intros q Hq. apply Hfresh. by right.
    + rewrite <- messageEntries_app, IH; try done.
      * do 2 f_equal. apply fmap_ext_elem.
        intros s' Hs'. unfold mergeExisting at 2.
        rewrite findMessage_cons. case_decide as Hd; [|done].
        rewrite Hlen. apply mergeExisting_absent. by rewrite <- Hd.
      * intros q Hq. apply Hfresh. by right.
  -     assert (messageId p ∉ messageId <$> M1) as Hp1.
    { intros Hin%HE. congruence. }
    rewrite filter_cons_True by done.
    rewrite set_fresh.
    2:{ rewrite messageEntries_keys, fmap_app, elem_of_app.
        intros [?|?]; [done|]. eapply Hfresh; [left | done]. }
    replace (messageEntries (M1 ++ M2) ++ [(messageId p, p)])
      with (messageEntries (M1 ++ (M2 ++ [p]))).
    2:{ rewrite !messageEntries_app. by rewrite <- app_assoc. }
    rewrite IH.
    + rewrite <- (app_assoc M2). simpl. do 2 f_equal.
      apply fmap_ext_elem. intros s' Hs'. unfold mergeExisting at 2.
      rewrite findMessage_cons. rewrite decide_False; [done|].
      intros Heq. apply Hp1. rewrite Heq. by apply list_elem_of_fmap_2.
    + done.
    + rewrite app_assoc, fmap_app. simpl.
      apply NoDup_app. split_and!; [done | | apply NoDup_singleton].
      intros x Hx ->%list_elem_of_singleton.
      rewrite fmap_app, elem_of_app in Hx. destruct Hx as [?|?]; [done|].
      eapply Hfresh; [left | done].
    + done.
    + intros q Hq. rewrite fmap_app, elem_of_app. intros [Hin|Hin].
      * eapply Hfresh; [by right | done].
      * simpl in Hin. apply list_elem_of_singleton in Hin.
        apply Hp. rewrite <- Hin. by apply list_elem_of_fmap_2.
Qed.

(** ** The aggregates of one batch *)

Lemma deriveMessage_messageId d em entry :
  messageId (deriveMessage d em entry) = entry.1.
Proof. done. Qed.

Lemma deriveMessage_attempts d em entry :
  attempts (deriveMessage d em entry) = array_sort byCreatedAt entry.2.
Proof. done. Qed.

Lemma processBatch_elem B d e p :
  p ∈ processBatch B d e <->
  exists k g, groupOf k B = Some g /\ p = deriveMessage d (buildErrorMap e) (k, g).
Proof.
  unfold processBatch. rewrite array_sort_elem, list_elem_of_fmap. split.
  - intros ([k g] & -> & Hin). exists k, g.
    by apply groupByMessageId_elem in Hin.
  - intros (k & g & Hg & ->). exists (k, g).
    by apply groupByMessageId_elem in Hg.
Qed.

Lemma processBatch_distinct B d e : distinctMessageIds (processBatch B d e).
Proof.
  unfold distinctMessageIds, processBatch.
  rewrite array_sort_Permutation, <- list_fmap_compose.
  apply groupByMessageId_keys_NoDup.
Qed.

Lemma processBatch_sorted B d e :
  sortedBy (fun m => - newestAttempt m) (processBatch B d e).
Proof. apply array_sort_sorted, byNewestDesc_key. Qed.

(** The ids that [existingAttemptMap] holds. *)
Lemma elem_of_buildExistingAttemptMap (M : list ProcessedMessage.t) x :
  x ∈ buildExistingAttemptMap M <->
  exists s a, s ∈ M /\ a ∈ attempts s /\ Attempt.id a = x.
Proof.
  unfold buildExistingAttemptMap.
  assert (forall (l : list Attempt.t) (acc : gset string),
    x ∈ foldl (fun acc attempt => {[Attempt.id attempt]} ∪ acc) acc l <->
    x ∈ acc \/ exists a, a ∈ l /\ Attempt.id a = x) as Hinner.
  { induction l as [|a l IH]; intros acc; simpl.
    - split; [by left | intros [?|(a & Ha & _)]; [done|]].
      by apply elem_of_nil in Ha.
    - rewrite IH, elem_of_union, elem_of_singleton. split.
      + intros [[->|?]|(a' & ? & ?)].
        * right. exists a. split; [left | done].
        * by left.
        * right. exists a'. split; [by right | done].
      + intros [?|(a' & [->|?]%elem_of_cons & ?)].
        * left. by right.
        * left. by left.
        * right. by exists a'. }
  assert (forall (acc : gset string),
    x ∈ foldl (fun acc msg =>
                 foldl (fun acc attempt => {[Attempt.id attempt]} ∪ acc)
                       acc (attempts msg)) acc M <->
    x ∈ acc \/ exists s a, s ∈ M /\ a ∈ attempts s /\ Attempt.id a = x) as Houter.
  { induction M as [|s M IH]; intros acc; simpl.
    - split; [by left | intros [?|(s & a & Hs & _)]; [done|]].
      by apply elem_of_nil in Hs.
    - rewrite IH, Hinner. split.
      + intros [[?|(a & ? & ?)]|(s' & a & ? & ? & ?)].
        * by left.
        * right. exists s, a. split_and!; [left | done | done].
        * right. exists s', a. split_and!; [by right | done | done].
      + intros [?|(s' & a & [->|?]%elem_of_cons & ? & ?)].
        * left. by left.
        * left. right. by exists a.
        * right. by exists s', a. }
  rewrite Houter. split; [intros [Hempty|?]; [|done] | by right].
  by apply not_elem_of_empty in Hempty.
Qed.

(** [processApiData] on an incremental call is the sorted merged
    collection; an empty state needs no special case. *)
Lemma processApiData_incremental (M : list ProcessedMessage.t) B d e :
  distinctMessageIds M ->
  processApiData M B d e true =
  array_sort byNewestDesc (mergedCollection M (processBatch B d e)).
Proof.
  intros Hnd. unfold processApiData, mergedCollection.
  destruct M as [|s M].
  { simpl. rewrite filter_all; [| intros ? _; apply not_elem_of_nil ].
    symmetry. apply (array_sort_sorted_id _ _ byNewestDesc_key).
    apply processBatch_sorted. }
  cbn [andb length Nat.ltb Nat.leb].
  rewrite from_entries_NoDup by by rewrite messageEntries_keys.
  generalize dependent (s :: M). clear s M. intros M Hnd.
  replace (messageEntries M) with (messageEntries (M ++ [])) at 2
    by by rewrite app_nil_r.
  rewrite merge_loop.
  - unfold JsMap.values. rewrite messageEntries_values. by rewrite app_nil_l.
  - intros k. by rewrite has_true, messageEntries_keys.
  - by rewrite app_nil_r.
  - apply processBatch_distinct.
  - intros p _. apply not_elem_of_nil.
Qed.

Lemma processApiData_full (M : list ProcessedMessage.t) B d e :
  processApiData M B d e false = processBatch B d e.
Proof. done. Qed.

(** ** What a call leaves in the collection *)

Lemma mergedCollection_elem (M P : list ProcessedMessage.t) x :
  x ∈ mergedCollection M P <->
  (exists s, s ∈ M /\ x = mergeExisting (buildExistingAttemptMap M) P s)
  \/ (x ∈ P /\ messageId x ∉ messageId <$> M).
Proof.
  unfold mergedCollection.
  rewrite elem_of_app, list_elem_of_fmap, list_elem_of_filter.
  split; (intros [(s & ? & ?)|[? ?]]; [left; by exists s | by right]).
Qed.

Lemma mergedCollection_distinct (M P : list ProcessedMessage.t) :
  distinctMessageIds M -> distinctMessageIds P ->
  distinctMessageIds (mergedCollection M P).
Proof.
  unfold distinctMessageIds, mergedCollection. intros HM HP.
  rewrite fmap_app, mergeExisting_keys. apply NoDup_app. split_and!.
  - done.
  - intros k Hk (p & -> & [Hp _]%list_elem_of_filter)%list_elem_of_fmap. done.
  - apply NoDup_fmap_2_strong.
    + intros p q Hp%list_elem_of_filter Hq%list_elem_of_filter Heq.
      pose proof (findMessage_NoDup P p HP (proj2 Hp)) as H1.
      pose proof (findMessage_NoDup P q HP (proj2 Hq)) as H2.
      congruence.
    + apply NoDup_filter. eapply NoDup_fmap_1. exact HP.
Qed.

Lemma processApiData_elem (M : list ProcessedMessage.t) B d e inc x :
  distinctMessageIds M ->
  x ∈ processApiData M B d e inc ->
  x ∈ processBatch B d e
  \/ exists s, s ∈ M /\
       x = mergeExisting (buildExistingAttemptMap M) (processBatch B d e) s.
Proof.
  intros Hnd. destruct inc; [|by left].
  rewrite processApiData_incremental by done.
  rewrite (array_sort_elem _), mergedCollection_elem.
  intros [?|[? _]]; [by right | by left].
Qed.

Lemma processApiData_distinct (M : list ProcessedMessage.t) B d e inc :
  distinctMessageIds M -> distinctMessageIds (processApiData M B d e inc).
Proof.
  intros Hnd. destruct inc; [|apply processBatch_distinct].
  rewrite processApiData_incremental by done.
  unfold distinctMessageIds. rewrite array_sort_Permutation.
  apply mergedCollection_distinct; [done | apply processBatch_distinct].
Qed.

Lemma runCalls_snoc calls c :
  runCalls (calls ++ [c]) = runCall (runCalls calls) c.
Proof. unfold runCalls. by rewrite foldl_snoc. Qed.

Lemma runCalls_distinct calls : distinctMessageIds (runCalls calls).
Proof.
  induction calls as [|c calls IH] using rev_ind; [constructor|].
  rewrite runCalls_snoc. by apply processApiData_distinct.
Qed.

(** A property of aggregates holds throughout a session when a fresh
    aggregate has it and merging keeps it. *)
Lemma runCalls_Forall (Q : ProcessedMessage.t -> Prop) (good : list Attempt.t -> Prop)
    (calls : list Call) :
  (forall B d e p, good B -> p ∈ processBatch B d e -> Q p) ->
  (forall (M : list ProcessedMessage.t) B d e s,
      good B -> distinctMessageIds M -> Forall Q M -> s ∈ M ->
      Q (mergeExisting (buildExistingAttemptMap M) (processBatch B d e) s)) ->
  Forall (fun c => good (batch c)) calls ->
  Forall Q (runCalls calls).
Proof.
  intros Hfresh Hmerge.
  induction calls as [|c calls IH] using rev_ind; intros Hgood; [constructor|].
  apply Forall_app in Hgood as [Hcalls Hc]. rewrite Forall_singleton in Hc.
  specialize (IH Hcalls). rewrite runCalls_snoc. unfold runCall.
  apply Forall_forall. intros x Hx.
  apply processApiData_elem in Hx as [Hx|(s & Hs & ->)].
  - eapply Hfresh; [exact Hc | exact Hx].
  - apply Hmerge; [exact Hc | apply runCalls_distinct | done | done].
  - apply runCalls_distinct.
Qed.

(** ** Attribution (claim C9) *)


Lemma attemptsOf_attributed k B :
  Forall (fun a => Attempt.messageId a = Some k) (attemptsOf k B).
Proof.
  apply Forall_forall. intros a Ha.
  by apply list_elem_of_filter in Ha as [? _].
Qed.

Lemma processBatch_attributed B d e p : p ∈ processBatch B d e -> attributed p.
Proof.
  intros (k & g & Hg & ->)%processBatch_elem.
  apply groupOf_Some in Hg as (Hk & _ & ->). split; [done|].
  rewrite deriveMessage_attempts, deriveMessage_messageId. simpl.
  rewrite array_sort_Permutation. apply attemptsOf_attributed.
Qed.

Lemma mergeExisting_attributed ids (P : list ProcessedMessage.t) s :
  Forall attributed P -> attributed s -> attributed (mergeExisting ids P s).
Proof.
  intros HP [Hk Hs]. unfold mergeExisting.
  destruct (findMessage P (messageId s)) as [p|] eqn:Hp; [|done].
  simpl. destruct (0 <? _)%nat; [|done].
  apply findMessage_Some in Hp as [Hp Hkp].
  split; [done|]. simpl.
  rewrite array_sort_Permutation. apply Forall_app. split; [done|].
  rewrite Forall_forall in HP. destruct (HP p Hp) as [_ Hatt].
  rewrite <- Hkp. unfold unseenAttempts.
  apply Forall_forall. intros a [_ Ha]%list_elem_of_filter.
  rewrite Forall_forall in Hatt. auto.
Qed.

(** C9.  In every state of a session, whatever the calls were (full or
    incremental, any batches, identifier maps and error lists), no
    aggregate has the empty message id as its key and every member attempt
    carries the message id of its aggregate: an attempt whose [messageId]
    is absent or empty is in no aggregate.  [processApiData] is a total
    function, so nothing is raised for such an attempt. *)
Theorem C9_unattributed_attempts_dropped (calls : list Call) :
  Forall (fun m =>
            messageId m ≠ "" /\
            Forall (fun a => Attempt.messageId a = Some (messageId m)
                             /\ Attempt.messageId a ≠ None
                             /\ Attempt.messageId a ≠ Some "")
                   (attempts m))
         (runCalls calls).
Proof.
  assert (Forall attributed (runCalls calls)) as H.
  { apply (runCalls_Forall attributed (fun _ => True)).
    - intros B d e p _. apply processBatch_attributed.
    - intros M B d e s _ _ HM Hs. apply mergeExisting_attributed.
      + apply Forall_forall. intros p. apply processBatch_attributed.
      + rewrite Forall_forall in HM. auto.
    - by apply Forall_forall. }
  eapply Forall_impl; [exact H|]. intros m [Hk Hatt]. split; [done|].
  eapply Forall_impl; [exact Hatt|]. intros a Ha. simpl in Ha.
  rewrite Ha. split_and!; [done | done | congruence].
Qed.

(** ** Duplicate attempt ids (claim C4) *)

Lemma NoDup_fmap_filter {A B} (f : A -> B) (P : A -> Prop)
    `{forall x, Decision (P x)} (l : list A) :
  NoDup (f <$> l) -> NoDup (f <$> filter P l).
Proof.
  intros Hnd. refine (sublist_NoDup _ _ Hnd _).
  apply fmap_sublist. by apply sublist_filter.

Qed.

Lemma processBatch_NoDup_ids B d e p :
  NoDup (Attempt.id <$> B) -> p ∈ processBatch B d e ->
  NoDup (Attempt.id <$> attempts p).
Proof.
  intros HB (k & g & Hg & ->)%processBatch_elem.
  apply groupOf_Some in Hg as (_ & _ & ->).
  rewrite deriveMessage_attempts. simpl.
  rewrite array_sort_Permutation. by apply NoDup_fmap_filter.
Qed.

Lemma mergeExisting_NoDup_ids (M P : list ProcessedMessage.t) s :
  Forall (fun p => NoDup (Attempt.id <$> attempts p)) P ->
  s ∈ M -> NoDup (Attempt.id <$> attempts s) ->
  NoDup (Attempt.id <$>
           attempts (mergeExisting (buildExistingAttemptMap M) P s)).
Proof.
  intros HP Hs Hnd. unfold mergeExisting.
  destruct (findMessage P (messageId s)) as [p|] eqn:Hp; [|done].
  simpl. destruct (0 <? _)%nat; [|done]. simpl.
  apply findMessage_Some in Hp as [Hp _].
  rewrite array_sort_Permutation, fmap_app. apply NoDup_app. split_and!.
  - done.
  - intros x (a0 & -> & Ha0)%list_elem_of_fmap (a & Hid & Ha)%list_elem_of_fmap.
    apply list_elem_of_filter in Ha as [Hnew _]. apply Hnew.
    apply elem_of_buildExistingAttemptMap. by exists s, a0.
  - apply NoDup_fmap_filter. rewrite Forall_forall in HP. auto.
Qed.

(** C4, as the code has it.  In every state of a session whose batches
    each hold an attempt id at most once, no aggregate lists the same
    attempt id twice: an attempt that arrives again in a later,
    overlapping batch is discarded by its id. *)
Theorem C4_no_duplicate_ids_across_batches (calls : list Call) :
  Forall (fun c => NoDup (Attempt.id <$> batch c)) calls ->
  Forall (fun m => NoDup (Attempt.id <$> attempts m)) (runCalls calls).
Proof.
  apply (runCalls_Forall _ (fun B => NoDup (Attempt.id <$> B))).
  - intros B d e p. apply processBatch_NoDup_ids.
  - intros M B d e s HB _ HM Hs. apply mergeExisting_NoDup_ids.
    + apply Forall_forall. intros p. by apply processBatch_NoDup_ids.
    + done.
    + rewrite Forall_forall in HM. auto.
Qed.

(** The theorem on a session in which [a1] is fetched twice. *)
Lemma C4_no_duplicate_ids_witness :
  Forall (fun c => NoDup (Attempt.id <$> batch c)) overlapCalls /\
  Forall (fun m => NoDup (Attempt.id <$> attempts m)) (runCalls overlapCalls).
Proof.
  assert (Forall (fun c => NoDup (Attempt.id <$> batch c)) overlapCalls) as H.
  { compute_done. }
  split; [exact H | exact (C4_no_duplicate_ids_across_batches overlapCalls H)].
Defined.

(** C4 as stated fails: a batch that holds an attempt twice yields an
    aggregate that lists its id twice. *)
Lemma C4_duplicate_within_batch :
  (attempts <$> runCalls [dupCall]) = [[okAttempt; okAttempt]] /\
  ~ Forall (fun m => NoDup (Attempt.id <$> attempts m)) (runCalls [dupCall]).
Proof.
  assert ((attempts <$> runCalls [dupCall]) = [[okAttempt; okAttempt]]) as E
    by (by vm_compute).
  split; [exact E|].
  intros H.
  assert (Forall (fun l => NoDup (Attempt.id <$> l))
                 (attempts <$> runCalls [dupCall])) as H'.
  { by apply Forall_fmap. }
  rewrite E in H'. rewrite Forall_singleton in H'.
  simpl in H'. apply NoDup_cons in H' as [Hnin _]. apply Hnin. left.
Qed.

(** ** Fields of a merged aggregate (claims C3, C5 and C10) *)

Lemma findMessage_processBatch B d e k g :
  groupOf k B = Some g ->
  findMessage (processBatch B d e) k
  = Some (deriveMessage d (buildErrorMap e) (k, g)).
Proof.
  intros Hg.
  change k with (messageId (deriveMessage d (buildErrorMap e) (k, g))) at 1.
  apply findMessage_NoDup; [apply processBatch_distinct|].
  apply processBatch_elem. by exists k, g.
Qed.

Lemma processApiData_lookup_existing (M : list ProcessedMessage.t) B d e s :
  distinctMessageIds M -> s ∈ M ->
  findMessage (processApiData M B d e true) (messageId s)
  = Some (mergeExisting (buildExistingAttemptMap M) (processBatch B d e) s).
Proof.
  intros Hnd Hs.
  rewrite <- (mergeExisting_messageId (buildExistingAttemptMap M)
                (processBatch B d e) s) at 1.
  apply findMessage_NoDup; [by apply processApiData_distinct|].
  rewrite processApiData_incremental by done.
  apply (array_sort_elem _), mergedCollection_elem. left. by exists s.
Qed.

(** An existing aggregate that receives an attempt with an unknown id is
    replaced by [updateMessage] of it and the unseen attempts. *)
Lemma processApiData_receives (M : list ProcessedMessage.t) B d e s a :
  distinctMessageIds M -> s ∈ M -> messageId s ≠ "" ->
  a ∈ B -> Attempt.messageId a = Some (messageId s) ->
  Attempt.id a ∉ buildExistingAttemptMap M ->
  a ∈ unseenFor M B s /\
  findMessage (processApiData M B d e true) (messageId s)
  = Some (updateMessage s (unseenFor M B s)).
Proof.
  intros Hnd Hs Hk Ha Hmid Hid.
  assert (a ∈ attemptsOf (messageId s) B) as Hg.
  { by apply list_elem_of_filter. }
  assert (a ∈ unseenFor M B s) as Hna.
  { apply list_elem_of_filter. split; [done|]. by apply (array_sort_elem _). }
  split; [done|].
  rewrite processApiData_lookup_existing by done. f_equal.
  unfold mergeExisting.
  rewrite (findMessage_processBatch B d e _ (attemptsOf (messageId s) B)).
  2:{ unfold groupOf. rewrite decide_False by done.
      destruct (attemptsOf (messageId s) B); [|done].
      by apply elem_of_nil in Hg. }
  rewrite deriveMessage_attempts. simpl. fold (unseenFor M B s).
  destruct (unseenFor M B s); [by apply elem_of_nil in Hna | done].
Qed.

(** C10.  When an incremental merge adds an attempt with an unknown id to
    an existing aggregate, the aggregate that replaces it keeps the
    existing [documentId], [parsingError], [largePayloadFailure] and
    [hookId] (and key), whatever the identifier map and error list of the
    call hold and whatever the latest failure now is; the new attempt is
    among its members. *)
Theorem C10_merge_keeps_decoded_fields
    (M : list ProcessedMessage.t) B d e s a :
  distinctMessageIds M -> s ∈ M -> messageId s ≠ "" ->
  a ∈ B -> Attempt.messageId a = Some (messageId s) ->
  Attempt.id a ∉ buildExistingAttemptMap M ->
  exists r,
    findMessage (processApiData M B d e true) (messageId s) = Some r /\
    a ∈ attempts r /\
    messageId r = messageId s /\
    documentId r = documentId s /\
    parsingError r = parsingError s /\
    largePayloadFailure r = largePayloadFailure s /\
    hookId r = hookId s.
Proof.
  intros Hnd Hs Hk Ha Hmid Hid.
  destruct (processApiData_receives M B d e s a) as [Hna Hr]; try done.
  exists (updateMessage s (unseenFor M B s)). split; [done|].
  split; [|done]. simpl. apply (array_sort_elem _), elem_of_app. by right.
Qed.

Lemma lateDecodeState_reached :
  runCalls [ mkCall [okAttempt] ∅ [] false ] = lateDecodeState.
Proof. by vm_compute. Qed.

(** The theorem on the merge of [tooLargeAttempt] into [okAggregate], with
    an identifier and a decode error for [m1] in the call. *)
Lemma C10_merge_keeps_decoded_fields_witness :
  exists r,
    findMessage (processApiData lateDecodeState [tooLargeAttempt]
                                lateDocumentIds lateErrors true)
                (messageId okAggregate) = Some r /\
    tooLargeAttempt ∈ attempts r /\
    messageId r = messageId okAggregate /\
    documentId r = documentId okAggregate /\
    parsingError r = parsingError okAggregate /\
    largePayloadFailure r = largePayloadFailure okAggregate /\
    hookId r = hookId okAggregate.
Proof.
  apply (C10_merge_keeps_decoded_fields lateDecodeState [tooLargeAttempt]
           lateDocumentIds lateErrors okAggregate tooLargeAttempt).
  - compute_done.
  - left.
  - done.
  - left.
  - done.
  - compute_done.
Defined.

(** C3, as the code has it.  When an incremental merge adds an attempt
    with an id that no existing aggregate holds to an existing aggregate, the
    aggregate that replaces it has the existing attempts and the unseen
    attempts of the batch, sorted by [createdAt], as members, and its
    [oldestAttempt], [newestAttempt], [attemptCount], [successRate] and
    [latestFailure] are those a derivation from scratch computes from that
    list; [documentId] and [parsingError] are those of the existing
    aggregate. *)
Theorem C3_merge_recomputes_attempt_fields
    (M : list ProcessedMessage.t) B d e s a :
  distinctMessageIds M -> s ∈ M -> messageId s ≠ "" ->
  a ∈ B -> Attempt.messageId a = Some (messageId s) ->
  Attempt.id a ∉ buildExistingAttemptMap M ->
  exists r,
    findMessage (processApiData M B d e true) (messageId s) = Some r /\
    attempts r = array_sort byCreatedAt (attempts s ++ unseenFor M B s) /\
    attempts r = attempts (derivedFromUnion M B d e s) /\
    oldestAttempt r = oldestAttempt (derivedFromUnion M B d e s) /\
    newestAttempt r = newestAttempt (derivedFromUnion M B d e s) /\
    attemptCount r = attemptCount (derivedFromUnion M B d e s) /\
    successRate r = successRate (derivedFromUnion M B d e s) /\
    latestFailure r = latestFailure (derivedFromUnion M B d e s) /\
    documentId r = documentId s /\
    parsingError r = parsingError s.
Proof.
  intros Hnd Hs Hk Ha Hmid Hid.
  destruct (processApiData_receives M B d e s a) as [Hna Hr]; try done.
  exists (updateMessage s (unseenFor M B s)). by split.
Qed.

(** The theorem on the merge of [tooLargeAttempt] into [okAggregate]. *)
Lemma C3_merge_recomputes_attempt_fields_witness :
  exists r,
    findMessage (processApiData lateDecodeState [tooLargeAttempt]
                                lateDocumentIds lateErrors true)
                (messageId okAggregate) = Some r /\
    attempts r
    = array_sort byCreatedAt
        (attempts okAggregate
         ++ unseenFor lateDecodeState [tooLargeAttempt] okAggregate) /\
    attempts r = attempts (derivedFromUnion lateDecodeState [tooLargeAttempt]
                             lateDocumentIds lateErrors okAggregate) /\
    oldestAttempt r = oldestAttempt (derivedFromUnion lateDecodeState
                        [tooLargeAttempt] lateDocumentIds lateErrors okAggregate) /\
    newestAttempt r = newestAttempt (derivedFromUnion lateDecodeState
                        [tooLargeAttempt] lateDocumentIds lateErrors okAggregate) /\
    attemptCount r = attemptCount (derivedFromUnion lateDecodeState
                        [tooLargeAttempt] lateDocumentIds lateErrors okAggregate) /\
    successRate r = successRate (derivedFromUnion lateDecodeState
                        [tooLargeAttempt] lateDocumentIds lateErrors okAggregate) /\
    latestFailure r = latestFailure (derivedFromUnion lateDecodeState
                        [tooLargeAttempt] lateDocumentIds lateErrors okAggregate) /\
    documentId r = documentId okAggregate /\
    parsingError r = parsingError okAggregate.
Proof.
  apply (C3_merge_recomputes_attempt_fields lateDecodeState [tooLargeAttempt]
           lateDocumentIds lateErrors okAggregate tooLargeAttempt).
  - compute_done.
  - left.
  - done.
  - left.
  - done.
  - compute_done.
Defined.

(** C3 as stated fails: the merged aggregate is not the one a derivation
    from the unioned list gives.  The call brings an identifier and a
    decode error for the message; the merged aggregate has neither. *)
Lemma C3_decoded_fields_not_recomputed :
  exists r,
    findMessage (processApiData lateDecodeState [tooLargeAttempt]
                                lateDocumentIds lateErrors true) "m1" = Some r /\
    documentId r = None /\
    parsingError r = None /\
    documentId (derivedFromUnion lateDecodeState [tooLargeAttempt]
                  lateDocumentIds lateErrors okAggregate) = Some "doc-1" /\
    parsingError (derivedFromUnion lateDecodeState [tooLargeAttempt]
                    lateDocumentIds lateErrors okAggregate)
    = Some "Unexpected token" /\
    r <> derivedFromUnion lateDecodeState [tooLargeAttempt]
           lateDocumentIds lateErrors okAggregate.
Proof.
  exists (updateMessage okAggregate
            (unseenFor lateDecodeState [tooLargeAttempt] okAggregate)).
  split_and!.
  - by vm_compute.
  - done.
  - done.
  - by vm_compute.
  - by vm_compute.
  - intros H. apply (f_equal documentId) in H. vm_compute in H. discriminate H.
Qed.

(** On a full load the flag follows the latest failure. *)
Lemma processBatch_flag B d e p :
  p ∈ processBatch B d e ->
  largePayloadFailure p = isLargePayloadFailure (latestFailure p).
Proof. by intros (k & g & _ & ->)%processBatch_elem. Qed.

Lemma isLargePayloadFailure_413 f :
  Attempt.resultCode f = 413 -> isLargePayloadFailure (Some f) = Some true.
Proof.
  intros H. simpl. rewrite H. f_equal. by rewrite !orb_true_r.
Qed.

(** C5 at its failing input.  A message is loaded with its successful
    attempt; loading older data then brings the attempt it retried, which
    failed with status 413.  The merged aggregate has that attempt as its
    latest failure and no [largePayloadFailure]; a full load of the same
    two attempts sets the flag. *)
Theorem C5_flag_stale_after_merge :
  exists r,
    runCalls staleFlagCalls = [r] /\
    latestFailure r = Some tooLargeAttempt /\
    Attempt.resultCode tooLargeAttempt = 413 /\
    largePayloadFailure r = None /\
    largePayloadFailure
      <$> processApiData [] [okAttempt; tooLargeAttempt] ∅ [] false
    = [Some true].
Proof.
  exists (updateMessage okAggregate [tooLargeAttempt]).
  split_and!; by vm_compute.
Qed.

(** ** The attempts route: [hasMore] (claim C6) *)

Lemma GET_attempts_ok parseDate now token
    hoursEarlier fetch request body issued :
  Route.GET_attempts parseDate now token hoursEarlier fetch request
    = (Route.JsonOk body, issued) ->
  Route.hasMore (Route.pagination body)
    = (Route.MAX_PAGES <=? length issued)%nat /\
  length issued = Route.PAGES_TO_FETCH /\
  Route.pages (Route.pagination body) = length issued.
Proof.
  unfold Route.GET_attempts.
  destruct (negb (Route.truthy (Route.projectId request))
            || negb (Route.truthy (Route.webhookId request))); [done|].
  destruct (Route.timeWindowOf parseDate now
      hoursEarlier (Route.before request) 24 12)
    as [timeWindowStart timeWindowEnd].
  destruct (negb (Route.truthy (Route.trim <$> token))); [done|].
  destruct (Route.timeWindowBody _ _ _) as [err|tw]; [done|].
  intros [= <- <-]. done.
Qed.

(** C6 at its failing input.  Every page the route requests comes back
    full of attempts of the time window: the number of pages fetched is the
    number the route is set to fetch, [PAGES_TO_FETCH], and the upstream has
    more to give.  The answer has [hasMore] false and no [nextOffset]: line
    140 compares the number of pages with [MAX_PAGES], which
    [PAGES_TO_FETCH = min(MAX_PAGES, 5)] does not reach, under the comment
    that there might be more data available. *)
Theorem C6_hasMore_false_after_full_pages :
  exists body issued,
    Route.GET_attempts noDate 100000000 (Some "token") utcHoursEarlier
                       fullUpstream sampleRequest
      = (Route.JsonOk body, issued) /\
    length issued = Route.PAGES_TO_FETCH /\
    Route.pages (Route.pagination body) = Route.PAGES_TO_FETCH /\
    Forall (fun rq => exists data,
              fullUpstream rq = Route.HttpOk data /\ length data = 50%nat)
           issued /\
    Route.totalFetched (Route.pagination body) = 250%nat /\
    Route.hasMore (Route.pagination body) = false /\
    Route.nextOffset (Route.pagination body) = None.
Proof.
  destruct (Route.GET_attempts noDate 100000000 (Some "token") utcHoursEarlier
              fullUpstream sampleRequest) as [[status err|body] issued] eqn:E.
  { vm_compute in E. discriminate E. }
  exists body, issued. split; [done|].
  pose proof (GET_attempts_ok _ _ _ _ _ _ _ _ E) as (_ & Hlen & Hpages).
  assert (Route.totalFetched (Route.pagination body) = 250%nat
          /\ Route.hasMore (Route.pagination body) = false
          /\ Route.nextOffset (Route.pagination body) = None) as (? & ? & ?).
  { vm_compute in E. by injection E as <- _. }
  split_and!; try done; [congruence|].
  apply Forall_forall. intros rq _. by exists (replicate 50 recentAttempt).
Qed.

(** With the constants of the route, five pages are requested and the
    maximum is ten: [hasMore] is never true. *)
Lemma GET_attempts_hasMore_false parseDate now token
    hoursEarlier fetch request body issued :
  Route.GET_attempts parseDate now token hoursEarlier fetch request
    = (Route.JsonOk body, issued) ->
  Route.hasMore (Route.pagination body) = false /\ length issued = 5%nat.
Proof.
  intros (Hmore & Hlen & _)%GET_attempts_ok. rewrite Hmore, Hlen. done.
Qed.

(** The lemma on a request that is answered with data. *)
Lemma GET_attempts_hasMore_false_witness :
  exists body issued,
    Route.GET_attempts noDate 100000000 (Some "token")
        utcHoursEarlier emptyUpstream sampleRequest
      = (Route.JsonOk body, issued) /\
    Route.hasMore (Route.pagination body) = false /\ length issued = 5%nat.
Proof.
  destruct (Route.GET_attempts noDate 100000000 (Some "token")
      utcHoursEarlier emptyUpstream
              sampleRequest) as [[status err|body] issued] eqn:E.
  { vm_compute in E. discriminate E. }
  exists body, issued. split; [done|].
  exact (GET_attempts_hasMore_false _ _ _ _ _ _ _ _ E).
Defined.

(** ** Parameter and credential checks (claim C8) *)

(** C8.  Both routes answer a request whose [projectId] or [webhookId] is
    absent or empty with status 400 and the missing-parameter message, and
    a request with both identifiers but no (or a blank) API token with
    status 500 and the token message; in either case no upstream request
    is issued.  The two answers differ. *)
Theorem C8_missing_parameter_and_missing_token
    parseDate now token hoursEarlier JSON_parse earlier
    (fetchAttempts : Route.UpstreamRequest -> Route.FetchResult Attempt.t)
    (fetchMessages : Route.UpstreamRequest -> Route.FetchResult Route.WebhookMessage)
    request :
  (Route.truthy (Route.projectId request) = false
   \/ Route.truthy (Route.webhookId request) = false ->
   Route.GET_attempts parseDate now token hoursEarlier fetchAttempts request
     = (Route.JsonError 400 Route.missingParameters, [])
   /\ Route.GET_messages parseDate now token
       hoursEarlier JSON_parse earlier fetchMessages request
     = (Route.JsonError 400 Route.missingParameters, []))
  /\
  (Route.truthy (Route.projectId request) = true ->
   Route.truthy (Route.webhookId request) = true ->
   Route.truthy (Route.trim <$> token) = false ->
   Route.GET_attempts parseDate now token hoursEarlier fetchAttempts request
     = (Route.JsonError 500 Route.tokenUndefined, [])
   /\ Route.GET_messages parseDate now token
       hoursEarlier JSON_parse earlier fetchMessages request
     = (Route.JsonError 500 Route.tokenUndefined, []))
  /\
  @Route.JsonError Route.AttemptsBody 400 Route.missingParameters
    <> Route.JsonError 500 Route.tokenUndefined.
Proof.
  split_and!.
  - intros Hmissing. unfold Route.GET_attempts, Route.GET_messages.
    destruct Hmissing as [-> | ->]; simpl; by rewrite ?orb_true_r.
  - intros Hp Hw Ht. unfold Route.GET_attempts, Route.GET_messages.
    rewrite Hp, Hw, Ht. simpl.
    destruct (Route.timeWindowOf parseDate now
        hoursEarlier (Route.before request) 24 12).
    done.
  - done.
Qed.

(** The theorem on a request with an empty [webhookId], and on a request
    served with a blank token. *)
Lemma C8_missing_parameter_witness :
  Route.GET_attempts noDate 0 (Some "token") utcHoursEarlier emptyUpstream
    (Route.mkRequest (Some "proj") (Some "") None None None)
  = (Route.JsonError 400 Route.missingParameters, [])
  /\
  Route.GET_messages noDate 0 (Some "  ")
      utcHoursEarlier (fun _ => inl "unused") false
    emptyUpstream sampleRequest
  = (Route.JsonError 500 Route.tokenUndefined, []).
Proof.
  split.
  - apply (C8_missing_parameter_and_missing_token noDate 0 (Some "token")
             utcHoursEarlier (fun _ => inl "unused") false emptyUpstream emptyUpstream
             (Route.mkRequest (Some "proj") (Some "") None None None)).
    by right.
  - apply (C8_missing_parameter_and_missing_token noDate 0 (Some "  ")
             utcHoursEarlier (fun _ => inl "unused") false emptyUpstream emptyUpstream
             sampleRequest); done.
Defined.

(** ** The payload decoder (claim C7) *)

Section decoder_facts.
Variable JSON_parse : string -> string + Route.JsValue.
Variable record : Route.WebhookMessage -> string -> MessageWithError.t.
Hypothesis record_id : forall m e, MessageWithError.id (record m e) = Route.wm_id m.

Local Notation "'STEP'" := (decodeStepWith JSON_parse record).
Local Notation "'EXTRACT'" := (Route.tryExtract JSON_parse).

Lemma decodeStepWith_throw acc m e :
  EXTRACT m = inl e -> STEP acc m = (acc.1, acc.2 ++ [record m e]).
Proof. unfold decodeStepWith. by intros ->. Qed.

Lemma decodeStepWith_store acc m v :
  EXTRACT m = inr (Some v) -> STEP acc m = (<[Route.wm_id m := v]> acc.1, acc.2).
Proof. unfold decodeStepWith. by intros ->. Qed.

Lemma decodeStepWith_skip acc m :
  EXTRACT m = inr None -> STEP acc m = acc.
Proof. unfold decodeStepWith. by intros ->. Qed.

Lemma decodeWith_snoc acc msgs m :
  foldl STEP acc (msgs ++ [m]) = STEP (foldl STEP acc msgs) m.
Proof. by rewrite foldl_snoc. Qed.

(** A message whose id is not in the list leaves no trace. *)
Lemma decodeWith_absent msgs k :
  k ∉ Route.wm_id <$> msgs ->
  (foldl STEP (∅, []) msgs).1 !! k = None /\
  forall x, x ∈ (foldl STEP (∅, []) msgs).2 -> MessageWithError.id x ≠ k.
Proof.
  induction msgs as [|m msgs IH] using rev_ind; intros Hk.
  { split; [done|]. intros x Hx. by apply elem_of_nil in Hx. }
  rewrite fmap_app, not_elem_of_app in Hk. destruct Hk as [Hk Hm].
  simpl in Hm. rewrite list_elem_of_singleton in Hm.
  destruct (IH Hk) as [IHd IHe]. rewrite decodeWith_snoc.
  destruct (EXTRACT m) as [e|[v|]] eqn:E;
    [ rewrite (decodeStepWith_throw _ _ _ E)
    | rewrite (decodeStepWith_store _ _ _ E)
    | rewrite (decodeStepWith_skip _ _ E) ]; simpl.
  - split; [done|]. intros x [?| ->%list_elem_of_singleton]%elem_of_app; [auto|].
    rewrite record_id. congruence.
  - split; [|done]. rewrite lookup_insert_ne; [done | congruence].
  - done.
Qed.

(** The outcome of each message of a list without repeated ids, read off
    the result of the loop. *)
Lemma decodeWith_outcome msgs m :
  NoDup (Route.wm_id <$> msgs) -> m ∈ msgs ->
  match EXTRACT m with
  | inl e =>
      (foldl STEP (∅, []) msgs).1 !! Route.wm_id m = None /\
      record m e ∈ (foldl STEP (∅, []) msgs).2
  | inr None =>
      (foldl STEP (∅, []) msgs).1 !! Route.wm_id m = None /\
      forall x, x ∈ (foldl STEP (∅, []) msgs).2 ->
                MessageWithError.id x ≠ Route.wm_id m
  | inr (Some v) =>
      (foldl STEP (∅, []) msgs).1 !! Route.wm_id m = Some v /\
      forall x, x ∈ (foldl STEP (∅, []) msgs).2 ->
                MessageWithError.id x ≠ Route.wm_id m
  end.
Proof.
  induction msgs as [|m' msgs IH] using rev_ind; intros Hnd Hin.
  { by apply elem_of_nil in Hin. }
  rewrite fmap_app in Hnd. apply NoDup_app in Hnd as (Hnd & Hdisj & _).
  rewrite decodeWith_snoc.
  apply elem_of_app in Hin as [Hin| ->%list_elem_of_singleton].
  - assert (Route.wm_id m ≠ Route.wm_id m') as Hne.
    { intros Heq. apply (Hdisj (Route.wm_id m)).
      - by apply list_elem_of_fmap_2.
      - rewrite Heq. left. }
    specialize (IH Hnd Hin).
    destruct (EXTRACT m') as [e'|[v'|]] eqn:E';
      [ rewrite (decodeStepWith_throw _ _ _ E')
      | rewrite (decodeStepWith_store _ _ _ E')
      | rewrite (decodeStepWith_skip _ _ E') ]; simpl.
    + destruct (EXTRACT m) as [e|[v|]]; destruct IH as [IHd IHe];
        (split; [done|]).
      * apply elem_of_app. by left.
      * intros x [?| ->%list_elem_of_singleton]%elem_of_app; [auto|].
        rewrite record_id. congruence.
      * intros x [?| ->%list_elem_of_singleton]%elem_of_app; [auto|].
        rewrite record_id. congruence.
    + rewrite lookup_insert_ne by congruence. done.
    + done.
  - assert (Route.wm_id m' ∉ Route.wm_id <$> msgs) as Hfresh.
    { intros H. apply (Hdisj _ H). left. }
    destruct (decodeWith_absent msgs _ Hfresh) as [Hd He].
    destruct (EXTRACT m') as [e'|[v'|]] eqn:E';
      [ rewrite (decodeStepWith_throw _ _ _ E')
      | rewrite (decodeStepWith_store _ _ _ E')
      | rewrite (decodeStepWith_skip _ _ E') ]; simpl.
    + split; [done|]. apply elem_of_app. right. left.
    + split; [|done]. by rewrite lookup_insert_eq.
    + done.
Qed.

End decoder_facts.

Lemma decodeMessages_with JSON_parse msgs :
  Route.decodeMessages JSON_parse msgs
  = foldl (decodeStepWith JSON_parse errorRecord) (∅, []) msgs.
Proof.
  unfold Route.decodeMessages.
  generalize (∅ : gmap string Route.JsValue, @nil MessageWithError.t).
  induction msgs as [|m msgs IH]; intros acc; [done|]. simpl. rewrite IH.
  f_equal. unfold Route.decodeStep, decodeStepWith. destruct acc.
  by destruct (Route.tryExtract JSON_parse m) as [?|[?|]].
Qed.

Lemma decodeMessagesSnippet_with JSON_parse msgs :
  Route.decodeMessagesSnippet JSON_parse msgs
  = foldl (decodeStepWith JSON_parse errorRecordSnippet) (∅, []) msgs.
Proof.
  unfold Route.decodeMessagesSnippet.
  generalize (∅ : gmap string Route.JsValue, @nil MessageWithError.t).
  induction msgs as [|m msgs IH]; intros acc; [done|]. simpl. rewrite IH.
  f_equal. unfold Route.decodeStepSnippet, decodeStepWith. destruct acc.
  by destruct (Route.tryExtract JSON_parse m) as [?|[?|]].
Qed.

Lemma substring0_length n s : (String.length (substring0 n s) <= n)%nat.
Proof.
  revert s. induction n as [|n IH]; intros [|c s]; simpl; try lia.
  specialize (IH s). lia.
Qed.

Lemma string_app_length (s1 s2 : string) :
  String.length (s1 +:+ s2) = (String.length s1 + String.length s2)%nat.
Proof. induction s1 as [|c s1 IH]; simpl; [done | by rewrite IH]. Qed.

Lemma snippet_length n p :
  (String.length (substring0 n p +:+ "...") <= n + 3)%nat.
Proof.
  rewrite string_app_length. pose proof (substring0_length n p).
  change (String.length "...") with 3%nat. lia.
Qed.

(** The snippet is the first hundred characters and an ellipsis. *)
Lemma payloadSnippet_length m s :
  Route.payloadSnippet m = Some s -> (String.length s <= 103)%nat.
Proof.
  unfold Route.payloadSnippet. destruct (Route.truthy _); [|done].
  intros H. injection H as <-.
  exact (snippet_length 100 (default "" (Route.wm_payload m))).
Qed.

Lemma tryExtract_payload JSON_parse m p :
  Route.wm_payload m = Some p -> p ≠ "" ->
  Route.tryExtract JSON_parse m
  = match JSON_parse p with inl e => inl e | inr v => Route.afterId v end.
Proof.
  intros Hp Hne. unfold Route.tryExtract. rewrite Hp. simpl.
  by rewrite decide_False.
Qed.

(** A parsed object without an [after] property, or whose [after] has no
    [_id], has no identifier to store. *)
Lemma afterId_missing_after fields :
  JsMap.get fields "after" = None ->
  Route.afterId (Route.JObject fields) = inr None.
Proof. simpl. by intros ->. Qed.

Lemma afterId_missing_id fields inner :
  JsMap.get fields "after" = Some (Route.JObject inner) ->
  JsMap.get inner "_id" = None ->
  Route.afterId (Route.JObject fields) = inr None.
Proof. simpl. intros -> H. simpl. by rewrite H. Qed.

(** C7, as the code has it.  For a message with a non-empty payload, in a
    list of messages with distinct ids, whatever the other messages are:
    when [JSON.parse] throws, or returns [null] (so that reading [after]
    throws), the id is absent from the identifier map and the error list
    holds the id with the message of the exception (the current route) or
    with that and the first 100 characters of the payload followed by
    three dots (the earlier route, at most 103 characters); when the
    payload parses but has no truthy [after._id], the id is absent from the
    identifier map and from the error list; otherwise the identifier is
    stored under the id. *)
Theorem C7_decode_outcome_per_message JSON_parse msgs m p :
  NoDup (Route.wm_id <$> msgs) -> m ∈ msgs ->
  Route.wm_payload m = Some p -> p ≠ "" ->
  (forall e,
      JSON_parse p = inl e \/ (JSON_parse p = inr Route.JNull
                               /\ e = Route.cannotReadAfter) ->
      (Route.decodeMessages JSON_parse msgs).1 !! Route.wm_id m = None /\
      MessageWithError.mk (Route.wm_id m) e None
        ∈ (Route.decodeMessages JSON_parse msgs).2 /\
      (Route.decodeMessagesSnippet JSON_parse msgs).1 !! Route.wm_id m = None /\
      MessageWithError.mk (Route.wm_id m) e (Some (substring0 100 p +:+ "..."))
        ∈ (Route.decodeMessagesSnippet JSON_parse msgs).2 /\
      (String.length (substring0 100 p +:+ "...") <= 103)%nat)
  /\
  (forall v,
      JSON_parse p = inr v -> Route.afterId v = inr None ->
      (Route.decodeMessages JSON_parse msgs).1 !! Route.wm_id m = None /\
      (forall x, x ∈ (Route.decodeMessages JSON_parse msgs).2 ->
                 MessageWithError.id x ≠ Route.wm_id m) /\
      (Route.decodeMessagesSnippet JSON_parse msgs).1 !! Route.wm_id m = None /\
      (forall x, x ∈ (Route.decodeMessagesSnippet JSON_parse msgs).2 ->
                 MessageWithError.id x ≠ Route.wm_id m))
  /\
  (forall v w,
      JSON_parse p = inr v -> Route.afterId v = inr (Some w) ->
      (Route.decodeMessages JSON_parse msgs).1 !! Route.wm_id m = Some w /\
      (Route.decodeMessagesSnippet JSON_parse msgs).1 !! Route.wm_id m = Some w).
Proof.
  intros Hnd Hin Hp Hne.
  pose proof (decodeWith_outcome JSON_parse errorRecord (fun _ _ => eq_refl)
                msgs m Hnd Hin) as Hcur.
  pose proof (decodeWith_outcome JSON_parse errorRecordSnippet (fun _ _ => eq_refl)
                msgs m Hnd Hin) as Hold.
  rewrite <- decodeMessages_with in Hcur.
  rewrite <- decodeMessagesSnippet_with in Hold.
  rewrite (tryExtract_payload _ _ _ Hp Hne) in Hcur, Hold.
  assert (errorRecordSnippet m = fun e =>
            MessageWithError.mk (Route.wm_id m) e (Some (substring0 100 p +:+ "...")))
    as Hsnip.
  { unfold errorRecordSnippet, Route.payloadSnippet. rewrite Hp. simpl.
    by rewrite decide_False. }
  split_and!.
  - intros e He.
    assert (match JSON_parse p with inl e => inl e | inr v => Route.afterId v end
            = inl e) as Hthrow.
    { destruct He as [->|[-> ->]]; done. }
    rewrite Hthrow in Hcur, Hold. rewrite Hsnip in Hold.
    destruct Hcur as [? ?], Hold as [? ?]. split_and!; try done.
    apply (snippet_length 100 p).
  - intros v Hv Hafter. rewrite Hv, Hafter in Hcur, Hold.
    destruct Hcur as [? ?], Hold as [? ?]. done.
  - intros v w Hv Hafter. rewrite Hv, Hafter in Hcur, Hold.
    destruct Hcur as [? ?], Hold as [? ?]. done.
Qed.

(** The theorem on a malformed payload between two well-formed ones. *)
Lemma C7_decode_outcome_witness :
  (Route.decodeMessages sampleParse
     [emptyObjectMessage; malformedMessage; goodMessage]).1 !! "msg-2" = None /\
  MessageWithError.mk "msg-2" "Unexpected token" None
    ∈ (Route.decodeMessages sampleParse
         [emptyObjectMessage; malformedMessage; goodMessage]).2.
Proof.
  destruct (C7_decode_outcome_per_message sampleParse
              [emptyObjectMessage; malformedMessage; goodMessage]
              malformedMessage "{not json") as (Hthrow & _ & _).
  - compute_done.
  - right. left.
  - done.
  - done.
  - destruct (Hthrow "Unexpected token") as (H1 & H2 & _); [by left|].
    split; [exact H1 | exact H2].
Defined.

(** C7 as stated fails: a payload that parses to an object without
    [after] is in neither the identifier map nor the error list. *)
Lemma C7_missing_path_not_reported :
  sampleParse "{}" = inr (Route.JObject []) /\
  Route.js_get (Route.JObject []) "after" = None /\
  Route.decodeMessages sampleParse [emptyObjectMessage] = (∅, []) /\
  Route.decodeMessagesSnippet sampleParse [emptyObjectMessage] = (∅, []) /\
  ~ (exists x, x ∈ (Route.decodeMessages sampleParse [emptyObjectMessage]).2
               /\ MessageWithError.id x = "msg-1").
Proof.
  split_and!; try done.
  intros (x & Hx & _). by apply elem_of_nil in Hx.
Qed.

(** The snippet of the earlier route is longer than 100 characters as soon
    as the payload is. *)
Lemma payloadSnippet_exceeds_100 :
  String.length <$>
    Route.payloadSnippet
      (Route.mkWebhookMessage "msg-4" 0
         (Some (string_of_list_ascii (replicate 120 "{"%char))))
  = Some 103%nat.
Proof. by vm_compute. Qed.

(** ** Idempotence (claim C1) *)

Lemma mergeExisting_attempts_incl ids (P : list ProcessedMessage.t) s a :
  a ∈ attempts s -> a ∈ attempts (mergeExisting ids P s).
Proof.
  intros Ha. unfold mergeExisting.
  destruct (findMessage P (messageId s)); [|done].
  simpl. destruct (0 <? _)%nat; [|done]. simpl.
  apply (array_sort_elem _), elem_of_app. by left.
Qed.

Lemma processApiData_sorted (M : list ProcessedMessage.t) B d e inc :
  distinctMessageIds M ->
  sortedBy (fun m => - newestAttempt m) (processApiData M B d e inc).
Proof.
  intros Hnd. destruct inc; [|apply processBatch_sorted].
  rewrite processApiData_incremental by done.
  apply array_sort_sorted, byNewestDesc_key.
Qed.

(** Known attempt ids stay known. *)
Lemma known_ids_kept (M : list ProcessedMessage.t) B d e x :
  distinctMessageIds M ->
  x ∈ buildExistingAttemptMap M ->
  x ∈ buildExistingAttemptMap (processApiData M B d e true).
Proof.
  intros Hnd (s & a & Hs & Ha & Hid)%elem_of_buildExistingAttemptMap.
  apply elem_of_buildExistingAttemptMap.
  exists (mergeExisting (buildExistingAttemptMap M) (processBatch B d e) s), a.
  split_and!; [|by apply mergeExisting_attempts_incl | done].
  rewrite processApiData_incremental by done.
  apply (array_sort_elem _), mergedCollection_elem. left. by exists s.
Qed.

Lemma groupOf_elem k B a :
  a ∈ B -> Attempt.messageId a = Some k -> k ≠ "" ->
  groupOf k B = Some (attemptsOf k B) /\ a ∈ attemptsOf k B.
Proof.
  intros Ha Hk Hne.
  assert (a ∈ attemptsOf k B) as Hg by (by apply list_elem_of_filter).
  split; [|done]. unfold groupOf. rewrite decide_False by done.
  destruct (attemptsOf k B); [by apply elem_of_nil in Hg | done].
Qed.

(** The message of every group of the batch has an aggregate afterwards. *)
Lemma group_key_present (M : list ProcessedMessage.t) B d e k g :
  distinctMessageIds M -> groupOf k B = Some g ->
  k ∈ messageId <$> processApiData M B d e true.
Proof.
  intros Hnd Hg. rewrite processApiData_incremental by done.
  rewrite array_sort_Permutation. unfold mergedCollection.
  rewrite fmap_app, mergeExisting_keys, elem_of_app.
  destruct (decide (k ∈ messageId <$> M)) as [?|Hnew]; [by left|right].
  apply list_elem_of_fmap.
  exists (deriveMessage d (buildErrorMap e) (k, g)). split; [done|].
  apply list_elem_of_filter. split; [done|].
  apply processBatch_elem. by exists k, g.
Qed.

(** Every attributable attempt of the batch is known afterwards. *)
Lemma batch_ids_known (M : list ProcessedMessage.t) B d e a k :
  distinctMessageIds M ->
  a ∈ B -> Attempt.messageId a = Some k -> k ≠ "" ->
  Attempt.id a ∈ buildExistingAttemptMap (processApiData M B d e true).
Proof.
  intros Hnd Ha Hk Hne.
  destruct (decide (Attempt.id a ∈ buildExistingAttemptMap M)) as [?|Hnew].
  { by apply known_ids_kept. }
  destruct (groupOf_elem k B a Ha Hk Hne) as [Hg Hag].
  apply elem_of_buildExistingAttemptMap.
  destruct (decide (k ∈ messageId <$> M)) as [Hin|Hnin].
  - apply list_elem_of_fmap in Hin as (s & -> & Hs).
    destruct (processApiData_receives M B d e s a) as [Hna Hr]; try done.
    apply findMessage_Some in Hr as [Hr _].
    exists (updateMessage s (unseenFor M B s)), a. split_and!; [done| |done].
    simpl. apply (array_sort_elem _), elem_of_app. by right.
  - exists (deriveMessage d (buildErrorMap e) (k, attemptsOf k B)), a.
    split_and!; [| |done].
    + rewrite processApiData_incremental by done.
      apply (array_sort_elem _), mergedCollection_elem. right. split; [|done].
      apply processBatch_elem. by exists k, (attemptsOf k B).
    + rewrite deriveMessage_attempts. by apply (array_sort_elem _).
Qed.

(** A batch whose messages all have aggregates and whose attributable
    attempts are all known changes nothing. *)
Lemma processApiData_absorbed (R : list ProcessedMessage.t) B d e :
  distinctMessageIds R ->
  sortedBy (fun m => - newestAttempt m) R ->
  (forall k g, groupOf k B = Some g -> k ∈ messageId <$> R) ->
  (forall a k, a ∈ B -> Attempt.messageId a = Some k -> k ≠ "" ->
               Attempt.id a ∈ buildExistingAttemptMap R) ->
  processApiData R B d e true = R.
Proof.
  intros Hnd Hsorted Hkeys Hids.
  rewrite processApiData_incremental by done.
  rewrite <- (array_sort_sorted_id _ _ byNewestDesc_key R Hsorted) at 2.
  f_equal. unfold mergedCollection.
  rewrite filter_none.
  2:{ intros p (k & g & Hg & ->)%processBatch_elem Hnew. apply Hnew.
      rewrite deriveMessage_messageId. by eapply Hkeys. }
  rewrite app_nil_r. rewrite <- (list_fmap_id R) at 3.
  apply fmap_ext_elem. intros r Hr. unfold mergeExisting.
  destruct (findMessage (processBatch B d e) (messageId r)) as [p|] eqn:Hp; [|done].
  apply findMessage_Some in Hp as [(k & g & Hg & ->)%processBatch_elem _].
  rewrite deriveMessage_attempts. simpl.
  apply groupOf_Some in Hg as (Hk & _ & ->).
  unfold unseenAttempts. rewrite filter_none; [done|].
  intros a Ha Hnew. apply Hnew. rewrite (array_sort_elem byCreatedAt) in Ha.
  apply list_elem_of_filter in Ha as [Hmid Ha]. by eapply Hids.
Qed.

(** C1.  For every collection with one aggregate per message id, every
    batch and any identifier maps and error lists, merging the batch
    incrementally a second time returns the collection the first merge
    returned: every aggregate, field by field, in the same order. *)
Theorem C1_incremental_merge_idempotent
    (M : list ProcessedMessage.t) B d e d' e' :
  distinctMessageIds M ->
  processApiData (processApiData M B d e true) B d' e' true
  = processApiData M B d e true.
Proof.
  intros Hnd. apply processApiData_absorbed.
  - by apply processApiData_distinct.
  - by apply processApiData_sorted.
  - intros k g Hg. by eapply group_key_present.
  - intros a k Ha Hk Hne. by eapply batch_ids_known.
Qed.

(** The theorem on a batch that overlaps the collection, merged a second
    time with another identifier map and error list. *)
Lemma C1_incremental_merge_idempotent_witness :
  processApiData
    (processApiData lateDecodeState [okAttempt; tooLargeAttempt] ∅ [] true)
    [okAttempt; tooLargeAttempt] lateDocumentIds lateErrors true
  = processApiData lateDecodeState [okAttempt; tooLargeAttempt] ∅ [] true.
Proof.
  apply (C1_incremental_merge_idempotent lateDecodeState
           [okAttempt; tooLargeAttempt] ∅ [] lateDocumentIds lateErrors).
  compute_done.
Defined.

(** In particular the merge is idempotent in every state of a session. *)
Corollary session_merge_idempotent (calls : list Call) B d e d' e' :
  processApiData (processApiData (runCalls calls) B d e true) B d' e' true
  = processApiData (runCalls calls) B d e true.
Proof.
  pose proof (runCalls_distinct calls) as Hnd.
  apply processApiData_absorbed.
  - by apply processApiData_distinct.
  - by apply processApiData_sorted.
  - intros k g Hg. by eapply group_key_present.
  - intros a k Ha Hk Hne. by eapply batch_ids_known.
Qed.

(** The hypothesis of one aggregate per message id cannot be dropped: the
    [Map] built from a collection with a repeated key keeps the last
    aggregate of the key, while the known ids are collected from all of
    them. *)
Remark repeated_key_merge_not_idempotent :
  ~ distinctMessageIds repeatedKeyState /\
  attempts <$> processApiData repeatedKeyState [okAttempt] ∅ [] true
  = [[tooLargeAttempt]] /\
  attempts <$>
    processApiData (processApiData repeatedKeyState [okAttempt] ∅ [] true)
                   [okAttempt] ∅ [] true
  = [[tooLargeAttempt; okAttempt]].
Proof.
  split_and!; [|by vm_compute..].
  unfold distinctMessageIds. simpl. intros H.
  apply NoDup_cons in H as [H _]. apply H. left.
Qed.

(** ** Order of merging (claim C2) *)

Lemma findMessage_processBatch_None B d e k :
  groupOf k B = None -> findMessage (processBatch B d e) k = None.
Proof.
  intros Hg. apply findMessage_None.
  intros (p & -> & (k' & g & Hg' & ->)%processBatch_elem)%list_elem_of_fmap.
  rewrite deriveMessage_messageId in Hg. simpl in Hg. congruence.
Qed.

Lemma mergeExisting_group ids B d e s :
  Some (mergeExisting ids (processBatch B d e) s)
  = mergedAt ids (Some s) d e (messageId s) (groupOf (messageId s) B).
Proof.
  unfold mergeExisting, mergedAt.
  destruct (groupOf (messageId s) B) as [g|] eqn:Hg.
  - by rewrite (findMessage_processBatch B d e _ g Hg).
  - by rewrite findMessage_processBatch_None.
Qed.

(** The aggregate under each key after an incremental call. *)
Lemma processApiData_lookup (M : list ProcessedMessage.t) B d e k :
  distinctMessageIds M ->
  findMessage (processApiData M B d e true) k
  = mergedAt (buildExistingAttemptMap M) (findMessage M k) d e k (groupOf k B).
Proof.
  intros Hnd. destruct (findMessage M k) as [s|] eqn:Hs.
  - apply findMessage_Some in Hs as [Hs <-].
    rewrite processApiData_lookup_existing by done.
    apply mergeExisting_group.
  - apply findMessage_None in Hs.
    destruct (groupOf k B) as [g|] eqn:Hg; simpl.
    + change k with (messageId (deriveMessage d (buildErrorMap e) (k, g))) at 1.
      apply findMessage_NoDup; [by apply processApiData_distinct|].
      rewrite processApiData_incremental by done.
      apply (array_sort_elem _), mergedCollection_elem. right. split; [|done].
      apply processBatch_elem. by exists k, g.
    + apply findMessage_None. rewrite processApiData_incremental by done.
      rewrite array_sort_Permutation. unfold mergedCollection.
      rewrite fmap_app, mergeExisting_keys, not_elem_of_app. split; [done|].
      intros (p & -> & [_ Hp]%list_elem_of_filter)%list_elem_of_fmap.
      apply processBatch_elem in Hp as (k' & g & Hg' & ->).
      rewrite deriveMessage_messageId in Hg. simpl in Hg. congruence.
Qed.

(** Where the members of the aggregates of a call come from. *)
Lemma processApiData_attempts_from (M : list ProcessedMessage.t) B d e inc r a :
  distinctMessageIds M ->
  r ∈ processApiData M B d e inc -> a ∈ attempts r ->
  a ∈ allAttempts M \/ (a ∈ B /\ Attempt.messageId a = Some (messageId r)).
Proof.
  intros Hnd Hr Ha.
  assert (forall p, p ∈ processBatch B d e -> a ∈ attempts p ->
                    a ∈ B /\ Attempt.messageId a = Some (messageId p)) as Hfresh.
  { intros p (k & g & Hg & ->)%processBatch_elem Hp.
    apply groupOf_Some in Hg as (_ & _ & ->).
    rewrite deriveMessage_attempts in Hp. simpl in Hp.
    rewrite (array_sort_elem byCreatedAt) in Hp.
    apply list_elem_of_filter in Hp as [? ?]. done. }
  apply processApiData_elem in Hr as [Hr|(s & Hs & ->)]; [right; by apply Hfresh| |done].
  assert (a ∈ attempts s -> a ∈ allAttempts M) as Hold.
  { intros ?. apply list_elem_of_join. exists (attempts s).
    split; [done | by apply list_elem_of_fmap_2]. }
  rewrite mergeExisting_messageId.
  unfold mergeExisting in Ha.
  destruct (findMessage (processBatch B d e) (messageId s)) as [p|] eqn:Hp;
    [|left; auto].
  simpl in Ha. destruct (0 <? _)%nat; [|left; auto].
  simpl in Ha. rewrite (array_sort_elem byCreatedAt), elem_of_app in Ha.
  destruct Ha as [?|Ha]; [left; auto|right].
  apply list_elem_of_filter in Ha as [_ Ha].
  apply findMessage_Some in Hp as [Hp <-]. by apply Hfresh.
Qed.

Lemma elem_of_allAttempts (M : list ProcessedMessage.t) a :
  a ∈ allAttempts M <-> exists s, s ∈ M /\ a ∈ attempts s.
Proof.
  unfold allAttempts. rewrite list_elem_of_join. split.
  - intros (l & Ha & (s & -> & Hs)%list_elem_of_fmap). by exists s.
  - intros (s & Hs & Ha). exists (attempts s).
    split; [done | by apply list_elem_of_fmap_2].
Qed.

Lemma known_id_iff (M : list ProcessedMessage.t) x :
  x ∈ buildExistingAttemptMap M <->
  exists a, a ∈ allAttempts M /\ Attempt.id a = x.
Proof.
  rewrite elem_of_buildExistingAttemptMap. split.
  - intros (s & a & ? & ? & ?). exists a. split; [|done].
    apply elem_of_allAttempts. by exists s.
  - intros (a & (s & ? & ?)%elem_of_allAttempts & ?). by exists s, a.
Qed.

(** One step keeps the shape of the collection. *)
Lemma processApiData_Forall (Q : ProcessedMessage.t -> Prop)
    (M : list ProcessedMessage.t) B d e inc :
  distinctMessageIds M ->
  (forall p, p ∈ processBatch B d e -> Q p) ->
  (forall s, s ∈ M -> Q s ->
     Q (mergeExisting (buildExistingAttemptMap M) (processBatch B d e) s)) ->
  Forall Q M -> Forall Q (processApiData M B d e inc).
Proof.
  intros Hnd Hfresh Hmerge HM. apply Forall_forall. intros x Hx.
  apply processApiData_elem in Hx as [?|(s & Hs & ->)]; [auto| |done].
  apply Hmerge; [done|]. rewrite Forall_forall in HM. auto.
Qed.

Lemma array_sort_nonempty {A} (cmp : A -> A -> Z) (l : list A) :
  l ≠ [] -> array_sort cmp l ≠ [].
Proof. intros Hl Hs. by apply Hl, (array_sort_nil_inv cmp). Qed.

Lemma processBatch_wellFormed B d e p :
  p ∈ processBatch B d e -> wellFormedMessage p.
Proof.
  intros Hp. split; [by eapply processBatch_attributed|].
  apply processBatch_elem in Hp as (k & g & Hg & ->).
  apply groupOf_Some in Hg as (_ & Hne & _).
  split; [|done]. rewrite deriveMessage_attempts. simpl.
  by apply array_sort_nonempty.
Qed.

Lemma mergeExisting_wellFormed ids B d e s :
  wellFormedMessage s ->
  wellFormedMessage (mergeExisting ids (processBatch B d e) s).
Proof.
  intros (Hattr & Hne & Hnew). split.
  - apply mergeExisting_attributed; [|done].
    apply Forall_forall. intros p. apply processBatch_attributed.
  - unfold mergeExisting.
    destruct (findMessage _ _); [|done]. simpl.
    destruct (0 <? _)%nat; [|done]. simpl. split; [|done].
    apply array_sort_nonempty. destruct (attempts s); done.
Qed.

Lemma processApiData_wellFormed (M : list ProcessedMessage.t) B d e inc :
  wellFormed M -> wellFormed (processApiData M B d e inc).
Proof.
  intros [Hnd HM]. split; [by apply processApiData_distinct|].
  apply processApiData_Forall; try done.
  - intros p. apply processBatch_wellFormed.
  - intros s _. apply mergeExisting_wellFormed.
Qed.

Lemma runCalls_wellFormed calls : wellFormed (runCalls calls).
Proof.
  induction calls as [|c calls IH] using rev_ind.
  - split; constructor.
  - rewrite runCalls_snoc. by apply processApiData_wellFormed.
Qed.

Lemma attemptFields_update s l :
  attemptFields (updateMessage s l)
  = fieldsOf (messageId s) (array_sort byCreatedAt (attempts s ++ l)).
Proof. done. Qed.

Lemma attemptFields_derive d em k g :
  attemptFields (deriveMessage d em (k, g))
  = fieldsOf k (array_sort byCreatedAt g).
Proof. done. Qed.

(** With one record per instant, the sorted member list depends on the
    members only, not on the order they arrived in. *)
Lemma array_sort_byCreatedAt_perm (l1 l2 : list Attempt.t) :
  (forall x y, x ∈ l1 -> y ∈ l1 ->
     Attempt.createdAt x = Attempt.createdAt y -> x = y) ->
  l1 ≡ₚ l2 ->
  array_sort byCreatedAt l1 = array_sort byCreatedAt l2.
Proof.
  intros Hinj Hperm. apply (sortedBy_unique Attempt.createdAt).
  - intros x y Hx Hy. rewrite (array_sort_elem byCreatedAt) in Hx, Hy.
    rewrite <- Hperm in Hy. by apply Hinj.
  - apply array_sort_sorted, byCreatedAt_key.
  - apply array_sort_sorted, byCreatedAt_key.
  - by rewrite !array_sort_Permutation.
Qed.

Lemma length_pos {A} (l : list A) : l ≠ [] -> (0 <? length l)%nat = true.
Proof. by destruct l. Qed.

Lemma length_pos_inv {A} (l : list A) : (0 <? length l)%nat = true -> l ≠ [].
Proof. by destruct l. Qed.

Lemma filter_ext_elem {A} (P1 P2 : A -> Prop)
    `{!forall x, Decision (P1 x), !forall x, Decision (P2 x)} (l : list A) :
  (forall x, x ∈ l -> P1 x <-> P2 x) -> filter P1 l = filter P2 l.
Proof.
  induction l as [|a l IH]; intros Hiff; [done|].
  assert (filter P1 l = filter P2 l) as Hl.
  { apply IH. intros x Hx. apply Hiff. by right. }
  destruct (decide (P1 a)) as [Ha|Ha].
  - rewrite !filter_cons_True; [by rewrite Hl | apply Hiff; [left | done] | done].
  - rewrite !filter_cons_False; [done | | done].
    intros Ha'. apply Ha, Hiff; [left | done].
Qed.

(** Attempts of a batch whose ids differ from those of another batch are
    unseen after that batch exactly when they were unseen before it. *)
Lemma unseen_after_other (M : list ProcessedMessage.t) X d e l :
  distinctMessageIds M ->
  (forall x y, x ∈ X -> y ∈ l -> Attempt.id x ≠ Attempt.id y) ->
  unseenAttempts (buildExistingAttemptMap (processApiData M X d e true)) l
  = unseenAttempts (buildExistingAttemptMap M) l.
Proof.
  intros Hnd Hdisj. unfold unseenAttempts. apply filter_ext_elem.
  intros a Ha. split; intros Hnew Hknown; apply Hnew.
  - by apply known_ids_kept.
  - apply known_id_iff in Hknown as (a' & (r & Hr & Ha')%elem_of_allAttempts & Hid).
    apply known_id_iff.
    destruct (processApiData_attempts_from M X d e true r a' Hnd Hr Ha')
      as [?|[Hx _]]; [by exists a'|].
    by destruct (Hdisj a' a Hx Ha).
Qed.

(** Attempts of a message that has no aggregate yet are all unseen, when
    every id has one record. *)
Lemma unseen_new_key (M : list ProcessedMessage.t) (U l : list Attempt.t) k :
  wellFormed M -> consistentAttempts U ->
  (forall a, a ∈ allAttempts M -> a ∈ U) ->
  (forall a, a ∈ l -> a ∈ U /\ Attempt.messageId a = Some k) ->
  k ∉ messageId <$> M ->
  unseenAttempts (buildExistingAttemptMap M) l = l.
Proof.
  intros [_ Hwf] HU HM Hl Hk. apply filter_all. intros a Ha Hknown.
  apply known_id_iff in Hknown as (a' & Ha' & Hid).
  destruct (Hl a Ha) as [HaU Hmid].
  assert (a' = a) as -> by (apply HU; auto).
  apply elem_of_allAttempts in Ha' as (s & Hs & Has).
  rewrite Forall_forall in Hwf. destruct (Hwf s Hs) as ([_ Hattr] & _).
  rewrite Forall_forall in Hattr. specialize (Hattr a Has).
  apply Hk. apply list_elem_of_fmap. exists s. split; [congruence | done].
Qed.

Section two_batches.
Variables (M : list ProcessedMessage.t) (A B : list Attempt.t).
Variables (dA dB : gmap string string) (eA eB : list MessageWithError.t).
Hypothesis HM : wellFormed M.
Hypothesis HU : consistentAttempts (allAttempts M ++ A ++ B).
Hypothesis Hdisj : disjointById A B.

Local Notation "'MA'" := (processApiData M A dA eA true).
Local Notation "'MB'" := (processApiData M B dB eB true).
Local Notation "'AB'" := (processApiData (processApiData M A dA eA true) B dB eB true).
Local Notation "'BA'" := (processApiData (processApiData M B dB eB true) A dA eA true).
Local Notation "'IDS'" := (buildExistingAttemptMap M).

Lemma universe_M a : a ∈ allAttempts M -> a ∈ allAttempts M ++ A ++ B.
Proof. intros ?. apply elem_of_app. by left. Qed.

Lemma universe_A a : a ∈ A -> a ∈ allAttempts M ++ A ++ B.
Proof. intros ?. rewrite !elem_of_app. right. by left. Qed.

Lemma universe_B a : a ∈ B -> a ∈ allAttempts M ++ A ++ B.
Proof. intros ?. rewrite !elem_of_app. right. by right. Qed.

Lemma group_in_batch (X : list Attempt.t) k g a :
  groupOf k X = Some g -> a ∈ array_sort byCreatedAt g ->
  a ∈ X /\ Attempt.messageId a = Some k.
Proof.
  intros (_ & _ & ->)%groupOf_Some Ha.
  rewrite (array_sort_elem byCreatedAt) in Ha.
  apply list_elem_of_filter in Ha as [? ?]. done.
Qed.

Lemma unseen_in l a : a ∈ unseenAttempts IDS l -> a ∈ l.
Proof. by intros [_ ?]%list_elem_of_filter. Qed.

(** Under each key the two orders leave the same attempt-derived fields. *)
Lemma two_merges_lookup k :
  attemptFields <$> findMessage AB k = attemptFields <$> findMessage BA k.
Proof.
  destruct HM as [Hnd Hwf].
  assert (distinctMessageIds MA) as HndA by (by apply processApiData_distinct).
  assert (distinctMessageIds MB) as HndB by (by apply processApiData_distinct).
  rewrite (processApiData_lookup MA B dB eB k HndA).
  rewrite (processApiData_lookup MB A dA eA k HndB).
  rewrite (processApiData_lookup M A dA eA k Hnd).
  rewrite (processApiData_lookup M B dB eB k Hnd).
  assert (forall g, groupOf k B = Some g ->
            unseenAttempts (buildExistingAttemptMap MA) (array_sort byCreatedAt g)
            = unseenAttempts IDS (array_sort byCreatedAt g)) as HseenB.
  { intros g Hg. apply unseen_after_other; [done|].
    intros x y Hx Hy. apply Hdisj; [done|]. by eapply group_in_batch. }
  assert (forall g, groupOf k A = Some g ->
            unseenAttempts (buildExistingAttemptMap MB) (array_sort byCreatedAt g)
            = unseenAttempts IDS (array_sort byCreatedAt g)) as HseenA.
  { intros g Hg. apply unseen_after_other; [done|].
    intros x y Hx Hy Heq. eapply Hdisj; [|exact Hx|symmetry; exact Heq].
    by eapply group_in_batch. }
  assert (forall x y, x ∈ allAttempts M ++ A ++ B -> y ∈ allAttempts M ++ A ++ B ->
            Attempt.createdAt x = Attempt.createdAt y -> x = y) as Htime.
  { intros x y Hx Hy Heq. apply HU; auto. }
  destruct (findMessage M k) as [s|] eqn:Hs;
    destruct (groupOf k A) as [gA|] eqn:HgA;
    destruct (groupOf k B) as [gB|] eqn:HgB; cbn [mergedAt]; try done.
  - (* an existing aggregate, attempts in both batches *)
    rewrite (HseenB gB eq_refl), (HseenA gA eq_refl).
    set (na := unseenAttempts IDS (array_sort byCreatedAt gA)).
    set (nb := unseenAttempts IDS (array_sort byCreatedAt gB)).
    destruct (0 <? length na)%nat eqn:Hna, (0 <? length nb)%nat eqn:Hnb;
      cbn [fmap option_fmap option_map]; try done.
    f_equal. rewrite !attemptFields_update. cbn [updateMessage messageId attempts].
    f_equal. apply array_sort_byCreatedAt_perm.
    + apply findMessage_Some in Hs as [Hs _].
      assert (forall a, a ∈ array_sort byCreatedAt (attempts s ++ na) ++ nb ->
                        a ∈ allAttempts M ++ A ++ B) as Hin.
      { intros a. rewrite elem_of_app, (array_sort_elem byCreatedAt), elem_of_app.
        intros [[Ha|Ha]|Ha].
        - apply universe_M, elem_of_allAttempts. by exists s.
        - apply universe_A. apply unseen_in in Ha. by eapply group_in_batch.
        - apply universe_B. apply unseen_in in Ha. by eapply group_in_batch. }
      intros x y Hx Hy. apply Htime; by apply Hin.
    + rewrite !array_sort_Permutation. rewrite <- !app_assoc.
      f_equiv. apply Permutation_app_comm.
  - (* an existing aggregate, attempts in the first batch only *)
    by rewrite (HseenA gA eq_refl).
  - (* an existing aggregate, attempts in the second batch only *)
    by rewrite (HseenB gB eq_refl).
  - (* a new message with attempts in both batches *)
    apply findMessage_None in Hs.
    rewrite (HseenB gB eq_refl), (HseenA gA eq_refl).
    rewrite (unseen_new_key M (allAttempts M ++ A ++ B) _ k);
      [ | done | done | apply universe_M | | done ].
    2:{ intros a Ha. destruct (group_in_batch B k gB a HgB Ha). split; [|done].
        by apply universe_B. }
    rewrite (unseen_new_key M (allAttempts M ++ A ++ B) _ k);
      [ | done | done | apply universe_M | | done ].
    2:{ intros a Ha. destruct (group_in_batch A k gA a HgA Ha). split; [|done].
        by apply universe_A. }
    apply groupOf_Some in HgA as HgA'. destruct HgA' as (_ & HneA & _).
    apply groupOf_Some in HgB as HgB'. destruct HgB' as (_ & HneB & _).
    rewrite !length_pos by by apply array_sort_nonempty.
    cbn [fmap option_fmap option_map]. f_equal.
    rewrite !attemptFields_update.
    rewrite !deriveMessage_attempts, !deriveMessage_messageId. cbn [fst snd].
    f_equal. apply array_sort_byCreatedAt_perm.
    + assert (forall a, a ∈ array_sort byCreatedAt gA ++ array_sort byCreatedAt gB ->
                        a ∈ allAttempts M ++ A ++ B) as Hin.
      { intros a [Ha|Ha]%elem_of_app.
        - apply universe_A. by eapply group_in_batch.
        - apply universe_B. by eapply group_in_batch. }
      intros x y Hx Hy. apply Htime; by apply Hin.
    + apply Permutation_app_comm.
Qed.

End two_batches.

Lemma last_elem {A} (l : list A) x : last l = Some x -> x ∈ l.
Proof.
  intros H. apply last_Some in H as [l' ->]. apply elem_of_app. right. left.
Qed.

(** In a well-formed collection over attempts with one record per instant,
    [newestAttempt] identifies the aggregate. *)
Lemma newestAttempt_inj (R : list ProcessedMessage.t) (U : list Attempt.t) r r' :
  wellFormed R -> consistentAttempts U ->
  (forall a, a ∈ allAttempts R -> a ∈ U) ->
  r ∈ R -> r' ∈ R -> newestAttempt r = newestAttempt r' -> r = r'.
Proof.
  intros [Hnd Hwf] HU Hin Hr Hr' Heq.
  rewrite Forall_forall in Hwf.
  destruct (Hwf r Hr) as ([_ Hattr] & Hne & Hnew).
  destruct (Hwf r' Hr') as ([_ Hattr'] & Hne' & Hnew').
  unfold lastCreatedAt in Hnew, Hnew'.
  destruct (last (attempts r)) as [l|] eqn:Hl.
  2:{ apply last_None in Hl. done. }
  destruct (last (attempts r')) as [l'|] eqn:Hl'.
  2:{ apply last_None in Hl'. done. }
  simpl in Hnew, Hnew'. apply last_elem in Hl, Hl'.
  assert (l = l') as <-.
  { apply HU.
    - apply Hin, elem_of_allAttempts. by exists r.
    - apply Hin, elem_of_allAttempts. by exists r'.
    - right. congruence. }
  rewrite Forall_forall in Hattr, Hattr'.
  pose proof (Hattr l Hl) as H1. pose proof (Hattr' l Hl') as H2.
  assert (messageId r = messageId r') as Hk by congruence.
  pose proof (findMessage_NoDup R r Hnd Hr) as F1.
  pose proof (findMessage_NoDup R r' Hnd Hr') as F2.
  rewrite Hk in F1. congruence.
Qed.

Lemma attemptFields_messageId m : af_messageId (attemptFields m) = messageId m.
Proof. done. Qed.

Lemma attemptFields_NoDup (R : list ProcessedMessage.t) :
  distinctMessageIds R -> NoDup (attemptFields <$> R).
Proof.
  intros Hnd. apply (NoDup_fmap_1 af_messageId).
  rewrite <- list_fmap_compose. exact Hnd.
Qed.

Lemma attemptFields_elem (R1 R2 : list ProcessedMessage.t) :
  distinctMessageIds R1 ->
  (forall k, attemptFields <$> findMessage R1 k
             = attemptFields <$> findMessage R2 k) ->
  forall c, c ∈ attemptFields <$> R1 -> c ∈ attemptFields <$> R2.
Proof.
  intros Hnd Heq c (r & -> & Hr)%list_elem_of_fmap.
  specialize (Heq (messageId r)). rewrite findMessage_NoDup in Heq by done.
  revert Heq. destruct (findMessage R2 (messageId r)) as [r2|] eqn:H2; [|done].
  simpl. intros Heq. assert (attemptFields r = attemptFields r2) as -> by congruence.
  apply list_elem_of_fmap_2. by apply findMessage_Some in H2 as [? _].
Qed.

(** C2, as the code has it.  For a collection in the shape
    [processApiData] builds, and two batches with disjoint attempt ids,
    where every attempt id and every instant belongs to one attempt
    record, merging the batches incrementally in either order gives the
    same messages in the same order, each with the same members,
    [oldestAttempt], [newestAttempt], [attemptCount], [successRate] and
    [latestFailure], whatever identifier maps and error lists the two
    calls bring. *)
Theorem C2_disjoint_batches_commute_on_attempt_fields
    (M : list ProcessedMessage.t) (A B : list Attempt.t)
    (dA dB : gmap string string) (eA eB : list MessageWithError.t) :
  wellFormed M ->
  consistentAttempts (allAttempts M ++ A ++ B) ->
  disjointById A B ->
  attemptFields <$> processApiData (processApiData M A dA eA true) B dB eB true
  = attemptFields <$> processApiData (processApiData M B dB eB true) A dA eA true.
Proof.
  intros HM HU Hdisj.
  set (R1 := processApiData (processApiData M A dA eA true) B dB eB true).
  set (R2 := processApiData (processApiData M B dB eB true) A dA eA true).
  assert (wellFormed R1) as Hwf1 by (by do 2 apply processApiData_wellFormed).
  assert (wellFormed R2) as Hwf2 by (by do 2 apply processApiData_wellFormed).
  assert (forall k, attemptFields <$> findMessage R1 k
                    = attemptFields <$> findMessage R2 k) as Hlookup.
  { intros k. by apply two_merges_lookup. }
  assert (forall a, a ∈ allAttempts R1 -> a ∈ allAttempts M ++ A ++ B) as Hin1.
  { intros a (r & Hr & Ha)%elem_of_allAttempts. rewrite !elem_of_app.
    destruct HM as [Hnd _].
    destruct (processApiData_attempts_from _ B dB eB true r a
                (processApiData_distinct M A dA eA true Hnd) Hr Ha)
      as [(r' & Hr' & Ha')%elem_of_allAttempts|[? _]]; [|auto].
    destruct (processApiData_attempts_from _ A dA eA true r' a Hnd Hr' Ha')
      as [?|[? _]]; auto. }
  assert (forall c, c ∈ attemptFields <$> R1 <-> c ∈ attemptFields <$> R2) as Helem.
  { intros c. split.
    - apply attemptFields_elem; [apply Hwf1 | done].
    - apply attemptFields_elem; [apply Hwf2 | done]. }
  apply (sortedBy_unique (fun c => - af_newestAttempt c)).
  - intros x y Hx Hy%Helem Hkey.
    apply list_elem_of_fmap in Hx as (r & -> & Hr).
    apply list_elem_of_fmap in Hy as (r' & -> & Hr').
    f_equal. apply (newestAttempt_inj R1 (allAttempts M ++ A ++ B)); try done.
    simpl in Hkey. lia.
  - apply (StronglySorted_fmap _ (fun m m' => - newestAttempt m <= - newestAttempt m')).
    + done.
    + apply processApiData_sorted, processApiData_distinct, HM.
  - apply (StronglySorted_fmap _ (fun m m' => - newestAttempt m <= - newestAttempt m')).
    + done.
    + apply processApiData_sorted, processApiData_distinct, HM.
  - apply NoDup_Permutation; [apply attemptFields_NoDup, Hwf1
                             | apply attemptFields_NoDup, Hwf2 | done].
Qed.

Lemma lateDecodeState_wellFormed : wellFormed lateDecodeState.
Proof. rewrite <- lateDecodeState_reached. apply runCalls_wellFormed. Qed.

Lemma splitBatches_consistent :
  consistentAttempts (allAttempts lateDecodeState ++ splitBatchA ++ splitBatchB).
Proof.
  assert (allAttempts lateDecodeState ++ splitBatchA ++ splitBatchB
          = [ okAttempt; sampleAttempt "b1" "m2" "hook-a" 5000 false 200;
              sampleAttempt "c1" "m2" "hook-b" 6000 false 200 ]) as -> by done.
  intros x y Hx Hy H.
  rewrite !elem_of_cons in Hx, Hy.
  destruct Hx as [->|[->|[->|Hx]]]; [| | |by apply elem_of_nil in Hx];
  (destruct Hy as [->|[->|[->|Hy]]]; [| | |by apply elem_of_nil in Hy]);
  try done; destruct H as [H|H]; by vm_compute in H.
Qed.

Lemma splitBatches_disjoint : disjointById splitBatchA splitBatchB.
Proof.
  intros x y ->%list_elem_of_singleton ->%list_elem_of_singleton. done.
Qed.

(** The theorem on two batches for the same new message. *)
Lemma C2_disjoint_batches_commute_witness :
  attemptFields <$>
    processApiData
      (processApiData lateDecodeState splitBatchA splitDocumentIds [] true)
      splitBatchB ∅ splitErrors true
  = attemptFields <$>
    processApiData
      (processApiData lateDecodeState splitBatchB ∅ splitErrors true)
      splitBatchA splitDocumentIds [] true.
Proof.
  exact (C2_disjoint_batches_commute_on_attempt_fields
           lateDecodeState splitBatchA splitBatchB
           splitDocumentIds ∅ [] splitErrors
           lateDecodeState_wellFormed splitBatches_consistent
           splitBatches_disjoint).
Defined.

(** C2 as stated fails.  With ties in [createdAt] the order of the
    collection follows the order of the calls; and whatever the instants,
    a message first seen in one of two batches keeps the [documentId],
    [parsingError] and [hookId] of the call that created its aggregate. *)
Lemma C2_merge_order_observable :
  disjointById tieBatchA tieBatchB /\
  messageId <$> processApiData (processApiData lateDecodeState tieBatchA ∅ [] true)
                               tieBatchB ∅ [] true
  = ["m2"; "m3"; "m1"] /\
  messageId <$> processApiData (processApiData lateDecodeState tieBatchB ∅ [] true)
                               tieBatchA ∅ [] true
  = ["m3"; "m2"; "m1"] /\
  disjointById splitBatchA splitBatchB /\
  (fun m => (messageId m, documentId m, parsingError m, hookId m)) <$>
    processApiData
      (processApiData lateDecodeState splitBatchA splitDocumentIds [] true)
      splitBatchB ∅ splitErrors true
  = [ ("m2", Some "doc-2", None, "hook-a"); ("m1", None, None, "hook") ] /\
  (fun m => (messageId m, documentId m, parsingError m, hookId m)) <$>
    processApiData
      (processApiData lateDecodeState splitBatchB ∅ splitErrors true)
      splitBatchA splitDocumentIds [] true
  = [ ("m2", None, Some "Unexpected token", "hook-b"); ("m1", None, None, "hook") ] /\
  processApiData (processApiData lateDecodeState tieBatchA ∅ [] true)
                 tieBatchB ∅ [] true
  <> processApiData (processApiData lateDecodeState tieBatchB ∅ [] true)
                    tieBatchA ∅ [] true.
Proof.
  split_and!.
  - intros x y ->%list_elem_of_singleton ->%list_elem_of_singleton. done.
  - by vm_compute.
  - by vm_compute.
  - apply splitBatches_disjoint.
  - by vm_compute.
  - by vm_compute.
  - intros H. apply (f_equal (fmap messageId)) in H. vm_compute in H.
    discriminate H.
Qed.

(** ** Scenarios of the specification, run on the model *)

(** Three attempts of [m1], two successes and a failure with status 500. *)
Example scenario_batch1 :
  (fun r => (messageId <$> r, attemptCount <$> r,
             (fun m => Attempt.resultCode <$> latestFailure m) <$> r))
    (processApiData [] batch1 ∅ [] false)
  = (["m1"], [3%nat], [Some 500]).
Proof. by vm_compute. Qed.

(** Merging one more success of [m1] and a first attempt of [m2]. *)
Example scenario_batch2 :
  (fun r => (messageId <$> r, attemptCount <$> r, successRate <$> r))
    (processApiData (processApiData [] batch1 ∅ [] false) batch2 ∅ [] true)
  = (["m2"; "m1"], [1%nat; 4%nat], [100%float; 75%float]).
Proof. by vm_compute. Qed.

(** Merging [batch1] again changes nothing. *)
Example scenario_remerge :
  processApiData
    (processApiData (processApiData [] batch1 ∅ [] false) batch2 ∅ [] true)
    batch1 ∅ [] true
  = processApiData (processApiData [] batch1 ∅ [] false) batch2 ∅ [] true.
Proof. by vm_compute. Qed.

(** An attempt without a message id, or with the empty one, is in no
    aggregate. *)
Example scenario_unattributed :
  processApiData []
    [ Attempt.mk "x1" "p" false 1 10 10 None "hook" false None 200 None;
      Attempt.mk "x2" "p" false 1 20 20 (Some "") "hook" false None 200 None ]
    ∅ [] false
  = [].
Proof. by vm_compute. Qed.

(** ** Further properties of the aggregation engine *)

Lemma StronglySorted_weaken {A} (R1 R2 : relation A) (l : list A) :
  (forall x y, R1 x y -> R2 x y) -> StronglySorted R1 l -> StronglySorted R2 l.
Proof.
  intros HR Hl. rewrite <- (list_fmap_id l).
  by apply (StronglySorted_fmap id R1 R2).
Qed.

(** In every state of a session there is one aggregate per message id. *)
Theorem session_one_aggregate_per_message (calls : list Call) :
  NoDup (messageId <$> runCalls calls).
Proof. apply runCalls_distinct. Qed.

(** After every call the collection is sorted by [newestAttempt], newest
    first. *)
Theorem session_sorted_newest_first (calls : list Call) :
  StronglySorted (fun m m' => newestAttempt m' <= newestAttempt m)
                 (runCalls calls).
Proof.
  assert (sortedBy (fun m => - newestAttempt m) (runCalls calls)) as H.
  { destruct calls as [|c calls _] using rev_ind; [constructor|].
    rewrite runCalls_snoc. apply processApiData_sorted, runCalls_distinct. }
  eapply StronglySorted_weaken; [|exact H].
  intros m m' ?. simpl in *. lia.
Qed.

Lemma sorted_bounds (l : list Attempt.t) :
  sortedBy Attempt.createdAt l ->
  Forall (fun a => firstCreatedAt l <= Attempt.createdAt a <= lastCreatedAt l) l.
Proof.
  unfold sortedBy. induction 1 as [|x l Hl IH Hx]; [constructor|].
  unfold firstCreatedAt, lastCreatedAt in *. simpl head. simpl from_option at 1.
  destruct l as [|y l].
  { constructor; [simpl; lia | constructor]. }
  rewrite last_cons_cons.
  apply Forall_cons in Hx as Hxy. destruct Hxy as [Hxy _].
  constructor.
  - split; [simpl; lia|].
    apply Forall_cons in IH as [[Hy1 Hy2] _]. simpl in Hy1, Hxy. lia.
  - eapply Forall_impl; [exact IH|]. intros a [? ?]. simpl in *.
    split; [lia | done].
Qed.

Lemma processBatch_derived B d e p :
  p ∈ processBatch B d e -> derivedFromMembers p.
Proof.
  intros Hp. pose proof (processBatch_wellFormed B d e p Hp) as (_ & Hne & _).
  apply processBatch_elem in Hp as (k & g & Hg & ->).
  split_and!; try done.
  apply array_sort_sorted, byCreatedAt_key.
Qed.

Lemma mergeExisting_derived ids (P : list ProcessedMessage.t) s :
  derivedFromMembers s -> derivedFromMembers (mergeExisting ids P s).
Proof.
  intros Hs. unfold mergeExisting.
  destruct (findMessage P (messageId s)); [|done]. simpl.
  destruct (0 <? _)%nat; [|done].
  destruct Hs as (_ & Hne & _).
  split_and!; try done.
  - apply array_sort_sorted, byCreatedAt_key.
  - simpl. apply array_sort_nonempty. by destruct (attempts s).
Qed.

(** In every state of a session the members of every aggregate are sorted
    by [createdAt], [attemptCount] is their number, [successRate] and
    [latestFailure] are computed from them, and [oldestAttempt] and
    [newestAttempt] bound the [createdAt] of every member. *)
Theorem session_derived_fields (calls : list Call) :
  Forall (fun m =>
            StronglySorted
              (fun a b => Attempt.createdAt a <= Attempt.createdAt b)
              (attempts m) /\
            attemptCount m = length (attempts m) /\
            successRate m = successRateOf (attempts m) /\
            latestFailure m = latestFailureOf (attempts m) /\
            Forall (fun a => oldestAttempt m <= Attempt.createdAt a
                                             <= newestAttempt m)
                   (attempts m))
         (runCalls calls).
Proof.
  assert (Forall derivedFromMembers (runCalls calls)) as H.
  { apply (runCalls_Forall derivedFromMembers (fun _ => True)).
    - intros B d e p _. apply processBatch_derived.
    - intros M B d e s _ _ HM Hs. apply mergeExisting_derived.
      rewrite Forall_forall in HM. auto.
    - by apply Forall_forall. }
  eapply Forall_impl; [exact H|].
  intros m (Hsorted & _ & Hold & Hnew & Hcount & Hrate & Hfail).
  split_and!; try done.
  rewrite Hold, Hnew. by apply sorted_bounds.
Qed.

(** On a full load, an aggregate whose latest failure has status 413 has
    [largePayloadFailure] set. *)
Theorem full_load_sets_flag_on_413 (M : list ProcessedMessage.t) B d e :
  Forall (fun m => forall f,
            latestFailure m = Some f -> Attempt.resultCode f = 413 ->
            largePayloadFailure m = Some true)
         (processApiData M B d e false).
Proof.
  rewrite processApiData_full. apply Forall_forall. intros m Hm f Hf Hcode.
  rewrite (processBatch_flag B d e m Hm), Hf.
  by apply isLargePayloadFailure_413.
Qed.

(** An incremental merge leaves an aggregate whose message has no attempt
    in the batch as it was. *)
Theorem absent_message_preserved (M : list ProcessedMessage.t) B d e s :
  distinctMessageIds M -> s ∈ M ->
  (forall a, a ∈ B -> Attempt.messageId a ≠ Some (messageId s)) ->
  findMessage (processApiData M B d e true) (messageId s) = Some s.
Proof.
  intros Hnd Hs Habsent.
  rewrite processApiData_lookup, findMessage_NoDup by done.
  replace (groupOf (messageId s) B) with (@None (list Attempt.t)); [done|].
  symmetry. unfold groupOf, attemptsOf. case_decide; [done|].
  rewrite (filter_none _ B); [done|]. intros a Ha. by apply Habsent.
Qed.

(** The theorem on a batch for another message. *)
Lemma absent_message_preserved_witness :
  findMessage (processApiData lateDecodeState tieBatchA ∅ [] true)
              (messageId okAggregate)
  = Some okAggregate.
Proof.
  apply (absent_message_preserved lateDecodeState tieBatchA ∅ [] okAggregate).
  - compute_done.
  - left.
  - intros a ->%list_elem_of_singleton. done.
Defined.

(** A message seen for the first time gets the aggregate a full load would
    derive for it. *)
Theorem new_message_inserted (M : list ProcessedMessage.t) B d e a k :
  distinctMessageIds M -> k ∉ messageId <$> M ->
  a ∈ B -> Attempt.messageId a = Some k -> k ≠ "" ->
  findMessage (processApiData M B d e true) k
  = findMessage (processApiData [] B d e false) k
  /\ exists r, findMessage (processApiData M B d e true) k = Some r
              /\ a ∈ attempts r.
Proof.
  intros Hnd Hk Ha Hmid Hne.
  destruct (groupOf_elem k B a Ha Hmid Hne) as [Hg Hag].
  rewrite processApiData_lookup, processApiData_full by done.
  apply findMessage_None in Hk. rewrite Hk, Hg.
  rewrite (findMessage_processBatch B d e k _ Hg). split; [done|].
  eexists. split; [done|].
  rewrite deriveMessage_attempts. by apply (array_sort_elem _).
Qed.

(** The theorem on the first attempt of [m2]. *)
Lemma new_message_inserted_witness :
  exists r, findMessage (processApiData lateDecodeState tieBatchA ∅ [] true) "m2"
            = Some r
            /\ sampleAttempt "b1" "m2" "hook" 5000 false 200 ∈ attempts r.
Proof.
  apply (new_message_inserted lateDecodeState tieBatchA ∅ []
           (sampleAttempt "b1" "m2" "hook" 5000 false 200) "m2").
  - compute_done.
  - compute_done.
  - left.
  - done.
  - done.
Defined.

(** ** The attempts route: time window, order and upstream failures *)

Lemma attemptsPage_delivered fetch ws we rq :
  Route.attemptsPage fetch ws we rq
  = filter (fun a => Route.inWindow ws we (Attempt.createdAt a) = true)
           (delivered fetch rq).
Proof. unfold Route.attemptsPage, delivered. by destruct (fetch rq). Qed.

Lemma concat_filter_fmap {A B} (P : A -> Prop) `{!forall x, Decision (P x)}
    (f : B -> list A) (l : list B) :
  concat ((fun x => filter P (f x)) <$> l) = filter P (concat (f <$> l)).
Proof.
  induction l as [|x l IH]; csimpl; [done|].
  by rewrite filter_app, IH.
Qed.

Lemma byCreatedAtDesc_key x y :
  (Route.byCreatedAtDesc x y <? 0) = (- Attempt.createdAt x <? - Attempt.createdAt y).
Proof.
  unfold Route.byCreatedAtDesc.
  destruct (Z.ltb_spec (Attempt.createdAt y - Attempt.createdAt x) 0),
           (Z.ltb_spec (- Attempt.createdAt x) (- Attempt.createdAt y)); lia.
Qed.

(** The shape of a successful answer of the attempts route. *)
Lemma GET_attempts_answer parseDate now token
    hoursEarlier fetch request body issued :
  Route.GET_attempts parseDate now token hoursEarlier fetch request
    = (Route.JsonOk body, issued) ->
  exists ws we,
    Route.timeWindowOf parseDate now hoursEarlier (Route.before request) 24 12
      = (Some ws, Some we) /\
    Route.start (Route.ab_timeWindow body) = ws /\
    Route.end_ (Route.ab_timeWindow body) = we /\
    Route.ab_attempts body
      = array_sort Route.byCreatedAtDesc
          (filter (fun a => Route.inWindow (Some ws) (Some we)
                                           (Attempt.createdAt a) = true)
                  (concat (delivered fetch <$> issued))) /\
    Route.totalFetched (Route.pagination body) = length (Route.ab_attempts body).
Proof.
  unfold Route.GET_attempts.
  destruct (negb (Route.truthy (Route.projectId request))
            || negb (Route.truthy (Route.webhookId request))); [done|].
  destruct (Route.timeWindowOf parseDate now
      hoursEarlier (Route.before request) 24 12)
    as [timeWindowStart timeWindowEnd].
  destruct (negb (Route.truthy (Route.trim <$> token))); [done|].
  unfold Route.timeWindowBody.
  destruct timeWindowStart as [ws|]; [|done].
  destruct timeWindowEnd as [we|]; [|done].
  cbn [Route.toISOString].
  match goal with
  | |- context [Route.attemptsPage _ _ _ <$> ?r] => generalize r
  end.
  intros requests [= <- <-]. exists ws, we.
  cbn [Route.ab_attempts Route.ab_timeWindow Route.start Route.end_
       Route.pagination Route.totalFetched].
  split_and!; try reflexivity.
  f_equal. rewrite <- concat_filter_fmap. f_equal.
  apply list_fmap_ext. intros i rq _.
  apply attemptsPage_delivered.
Qed.

Lemma inWindow_spec ws we d :
  Route.inWindow (Some ws) (Some we) d = true <-> ws <= d <= we.
Proof. unfold Route.inWindow. rewrite andb_true_iff, !Z.leb_le. done. Qed.

Lemma timeWindowOf_bounds parseDate now hoursEarlier before w r ws we :
  Route.timeWindowOf parseDate now
      hoursEarlier before w r = (Some ws, Some we) ->
  if Route.truthy before
  then parseDate (default "" before) = Some we /\ ws = hoursEarlier we w
  else we = now /\ ws = hoursEarlier now r.
Proof.
  unfold Route.timeWindowOf. destruct (Route.truthy before).
  - destruct (parseDate (default "" before)) as [t|]; [|done]. simpl.
    intros [= <- <-]. done.
  - simpl. intros [= <- <-]. done.
Qed.

(** Every attempt the route returns was created inside the time window the
    answer reports.  That window ends at [before] when the parameter is
    given and now otherwise, and starts where [setHours(getHours() - 24)],
    respectively [setHours(getHours() - 12)], puts its end: 24 or 12 hours
    earlier on the local clock, whatever that is in elapsed time. *)
Theorem GET_attempts_within_reported_window
    parseDate now token hoursEarlier fetch request body issued :
  Route.GET_attempts parseDate now token hoursEarlier fetch request
    = (Route.JsonOk body, issued) ->
  Forall (fun a => Route.start (Route.ab_timeWindow body)
                   <= Attempt.createdAt a
                   <= Route.end_ (Route.ab_timeWindow body))
         (Route.ab_attempts body)
  /\ (if Route.truthy (Route.before request)
      then parseDate (default "" (Route.before request))
             = Some (Route.end_ (Route.ab_timeWindow body))
           /\ Route.start (Route.ab_timeWindow body)
              = hoursEarlier (Route.end_ (Route.ab_timeWindow body)) 24
      else Route.end_ (Route.ab_timeWindow body) = now
           /\ Route.start (Route.ab_timeWindow body) = hoursEarlier now 12).
Proof.
  intros (ws & we & Hw & -> & -> & -> & _)%GET_attempts_answer. split.
  - apply Forall_forall. intros a.
    rewrite (array_sort_elem _), list_elem_of_filter, inWindow_spec. tauto.
  - apply timeWindowOf_bounds in Hw. exact Hw.
Qed.

(** The attempts of an answer are sorted newest first and are, with
    multiplicity, the records created inside the window that the issued
    requests delivered; a failed request delivers none. *)
Theorem GET_attempts_sorted_and_complete
    parseDate now token hoursEarlier fetch request body issued :
  Route.GET_attempts parseDate now token hoursEarlier fetch request
    = (Route.JsonOk body, issued) ->
  StronglySorted (fun a b => Attempt.createdAt b <= Attempt.createdAt a)
                 (Route.ab_attempts body)
  /\ Route.ab_attempts body
     ≡ₚ filter (fun a => Route.start (Route.ab_timeWindow body)
                         <= Attempt.createdAt a
                         <= Route.end_ (Route.ab_timeWindow body))
               (concat (delivered fetch <$> issued))
  /\ Route.totalFetched (Route.pagination body)
     = length (Route.ab_attempts body).
Proof.
  intros (ws & we & _ & -> & -> & Hatt & Hlen)%GET_attempts_answer.
  split_and!; [| |done].
  - rewrite Hatt.
    eapply StronglySorted_weaken;
      [|apply (array_sort_sorted _ _ byCreatedAtDesc_key)].
    intros a b ?. simpl in *. lia.
  - rewrite Hatt, (array_sort_Permutation _).
    erewrite list_filter_iff; [done|]. intros a. apply inWindow_spec.
Qed.

Lemma num_min_le a l : Route.num_min a (Some 50) = Some l -> l <= 50.
Proof. destruct a as [x|]; simpl; [|done]. intros [= <-]. lia. Qed.

(** Whatever the query parameters and whatever the answer, the route
    issues at most five upstream requests and none of them asks for more
    than 50 records. *)
Theorem GET_attempts_request_bounds parseDate now token
    hoursEarlier fetch request :
  (length (Route.GET_attempts parseDate now token
      hoursEarlier fetch request).2 <= 5)%nat /\
  Forall (fun rq => forall l, Route.limitQuery rq = Some l -> l <= 50)
         (Route.GET_attempts parseDate now token hoursEarlier fetch request).2.
Proof.
  unfold Route.GET_attempts.
  destruct (negb (Route.truthy (Route.projectId request))
            || negb (Route.truthy (Route.webhookId request)));
    [split; [simpl; lia | constructor]|].
  destruct (Route.timeWindowOf parseDate now
      hoursEarlier (Route.before request) 24 12)
    as [timeWindowStart timeWindowEnd].
  destruct (negb (Route.truthy (Route.trim <$> token)));
    [split; [simpl; lia | constructor]|].
  set (limit := if Route.truthy (Route.limit request) then _ else _).
  assert (forall l, limit = Some l -> l <= 50) as Hlimit.
  { subst limit. destruct (Route.truthy (Route.limit request)).
    - intros l. apply num_min_le.
    - intros l [= <-]. lia. }
  match goal with
  | |- context [Route.attemptsPage _ _ _ <$> ?r] => set (requests := r)
  end.
  assert ((length requests <= 5)%nat /\
          Forall (fun rq => forall l, Route.limitQuery rq = Some l -> l <= 50)
                 requests) as Hrequests.
  { subst requests. split.
    - unfold Route.arrayFrom. by rewrite !length_fmap, length_seq.
    - apply Forall_fmap, Forall_forall. intros o _. exact Hlimit. }
  clearbody requests.
  by destruct (Route.timeWindowBody _ _ _).
Qed.






(** The theorem on an upstream with a recent and a stale record. *)
Lemma GET_attempts_within_reported_window_witness :
  exists body issued,
    Route.GET_attempts noDate 100000000 (Some "token")
        utcHoursEarlier pagedUpstream sampleRequest
      = (Route.JsonOk body, issued) /\
    Route.ab_attempts body = [recentAttempt] /\
    Forall (fun a => Route.start (Route.ab_timeWindow body)
                     <= Attempt.createdAt a
                     <= Route.end_ (Route.ab_timeWindow body))
           (Route.ab_attempts body).
Proof.
  destruct (Route.GET_attempts noDate 100000000 (Some "token")
      utcHoursEarlier pagedUpstream
              sampleRequest) as [[status err|body] issued] eqn:E.
  { vm_compute in E. discriminate E. }
  exists body, issued. split; [done|]. split.
  - vm_compute in E. by injection E as <- _.
  - exact (proj1 (GET_attempts_within_reported_window _ _ _ _ _ _ _ _ E)).
Defined.

(** The theorem on the same upstream. *)
Lemma GET_attempts_sorted_and_complete_witness :
  exists body issued,
    Route.GET_attempts noDate 100000000 (Some "token")
        utcHoursEarlier pagedUpstream sampleRequest
      = (Route.JsonOk body, issued) /\
    Route.totalFetched (Route.pagination body)
    = length (Route.ab_attempts body).
Proof.
  destruct (Route.GET_attempts noDate 100000000 (Some "token")
      utcHoursEarlier pagedUpstream
              sampleRequest) as [[status err|body] issued] eqn:E.
  { vm_compute in E. discriminate E. }
  exists body, issued. split; [done|].
  exact (proj2 (proj2 (GET_attempts_sorted_and_complete _ _ _ _ _ _ _ _ E))).
Defined.



(** ** The messages route: where the identifiers come from *)

Lemma messagesPage_delivered fetch ws we rq :
  Route.messagesPage fetch ws we rq
  = filter (fun m => Route.inWindow ws we (Route.wm_createdAt m) = true)
           (delivered fetch rq).
Proof. unfold Route.messagesPage, delivered. by destruct (fetch rq). Qed.

(** The shape of a successful answer of the messages route. *)
Lemma GET_messages_answer parseDate now token
    hoursEarlier JSON_parse earlier fetch request
    body issued :
  Route.GET_messages parseDate now token
      hoursEarlier JSON_parse earlier fetch request
    = (Route.JsonOk body, issued) ->
  exists ws we allMessages,
    Route.timeWindowOf parseDate now hoursEarlier (Route.before request) 12 6
      = (Some ws, Some we) /\
    Route.start (Route.mb_timeWindow body) = ws /\
    Route.end_ (Route.mb_timeWindow body) = we /\
    allMessages
      = array_sort Route.messagesByCreatedAtDesc
          (filter (fun m => Route.inWindow (Some ws) (Some we)
                                           (Route.wm_createdAt m) = true)
                  (concat (delivered fetch <$> issued))) /\
    (Route.mb_documentIds body, Route.messagesWithErrors body)
      = (if earlier then Route.decodeMessagesSnippet JSON_parse allMessages
         else Route.decodeMessages JSON_parse allMessages) /\
    length issued = 3%nat.
Proof.
  unfold Route.GET_messages.
  destruct (negb (Route.truthy (Route.projectId request))
            || negb (Route.truthy (Route.webhookId request))); [done|].
  destruct (negb (Route.truthy (Route.trim <$> token))); [done|].
  destruct (Route.timeWindowOf parseDate now
      hoursEarlier (Route.before request) 12 6)
    as [timeWindowStart timeWindowEnd].
  destruct (if earlier && Route.truthy (Route.before request) then _ else _);
    [done|].
  unfold Route.timeWindowBody.
  match goal with
  | |- context [Route.messagesPage _ _ _ <$> ?r] =>
      assert (length r = 3%nat) as Hlen
        by (unfold Route.arrayFrom; by rewrite !length_fmap, length_seq);
      revert Hlen; generalize r
  end.
  intros requests Hlen.
  assert (Route.messagesPage fetch timeWindowStart timeWindowEnd <$> requests
          = (fun rq => filter (fun m => Route.inWindow timeWindowStart timeWindowEnd
                                          (Route.wm_createdAt m) = true)
                              (delivered fetch rq)) <$> requests) as ->.
  { apply list_fmap_ext. intros i rq _. apply messagesPage_delivered. }
  rewrite concat_filter_fmap.
  destruct (if earlier then _ else _) as [d e] eqn:Hdecode.
  destruct timeWindowStart as [ws|]; [|done].
  destruct timeWindowEnd as [we|]; [|done].
  cbn [Route.toISOString].
  intros [= <- <-]. exists ws, we. eexists. 
  cbn [Route.mb_documentIds Route.messagesWithErrors Route.mb_timeWindow
       Route.start Route.end_].
  split_and!; try reflexivity; try done.
Qed.

Lemma decoded_id_known JSON_parse earlier msgs k :
  is_Some ((if earlier : bool then Route.decodeMessagesSnippet JSON_parse msgs
            else Route.decodeMessages JSON_parse msgs).1 !! k)
  \/ k ∈ MessageWithError.id
         <$> (if earlier then Route.decodeMessagesSnippet JSON_parse msgs
              else Route.decodeMessages JSON_parse msgs).2 ->
  k ∈ Route.wm_id <$> msgs.
Proof.
  intros Hk. destruct (decide (k ∈ Route.wm_id <$> msgs)) as [|Hfresh]; [done|].
  exfalso.
  assert (exists record,
            (forall m e, MessageWithError.id (record m e) = Route.wm_id m) /\
            (if earlier then Route.decodeMessagesSnippet JSON_parse msgs
             else Route.decodeMessages JSON_parse msgs)
            = foldl (decodeStepWith JSON_parse record) (∅, []) msgs)
    as (record & Hid & Heq).
  { destruct earlier.
    - exists errorRecordSnippet. split; [done|]. apply decodeMessagesSnippet_with.
    - exists errorRecord. split; [done|]. apply decodeMessages_with. }
  rewrite Heq in Hk.
  destruct (decodeWith_absent JSON_parse record Hid msgs k Hfresh) as [Hd He].
  destruct Hk as [Hk|Hk].
  - rewrite Hd in Hk. by destruct Hk.
  - apply list_elem_of_fmap in Hk as (x & -> & Hx). by apply (He x).
Qed.

(** Every message id under which the messages route reports a document
    identifier or a decoding error is the id of a message that one of the
    three issued requests delivered and that was created inside the
    reported window.  That window ends at [before] when the parameter is
    given and now otherwise, and starts where [setHours(getHours() - 12)],
    respectively [setHours(getHours() - 6)], puts its end. *)
Theorem GET_messages_ids_delivered_in_window
    parseDate now token
        hoursEarlier JSON_parse earlier fetch request body issued :
  Route.GET_messages parseDate now token
      hoursEarlier JSON_parse earlier fetch request
    = (Route.JsonOk body, issued) ->
  (forall k,
     is_Some (Route.mb_documentIds body !! k)
     \/ k ∈ MessageWithError.id <$> Route.messagesWithErrors body ->
     exists m, m ∈ concat (delivered fetch <$> issued) /\
               Route.wm_id m = k /\
               Route.start (Route.mb_timeWindow body)
               <= Route.wm_createdAt m
               <= Route.end_ (Route.mb_timeWindow body))
  /\ (if Route.truthy (Route.before request)
      then parseDate (default "" (Route.before request))
             = Some (Route.end_ (Route.mb_timeWindow body))
           /\ Route.start (Route.mb_timeWindow body)
              = hoursEarlier (Route.end_ (Route.mb_timeWindow body)) 12
      else Route.end_ (Route.mb_timeWindow body) = now
           /\ Route.start (Route.mb_timeWindow body) = hoursEarlier now 6)
  /\ length issued = 3%nat.
Proof.
  intros (ws & we & msgs & Hw & -> & -> & Hmsgs & Hdecode & Hlen)%GET_messages_answer.
  split_and!; [| |done].
  - intros k Hk.
    assert (k ∈ Route.wm_id <$> msgs) as Hin.
    { apply (decoded_id_known JSON_parse earlier). rewrite <- Hdecode. exact Hk. }
    apply list_elem_of_fmap in Hin as (m & -> & Hm). exists m.
    rewrite Hmsgs, (array_sort_elem _), list_elem_of_filter, inWindow_spec in Hm.
    tauto.
  - apply timeWindowOf_bounds in Hw. exact Hw.
Qed.


(** The theorem on an upstream with a recent and a stale message. *)
Lemma GET_messages_ids_delivered_in_window_witness :
  exists body issued,
    Route.GET_messages noDate 100000000 (Some "token")
        utcHoursEarlier sampleParse false
                       messagesUpstream sampleRequest
      = (Route.JsonOk body, issued) /\
    Route.mb_documentIds body !! "msg-5" = Some (Route.JString "doc-1") /\
    Route.messagesWithErrors body = [] /\
    length issued = 3%nat.
Proof.
  destruct (Route.GET_messages noDate 100000000 (Some "token")
      utcHoursEarlier sampleParse false
              messagesUpstream sampleRequest) as [[status err|body] issued] eqn:E.
  { vm_compute in E. discriminate E. }
  exists body, issued. split; [done|].
  destruct (GET_messages_ids_delivered_in_window _ _ _ _ _ _ _ _ _ _ E)
    as (_ & _ & Hlen).
  split_and!; [| |exact Hlen]; vm_compute in E; by injection E as <- _.
Defined.

(** ** The sequential handlers: termination, bounds and stop conditions *)

Lemma filter_length_all {A} (P : A -> Prop) `{!forall x, Decision (P x)} (l : list A) :
  length (filter P l) = length l <-> Forall P l.
Proof.
  induction l as [|x l IH]; [by split; [constructor|]|].
  rewrite filter_cons. pose proof (length_filter P l) as Hle.
  destruct (decide (P x)) as [HP|HP]; simpl.
  - rewrite Forall_cons. split.
    + intros [= Hlen]. by split; [|apply IH].
    + intros [_ Hall]. f_equal. by apply IH.
  - split; [lia|]. by intros [? _]%Forall_cons.
Qed.

Section sequential_loop.
Context {A : Type} (createdAt : A -> Z).
Variable JSON_parse : string -> string + Route.JsValue.
Variable JSON_stringify : Route.JsValue -> string.
Variable fetchFailed bodyUnusable : string.
Variable fetch : Route.UpstreamRequest -> Route.FetchResult A.
Variable baseUrl token : string.
Variable threshold : Z.

Local Notation "'LOOP'" :=
  (Sequential.fetchPages JSON_parse JSON_stringify fetchFailed bodyUnusable
                         createdAt fetch baseUrl token threshold).
Local Notation "'THROWN'" :=
  (thrownOn fetchFailed
            (Sequential.notOkError JSON_parse JSON_stringify bodyUnusable)).
Local Notation "'RQ'" := (pageRequest baseUrl token).
Local Notation "'RECENT'" := (fun x => threshold <= createdAt x).

Lemma fetchPages_done fuel offset all issued :
  LOOP fuel false offset all issued = Some (inr all, issued).
Proof. by destruct fuel. Qed.

Lemma fetchPages_past fuel hasMoreData offset all issued :
  1000 <= offset ->
  LOOP fuel hasMoreData offset all issued = Some (inr all, issued).
Proof.
  intros Ho. destruct fuel; simpl; unfold Sequential.MAX_OFFSET;
    destruct (Z.ltb_spec offset 1000); try lia; by rewrite andb_false_r.
Qed.

(** The loop from page [k] on: it ends, having asked for the pages
    [k .. k + n - 1] in turn, where page [k + n - 1] is the first that
    fails, is not full, holds an old record or is page 19. *)
Lemma fetchPages_run fuel k all issued :
  (20 <= fuel + k)%nat ->
  exists r n,
    LOOP fuel true (50 * Z.of_nat k) all issued
      = Some (r, issued ++ (RQ <$> seq k n)) /\
    (k + n <= Nat.max k 20)%nat /\
    ((k < 20)%nat -> (0 < n)%nat) /\
    (forall i, (i < n)%nat ->
       (S i < n)%nat <->
       fullAndRecent createdAt threshold (fetch (RQ (k + i)%nat))
       /\ (S (k + i) < 20)%nat) /\
    match r with
    | inr msgs =>
        msgs = all ++ filter RECENT (concat (delivered fetch <$> (RQ <$> seq k n)))
        /\ forall i, (i < n)%nat -> THROWN (fetch (RQ (k + i)%nat)) = None
    | inl e =>
        (0 < n)%nat /\
        THROWN (fetch (RQ (k + n - 1)%nat)) = Some e
    end.
Proof.
  revert k all issued. induction fuel as [|fuel IH]; intros k all issued Hfuel.
  { exists (inr all), 0%nat. rewrite fetchPages_past by lia.
    simpl. rewrite app_nil_r. split_and!; try done; try lia.
    by rewrite filter_nil, app_nil_r. }
  destruct (decide (20 <= k)%nat) as [Hk|Hk].
  { exists (inr all), 0%nat. rewrite fetchPages_past by lia.
    simpl. rewrite app_nil_r. split_and!; try done; try lia.
    by rewrite filter_nil, app_nil_r. }
  assert (forall r : string + list A,
            match r with
            | inr msgs =>
                msgs = all ++ filter RECENT (concat (delivered fetch <$> (RQ <$> seq k 1)))
                /\ forall i, (i < 1)%nat -> THROWN (fetch (RQ (k + i)%nat)) = None
            | inl e =>
                (0 < 1)%nat /\
                THROWN (fetch (RQ (k + 1 - 1)%nat)) = Some e
            end ->
            ~ (fullAndRecent createdAt threshold (fetch (RQ k))
               /\ (S k < 20)%nat) ->
            exists r' n,
              Some (r, issued ++ [RQ k]) = Some (r', issued ++ (RQ <$> seq k n)) /\
              (k + n <= Nat.max k 20)%nat /\
              ((k < 20)%nat -> (0 < n)%nat) /\
              (forall i, (i < n)%nat ->
                 (S i < n)%nat <->
                 fullAndRecent createdAt threshold (fetch (RQ (k + i)%nat))
                 /\ (S (k + i) < 20)%nat) /\
              match r' with
              | inr msgs =>
                  msgs = all ++ filter RECENT (concat (delivered fetch <$> (RQ <$> seq k n)))
                  /\ forall i, (i < n)%nat -> THROWN (fetch (RQ (k + i)%nat)) = None
              | inl e =>
                  (0 < n)%nat /\
                  THROWN (fetch (RQ (k + n - 1)%nat)) = Some e
              end) as Hone.
  { intros r Hr Hstop. exists r, 1%nat. split_and!; try done; try lia.
    intros i Hi. assert (i = 0%nat) as -> by lia. rewrite Nat.add_0_r.
    split; [intros ?; lia | intros H; by destruct Hstop]. }
  replace (k + 1 - 1)%nat with k in Hone by lia.
  simpl. unfold Sequential.MAX_OFFSET, Sequential.limit.
  destruct (Z.ltb_spec (50 * Z.of_nat k) 1000) as [_|?]; [|lia].
  fold (RQ k).
  destruct (fetch (RQ k)) as [|status errorText|data] eqn:E.
  - apply Hone; [split; [lia | done] | simpl; tauto].
  - apply Hone; [split; [lia | done] | simpl; tauto].
  - assert (forall i, (i < 1)%nat ->
              THROWN (fetch (RQ (k + i)%nat)) = None) as Hok.
    { intros i Hi. assert (i = 0%nat) as -> by lia.
      by rewrite Nat.add_0_r, ?E. }
    assert (concat (delivered fetch <$> (RQ <$> seq k 1)) = data) as Hdata.
    { simpl. unfold delivered. by rewrite E, app_nil_r. }
    assert (fullAndRecent createdAt threshold (Route.HttpOk data)
            <-> (50 <= length data)%nat
                /\ length (filter RECENT data) = length data) as Hfull.
    { simpl. by rewrite (filter_length_all RECENT data). }
    pose proof (length_filter RECENT data) as Hle.
    destruct (Nat.eqb_spec (length data) 0) as [Hempty|Hne].
    { rewrite fetchPages_done. apply Hone; [|rewrite Hfull; lia].
      split; [|done]. rewrite Hdata.
      destruct data; [|done]. by rewrite filter_nil, app_nil_r. }
    destruct (Nat.ltb_spec (length (filter RECENT data)) (length data)) as [Hold|Hall].
    { rewrite fetchPages_done. apply Hone; [by rewrite Hdata|].
      rewrite Hfull. lia. }
    destruct (Z.ltb_spec (Z.of_nat (length data)) 50) as [Hshort|Hlong].
    { rewrite fetchPages_done. apply Hone; [by rewrite Hdata|].
      rewrite Hfull. lia. }
    destruct (Z.leb_spec 1000 (50 * Z.of_nat k + 50)) as [Hmax|Hnext].
    { rewrite fetchPages_done. apply Hone; [by rewrite Hdata|]. lia. }
    replace (50 * Z.of_nat k + 50) with (50 * Z.of_nat (S k)) by lia.
    destruct (IH (S k) (all ++ filter RECENT data) (issued ++ [RQ k]))
      as (r & n & -> & Hn & Hpos & Hcont & Hr); [lia|].
    exists r, (S n). rewrite <- app_assoc. split_and!; try done; try lia.
    + intros i Hi. destruct i as [|i].
      * rewrite Nat.add_0_r, E, Hfull. lia.
      * replace (k + S i)%nat with (S k + i)%nat by lia.
        rewrite <- (Hcont i) by lia. lia.
    + destruct r as [e|msgs].
      * destruct Hr as [Hn0 Hr]. split; [lia|].
        by replace (k + S n - 1)%nat with (S k + n - 1)%nat by lia.
      * destruct Hr as [-> Hr]. split.
        -- rewrite <- app_assoc. f_equal. csimpl. unfold delivered at 2.
           rewrite E. by rewrite filter_app.
        -- intros i Hi. destruct i as [|i]; [apply (Hok 0%nat); lia|].
           replace (k + S i)%nat with (S k + i)%nat by lia. apply Hr. lia.
Qed.

End sequential_loop.

Lemma apiErrorMessage_nonempty status errorText :
  Sequential.apiErrorMessage status errorText <> "".
Proof. done. Qed.

(** The handler in terms of the pages it asks for: either it answers
    without a request, or it runs the loop from page 0. *)
Lemma sequential_messages_run now hoursEarlier token JSON_parse JSON_stringify
    fetchFailed bodyUnusable fetch request :
  (exists status e,
     Sequential.GET_messages now hoursEarlier token JSON_parse JSON_stringify
      fetchFailed bodyUnusable fetch request
     = Some (Route.JsonError status e, []))
  \/
  exists baseUrl bearer r n,
    let RQ := pageRequest baseUrl bearer in
    let threshold := hoursEarlier now 24 in
    Sequential.GET_messages now hoursEarlier token JSON_parse JSON_stringify
      fetchFailed bodyUnusable fetch request
    = Some (match r with
            | inl e =>
                Route.JsonError 500
                  (Sequential.messageOr e "Failed to fetch webhook messages")
            | inr allMessages =>
                Route.JsonOk
                  {| Sequential.documentIds :=
                       (Route.decodeMessagesSnippet JSON_parse allMessages).1;
                     Sequential.messagesWithErrors :=
                       (Route.decodeMessagesSnippet JSON_parse allMessages).2;
                     Sequential.timestamp := now |}
            end, RQ <$> seq 0 n) /\
    (n <= 20)%nat /\ (0 < n)%nat /\
    (forall i, (i < n)%nat ->
       (S i < n)%nat <->
       fullAndRecent Route.wm_createdAt threshold (fetch (RQ i))
       /\ (S i < 20)%nat) /\
    match r with
    | inr msgs =>
        msgs = filter (fun m => threshold <= Route.wm_createdAt m)
                      (concat (delivered fetch <$> (RQ <$> seq 0 n)))
        /\ forall i, (i < n)%nat -> thrownOn fetchFailed
          (Sequential.notOkError JSON_parse JSON_stringify bodyUnusable)
          (fetch (RQ i)) = None
    | inl e => thrownOn fetchFailed
          (Sequential.notOkError JSON_parse JSON_stringify bodyUnusable)
          (fetch (RQ (n - 1)%nat)) = Some e
    end.
Proof.
  unfold Sequential.GET_messages.
  destruct (negb (Route.truthy (Route.projectId request))
            || negb (Route.truthy (Route.webhookId request)));
    [left; by eexists _, _|].
  destruct (negb (Route.truthy (Route.trim <$> token)));
    [left; by eexists _, _|].
  right.
  match goal with
  | |- context [Sequential.fetchPages _ _ _ _ _ _ ?b ?t _ _ _ _ _ _] =>
      exists b, t;
      destruct (fetchPages_run Route.wm_createdAt JSON_parse JSON_stringify
                  fetchFailed bodyUnusable fetch b t
                  (hoursEarlier now 24) 20 0 [] [])
        as (r & n & Hrun & Hn & Hpos & Hcont & Hr); [lia|]
  end.
  exists r, n. change (50 * Z.of_nat 0) with 0 in Hrun.
  change (Z.to_nat (Sequential.MAX_OFFSET / Sequential.limit)) with 20%nat.
  rewrite Hrun. simpl in Hn |- *.
  split_and!; try done; try lia.
  - destruct r as [e|msgs]; [done|].
    by destruct (Route.decodeMessagesSnippet JSON_parse msgs).
  - destruct r as [e|msgs]; [|done]. destruct Hr as [_ Hr]. exact Hr.
Qed.

Lemma pageRequests_lookup baseUrl bearer n i rq :
  (pageRequest baseUrl bearer <$> seq 0 n) !! i = Some rq ->
  (i < n)%nat /\ rq = pageRequest baseUrl bearer i.
Proof.
  rewrite list_lookup_fmap. intros H.
  apply fmap_Some in H as (j & Hj & ->).
  apply lookup_seq in Hj as [-> ?]. done.
Qed.

(** The sequential messages handler always answers, after at most 20
    upstream requests; request [i] asks for 50 records from offset [50 i],
    so no offset reaches [MAX_OFFSET]. *)
Lemma sequential_messages_returns now hoursEarlier token JSON_parse
    JSON_stringify fetchFailed bodyUnusable fetch request :
  exists response issued,
    Sequential.GET_messages now hoursEarlier token JSON_parse JSON_stringify
      fetchFailed bodyUnusable fetch request
      = Some (response, issued) /\
    (length issued <= 20)%nat /\
    forall i rq, issued !! i = Some rq ->
      Route.limitQuery rq = Some 50 /\
      Route.offsetQuery rq = Some (50 * Z.of_nat i) /\
      50 * Z.of_nat i < Sequential.MAX_OFFSET.
Proof.
  destruct (sequential_messages_run now
      hoursEarlier token JSON_parse JSON_stringify
              fetchFailed bodyUnusable fetch request)
    as [(status & e & ->)|(baseUrl & bearer & r & n & -> & Hn & _)].
  - eexists _, _. split; [done|]. split; [simpl; lia|]. intros i rq Hi.
    by rewrite lookup_nil in Hi.
  - eexists _, _. split; [done|]. split.
    + by rewrite length_fmap, length_seq.
    + intros i rq [Hi ->]%pageRequests_lookup. unfold Sequential.MAX_OFFSET.
      simpl. split_and!; try done. lia.
Qed.

(** The handler is all-or-nothing: an answer with data decodes, in the
    order of delivery, every message the issued requests delivered that is
    not older than the cutoff [setHours(getHours() - 24)] gives, and each
    of those requests succeeded; a request that is answered with an error
    status is the last one issued and turns the whole answer into status
    500, whatever the earlier pages held.  The message of that answer
    carries the upstream status and the re-serialised body when the body
    of the failed answer is JSON; when it is not, the second read of the
    body rejects and the message is that of this rejection, without the
    status; for an answer without a body the message is the status
    alone. *)
Theorem sequential_messages_all_or_nothing
    now hoursEarlier token JSON_parse JSON_stringify fetchFailed bodyUnusable
    fetch request response issued :
  Sequential.GET_messages now hoursEarlier token JSON_parse JSON_stringify
      fetchFailed bodyUnusable fetch request
    = Some (response, issued) ->
  (forall body, response = Route.JsonOk body ->
     (forall rq, rq ∈ issued -> exists data, fetch rq = Route.HttpOk data) /\
     (Sequential.documentIds body, Sequential.messagesWithErrors body)
     = Route.decodeMessagesSnippet JSON_parse
         (filter (fun m => hoursEarlier now 24 <= Route.wm_createdAt m)
                 (concat (delivered fetch <$> issued))))
  /\
  (forall rq status body,
     rq ∈ issued -> fetch rq = Route.HttpError status body ->
     last issued = Some rq /\
     (forall errorData, JSON_parse (default "" body) = inr errorData ->
        response
        = Route.JsonError 500
            (Sequential.apiErrorMessage status (JSON_stringify errorData))) /\
     (forall text e, body = Some text -> JSON_parse text = inl e ->
        response
        = Route.JsonError 500
            (Sequential.messageOr bodyUnusable
                                  "Failed to fetch webhook messages")) /\
     (forall e, body = None -> JSON_parse "" = inl e ->
        response
        = Route.JsonError 500 (Sequential.apiErrorMessage status ""))).
Proof.
  destruct (sequential_messages_run now
      hoursEarlier token JSON_parse JSON_stringify
              fetchFailed bodyUnusable fetch request)
    as [(status & e & ->)|(baseUrl & bearer & r & n & -> & Hn & Hpos & Hcont & Hr)].
  { intros [= <- <-]. split; [done|]. intros rq ? ? Hrq.
    by apply elem_of_nil in Hrq. }
  intros [= <- <-]. split.
  - intros body Hbody. destruct r as [e|msgs]; [done|].
    injection Hbody as <-. destruct Hr as [-> Hok]. split.
    + intros rq (i & -> & Hi)%list_elem_of_fmap.
      apply elem_of_seq in Hi. specialize (Hok i ltac:(lia)).
      destruct (fetch (pageRequest baseUrl bearer i)) as [| |data]; try done.
      by exists data.
    + simpl. by destruct (Route.decodeMessagesSnippet _ _).
  - intros rq status errorText (i & -> & Hi)%list_elem_of_fmap Hfail.
    apply elem_of_seq in Hi.
    assert (i = (n - 1)%nat) as ->.
    { destruct (decide (S i < n)%nat) as [Hlt|]; [|lia].
      destruct (proj1 (Hcont i ltac:(lia)) Hlt) as [Hfull _].
      by rewrite Hfail in Hfull. }
    destruct r as [e|msgs].
    + rewrite Hfail in Hr. injection Hr as <-. split_and!.
      * rewrite fmap_last. replace n with (S (n - 1)) at 1 by lia.
        by rewrite seq_S, last_snoc.
      * intros errorData Hjson. unfold Sequential.notOkError.
        rewrite Hjson. unfold Sequential.messageOr.
        by rewrite decide_False by apply apiErrorMessage_nonempty.
      * intros text e' -> Hjson. unfold Sequential.notOkError. simpl.
        by rewrite Hjson.
      * intros e' -> Hjson. unfold Sequential.notOkError. simpl.
        rewrite Hjson. unfold Sequential.messageOr.
        by rewrite decide_False by apply apiErrorMessage_nonempty.
    + destruct Hr as [_ Hok]. specialize (Hok (n - 1)%nat ltac:(lia)).
      by rewrite Hfail in Hok.
Qed.

(** The loop stops at the first page that is short or holds a message
    older than the cutoff [setHours(getHours() - 24)] gives: request [i]
    is followed by another exactly when it delivered at least 50 messages,
    none of them older than the cutoff, and [i < 19]. *)
Theorem sequential_messages_next_page
    now hoursEarlier token JSON_parse JSON_stringify fetchFailed bodyUnusable
    fetch request response issued i rq :
  Sequential.GET_messages now hoursEarlier token JSON_parse JSON_stringify
      fetchFailed bodyUnusable fetch request
    = Some (response, issued) ->
  issued !! i = Some rq ->
  (S i < length issued)%nat
  <-> (exists data,
         fetch rq = Route.HttpOk data /\ (50 <= length data)%nat /\
         Forall (fun m => hoursEarlier now 24 <= Route.wm_createdAt m) data)
      /\ (i < 19)%nat.
Proof.
  destruct (sequential_messages_run now
      hoursEarlier token JSON_parse JSON_stringify
              fetchFailed bodyUnusable fetch request)
    as [(status & e & ->)|(baseUrl & bearer & r & n & -> & Hn & Hpos & Hcont & Hr)].
  { intros [= <- <-] Hi. by rewrite lookup_nil in Hi. }
  intros [= <- <-] [Hi ->]%pageRequests_lookup.
  rewrite length_fmap, length_seq, (Hcont i Hi).
  unfold fullAndRecent.
  destruct (fetch (pageRequest baseUrl bearer i)) as [| |data].
  - split; [tauto|]. by intros [(data & ? & _) _].
  - split; [tauto|]. by intros [(data & ? & _) _].
  - split.
    + intros [[? ?] ?]. split; [|lia]. by exists data.
    + intros [(data' & [= <-] & ? & ?) ?]. split; [done | lia].
Qed.

(** The loop of the attempts handler, with its second flag, takes the
    steps of the loop of the messages handler. *)
Lemma fetchAttemptPages_fetchPages JSON_parse JSON_stringify fetchFailed
    bodyUnusable fetch baseUrl token threshold
    fuel hasMoreData reachedOldData offset all issued :
  Sequential.fetchAttemptPages JSON_parse JSON_stringify fetchFailed
    bodyUnusable fetch baseUrl token threshold
    fuel hasMoreData reachedOldData offset all issued
  = Sequential.fetchPages JSON_parse JSON_stringify fetchFailed bodyUnusable
      Attempt.createdAt fetch baseUrl token
      threshold fuel (hasMoreData && negb reachedOldData) offset all issued.
Proof.
  revert hasMoreData reachedOldData offset all issued.
  induction fuel as [|fuel IH]; intros hasMoreData reachedOldData offset all issued.
  { done. }
  simpl.
  destruct (hasMoreData && negb reachedOldData && (offset <? Sequential.MAX_OFFSET))
    eqn:Hcond; [|done].
  apply andb_true_iff in Hcond as [[-> ->%negb_true_iff]%andb_true_iff _].
  destruct (fetch _) as [| |data]; try done.
  rewrite !IH. simpl.
  repeat match goal with |- context [if ?c then _ else _] => destruct c end;
    try done; by rewrite !fetchPages_done.
Qed.

Lemma sequential_attempts_run now hoursEarlier token JSON_parse JSON_stringify
    fetchFailed bodyUnusable fetch request :
  (exists status e,
     Sequential.GET_attempts now hoursEarlier token JSON_parse JSON_stringify
      fetchFailed bodyUnusable fetch request
     = Some (Route.JsonError status e, []))
  \/
  exists baseUrl bearer r n,
    let RQ := pageRequest baseUrl bearer in
    let threshold := hoursEarlier now 24 in
    Sequential.GET_attempts now hoursEarlier token JSON_parse JSON_stringify
      fetchFailed bodyUnusable fetch request
    = Some (match r with
            | inl e =>
                Route.JsonError 500
                  (Sequential.messageOr e "Failed to fetch webhook attempts")
            | inr allAttempts => Route.JsonOk allAttempts
            end, RQ <$> seq 0 n) /\
    (n <= 20)%nat /\ (0 < n)%nat /\
    (forall i, (i < n)%nat ->
       (S i < n)%nat <->
       fullAndRecent Attempt.createdAt threshold (fetch (RQ i))
       /\ (S i < 20)%nat) /\
    match r with
    | inr attempts =>
        attempts = filter (fun a => threshold <= Attempt.createdAt a)
                          (concat (delivered fetch <$> (RQ <$> seq 0 n)))
        /\ forall i, (i < n)%nat -> thrownOn fetchFailed
          (Sequential.notOkError JSON_parse JSON_stringify bodyUnusable)
          (fetch (RQ i)) = None
    | inl e => thrownOn fetchFailed
          (Sequential.notOkError JSON_parse JSON_stringify bodyUnusable)
          (fetch (RQ (n - 1)%nat)) = Some e
    end.
Proof.
  unfold Sequential.GET_attempts.
  destruct (negb (Route.truthy (Route.projectId request))
            || negb (Route.truthy (Route.webhookId request)));
    [left; by eexists _, _|].
  destruct (negb (Route.truthy (Route.trim <$> token)));
    [left; by eexists _, _|].
  right. rewrite fetchAttemptPages_fetchPages.
  match goal with
  | |- context [Sequential.fetchPages _ _ _ _ _ _ ?b ?t _ _ _ _ _ _] =>
      exists b, t;
      destruct (fetchPages_run Attempt.createdAt JSON_parse JSON_stringify
                  fetchFailed bodyUnusable fetch b t
                  (hoursEarlier now 24) 20 0 [] [])
        as (r & n & Hrun & Hn & Hpos & Hcont & Hr); [lia|]
  end.
  exists r, n. change (50 * Z.of_nat 0) with 0 in Hrun.
  change (Z.to_nat (Sequential.MAX_OFFSET / Sequential.limit)) with 20%nat.
  cbn [andb negb]. rewrite Hrun. simpl in Hn |- *.
  split_and!; try done; try lia.
  - by destruct r as [e|msgs].
  - destruct r as [e|msgs]; [|done]. destruct Hr as [_ Hr]. exact Hr.
Qed.

(** The sequential attempts handler always answers, after at most 20
    upstream requests; request [i] asks for 50 records from offset
    [50 i]. *)
Lemma sequential_attempts_returns now hoursEarlier token JSON_parse
    JSON_stringify fetchFailed bodyUnusable fetch request :
  exists response issued,
    Sequential.GET_attempts now hoursEarlier token JSON_parse JSON_stringify
      fetchFailed bodyUnusable fetch request
      = Some (response, issued) /\
    (length issued <= 20)%nat /\
    forall i rq, issued !! i = Some rq ->
      Route.limitQuery rq = Some 50 /\
      Route.offsetQuery rq = Some (50 * Z.of_nat i) /\
      50 * Z.of_nat i < Sequential.MAX_OFFSET.
Proof.
  destruct (sequential_attempts_run now
      hoursEarlier token JSON_parse JSON_stringify
              fetchFailed bodyUnusable fetch request)
    as [(status & e & ->)|(baseUrl & bearer & r & n & -> & Hn & _)].
  - eexists _, _. split; [done|]. split; [simpl; lia|]. intros i rq Hi.
    by rewrite lookup_nil in Hi.
  - eexists _, _. split; [done|]. split.
    + by rewrite length_fmap, length_seq.
    + intros i rq [Hi ->]%pageRequests_lookup. unfold Sequential.MAX_OFFSET.
      simpl. split_and!; try done. lia.
Qed.

(** An answer with data is, in the order of delivery and neither sorted
    nor stripped of repetitions, every attempt the issued requests
    delivered that is not older than the cutoff [setHours(getHours() - 24)]
    gives; request [i] is followed by another exactly when it delivered at
    least 50 attempts, none of them older than the cutoff, and [i < 19]; a
    request that fails makes the answer status 500. *)
Theorem sequential_attempts_content
    now hoursEarlier token JSON_parse JSON_stringify fetchFailed bodyUnusable
    fetch request response issued :
  Sequential.GET_attempts now hoursEarlier token JSON_parse JSON_stringify
      fetchFailed bodyUnusable fetch request
    = Some (response, issued) ->
  (forall attempts, response = Route.JsonOk attempts ->
     attempts = filter (fun a => hoursEarlier now 24 <= Attempt.createdAt a)
                       (concat (delivered fetch <$> issued)))
  /\ (forall i rq, issued !! i = Some rq ->
        (S i < length issued)%nat
        <-> (exists data,
               fetch rq = Route.HttpOk data /\ (50 <= length data)%nat /\
               Forall (fun a =>
                   hoursEarlier now 24 <= Attempt.createdAt a) data)
            /\ (i < 19)%nat)
  /\ (forall rq, rq ∈ issued -> thrownOn fetchFailed
          (Sequential.notOkError JSON_parse JSON_stringify bodyUnusable)
          (fetch rq) <> None ->
        exists e, response = Route.JsonError 500 e).
Proof.
  destruct (sequential_attempts_run now
      hoursEarlier token JSON_parse JSON_stringify
              fetchFailed bodyUnusable fetch request)
    as [(status & e & ->)|(baseUrl & bearer & r & n & -> & Hn & Hpos & Hcont & Hr)].
  { intros [= <- <-]. split_and!; [done| |].
    - intros i rq Hi. by rewrite lookup_nil in Hi.
    - intros rq Hrq. by apply elem_of_nil in Hrq. }
  intros [= <- <-]. split_and!.
  - intros attempts Hbody. destruct r as [e|msgs]; [done|].
    injection Hbody as <-. by destruct Hr as [-> _].
  - intros i rq [Hi ->]%pageRequests_lookup.
    rewrite length_fmap, length_seq, (Hcont i Hi).
    unfold fullAndRecent.
    destruct (fetch (pageRequest baseUrl bearer i)) as [| |data].
    + split; [tauto|]. by intros [(data & ? & _) _].
    + split; [tauto|]. by intros [(data & ? & _) _].
    + split.
      * intros [[? ?] ?]. split; [|lia]. by exists data.
      * intros [(data' & [= <-] & ? & ?) ?]. split; [done | lia].
  - intros rq (i & -> & Hi)%list_elem_of_fmap Hfail.
    apply elem_of_seq in Hi. destruct r as [e|attempts]; [by eexists|].
    destruct Hr as [_ Hok]. destruct Hfail. apply Hok. lia.
Qed.

(** The theorem on an upstream whose second page is answered with status
    503 and a body that is not JSON: the first page is dropped, and the
    answer carries the message of the rejected second read. *)
Lemma sequential_messages_all_or_nothing_witness :
  Sequential.GET_messages 100000000 utcHoursEarlier (Some "token") sampleParse
                          sampleStringify "fetch failed" sampleBodyUnusable
                          failingSecondPage sampleRequest
  = Some (Route.JsonError 500 sampleBodyUnusable,
          [pageRequest sampleMessagesUrl "token" 0;
           pageRequest sampleMessagesUrl "token" 1])
  /\ Route.JsonError 500 sampleBodyUnusable
     = Route.JsonError (B := Sequential.MessagesBody) 500
         (Sequential.messageOr sampleBodyUnusable
                               "Failed to fetch webhook messages").
Proof.
  assert (Sequential.GET_messages 100000000 utcHoursEarlier (Some "token")
            sampleParse sampleStringify "fetch failed" sampleBodyUnusable
            failingSecondPage sampleRequest
          = Some (Route.JsonError 500 sampleBodyUnusable,
                  [pageRequest sampleMessagesUrl "token" 0;
                   pageRequest sampleMessagesUrl "token" 1])) as E
    by (vm_compute; reflexivity).
  split; [exact E|].
  apply (proj1 (proj2 (proj2 (proj2 (sequential_messages_all_or_nothing
                                       _ _ _ _ _ _ _ _ _ _ _ E)
                                    (pageRequest sampleMessagesUrl "token" 1)
                                    503 (Some "unavailable")
                                    ltac:(right; left) eq_refl))))
          with (text := "unavailable") (e := "Unexpected token");
    reflexivity.
Defined.

(** The theorem on the same upstream: the full first page is followed by a
    second request. *)
Lemma sequential_messages_next_page_witness :
  (1 < length [pageRequest sampleMessagesUrl "token" 0;
               pageRequest sampleMessagesUrl "token" 1])%nat
  <-> (exists data,
         failingSecondPage (pageRequest sampleMessagesUrl "token" 0)
           = Route.HttpOk data /\ (50 <= length data)%nat /\
         Forall (fun m => utcHoursEarlier 100000000 24 <= Route.wm_createdAt m)
                data)
      /\ (0 < 19)%nat.
Proof.
  apply (sequential_messages_next_page 100000000 utcHoursEarlier (Some "token")
           sampleParse sampleStringify "fetch failed" sampleBodyUnusable
           failingSecondPage sampleRequest
           (Route.JsonError 500 sampleBodyUnusable)).
  - vm_compute. reflexivity.
  - reflexivity.
Defined.

(** The theorem on an upstream whose second page reaches an old attempt:
    two requests, and 51 attempts in the order of delivery. *)
Lemma sequential_attempts_content_witness :
  Sequential.GET_attempts 100000000 utcHoursEarlier (Some "token") sampleParse
                          sampleStringify "fetch failed" sampleBodyUnusable
                          twoPageUpstream sampleRequest
  = Some (Route.JsonOk (replicate 51 recentAttempt),
          [pageRequest sampleAttemptsUrl "token" 0;
           pageRequest sampleAttemptsUrl "token" 1])
  /\ replicate 51 recentAttempt
     = filter (fun a => utcHoursEarlier 100000000 24 <= Attempt.createdAt a)
              (concat (delivered twoPageUpstream
                         <$> [pageRequest sampleAttemptsUrl "token" 0;
                              pageRequest sampleAttemptsUrl "token" 1])).
Proof.
  assert (Sequential.GET_attempts 100000000 utcHoursEarlier (Some "token")
            sampleParse sampleStringify "fetch failed" sampleBodyUnusable
            twoPageUpstream sampleRequest
          = Some (Route.JsonOk (replicate 51 recentAttempt),
                  [pageRequest sampleAttemptsUrl "token" 0;
                   pageRequest sampleAttemptsUrl "token" 1])) as E
    by (vm_compute; reflexivity).
  split; [exact E|].
  by apply (proj1 (sequential_attempts_content _ _ _ _ _ _ _ _ _ _ _ E)).
Defined.

(** ** The table: rows, order and search *)

Lemma elem_of_filteredMessages toLowerCase q s (M : list ProcessedMessage.t) m :
  m ∈ View.filteredMessages toLowerCase q s M
  <-> m ∈ M /\ View.matchesSearch toLowerCase q m = true
      /\ View.matchesStatus s m = true.
Proof.
  unfold View.filteredMessages. rewrite list_elem_of_filter, andb_true_iff. tauto.
Qed.

Lemma filteredMessages_sublist toLowerCase q s (M : list ProcessedMessage.t) :
  View.filteredMessages toLowerCase q s M `sublist_of` M.
Proof. apply sublist_filter. Qed.

(** Whatever the search, the filter and the sort column, the table has one
    row for each aggregate of the collection that passes the search and
    the status filter, and no two rows for one message. *)
Theorem table_rows toLowerCase localeCompare q s field direction (calls : list Call) m :
  (m ∈ View.sortedMessages toLowerCase localeCompare q s field direction
      (runCalls calls)
   <-> m ∈ runCalls calls /\ View.matchesSearch toLowerCase q m = true
       /\ View.matchesStatus s m = true)
  /\ NoDup (messageId
              <$> View.sortedMessages toLowerCase localeCompare q s field direction
                    (runCalls calls)).
Proof.
  unfold View.sortedMessages. split.
  - by rewrite (array_sort_elem _), elem_of_filteredMessages.
  - rewrite (array_sort_Permutation _).
    eapply sublist_NoDup; [apply runCalls_distinct|].
    apply fmap_sublist, filteredMessages_sublist.
Qed.

Lemma compareMessages_key localeCompare field direction key x y :
  columnKey field = Some key ->
  (View.compareMessages localeCompare field direction x y <? 0)
  = (match direction with View.asc => key x | View.desc => - key x end
     <? match direction with View.asc => key y | View.desc => - key y end).
Proof.
  intros Hkey.
  destruct field; try done; injection Hkey as <-; simpl;
    destruct direction; simpl;
    match goal with
    | |- (?a <? 0) = (?b <? ?c) =>
        destruct (Z.ltb_spec a 0), (Z.ltb_spec b c); lia
    end.
Qed.

Lemma sortedBy_columnOrder key direction (l : list ProcessedMessage.t) :
  sortedBy (fun m => match direction with
                     | View.asc => key m | View.desc => - key m end) l
  <-> StronglySorted (columnOrder key direction) l.
Proof.
  unfold sortedBy.
  split; apply StronglySorted_weaken; intros a b; destruct direction; simpl; lia.
Qed.

Lemma table_sorted_by_column_aux toLowerCase localeCompare q s field direction key
    (M : list ProcessedMessage.t) :
  columnKey field = Some key ->
  StronglySorted (columnOrder key direction)
                 (View.sortedMessages toLowerCase localeCompare q s field direction M).
Proof.
  intros Hkey. apply sortedBy_columnOrder.
  apply array_sort_sorted. intros x y. by apply compareMessages_key.
Qed.

(** For the columns [oldestAttempt], [newestAttempt] and [attemptCount]
    the rows are in the order of the column, in the chosen direction. *)
Theorem table_sorted_by_column toLowerCase localeCompare q s field direction key
    (M : list ProcessedMessage.t) :
  columnKey field = Some key ->
  StronglySorted (columnOrder key direction)
                 (View.sortedMessages toLowerCase localeCompare q s field direction M).
Proof. apply table_sorted_by_column_aux. Qed.

(** The theorem on the collection of the second scenario, by attempt
    count. *)
Lemma table_sorted_by_column_witness :
  StronglySorted (columnOrder (fun m => Z.of_nat (attemptCount m)) View.desc)
    (View.sortedMessages toLowerCase (fun _ _ => 0) "" "all"
        View.sort_attemptCount View.desc
       (processApiData (processApiData [] batch1 ∅ [] false) batch2 ∅ [] true)).
Proof.
  apply (table_sorted_by_column toLowerCase (fun _ _ => 0) "" "all"
           View.sort_attemptCount
           View.desc).
  reflexivity.
Defined.

Lemma runCalls_sorted (calls : list Call) :
  sortedBy (fun m => - newestAttempt m) (runCalls calls).
Proof.
  destruct calls as [|c calls _] using rev_ind; [constructor|].
  rewrite runCalls_snoc. apply processApiData_sorted, runCalls_distinct.
Qed.

Lemma StronglySorted_sublist {A} (R : relation A) (l1 l2 : list A) :
  l1 `sublist_of` l2 -> StronglySorted R l2 -> StronglySorted R l1.
Proof.
  induction 1 as [|x l1 l2 Hsub IH|x l1 l2 Hsub IH]; intros Hs.
  - constructor.
  - apply StronglySorted_inv in Hs as [Hs Hx]. constructor; [by apply IH|].
    rewrite Forall_forall in Hx |- *. intros y Hy. apply Hx.
    by eapply elem_of_sublist.
  - apply StronglySorted_inv in Hs as [Hs _]. by apply IH.
Qed.

(** With the sort the component starts with, [newestAttempt] descending,
    the rows are the aggregates that pass the filters in the order of the
    collection; with the initial search and filter the table is the
    collection itself. *)
Theorem default_sort_keeps_collection_order toLowerCase localeCompare q s (calls : list Call) :
  View.sortedMessages toLowerCase localeCompare q s
      View.sort_newestAttempt View.desc
                      (runCalls calls)
  = View.filteredMessages toLowerCase q s (runCalls calls)
  /\ View.sortedMessages toLowerCase localeCompare "" "all"
      View.sort_newestAttempt View.desc
                         (runCalls calls)
     = runCalls calls.
Proof.
  assert (forall q s,
            View.sortedMessages toLowerCase localeCompare q s
                View.sort_newestAttempt
                                View.desc (runCalls calls)
            = View.filteredMessages toLowerCase q s
                (runCalls calls)) as Hsorted.
  { intros q' s'. unfold View.sortedMessages.
    apply (array_sort_sorted_id _ (fun m => - newestAttempt m)).
    - intros x y. by apply (compareMessages_key _ _ View.desc newestAttempt).
    - apply (sortedBy_columnOrder newestAttempt View.desc).
      eapply StronglySorted_sublist; [apply filteredMessages_sublist|].
      apply (sortedBy_columnOrder newestAttempt View.desc), runCalls_sorted. }
  split; [apply Hsorted|]. rewrite Hsorted.
  unfold View.filteredMessages. apply filter_all. intros m _. done.
Qed.

Lemma substring_prefix_app (t s : string) :
  substring 0 (String.length t) s = t -> exists post, s = t +:+ post.
Proof.
  revert s. induction t as [|c t IH]; intros s; simpl.
  - by exists s.
  - destruct s as [|c' s]; [done|]. intros [= -> Ht].
    destruct (IH s Ht) as (post & ->). by exists post.
Qed.

Lemma substring_occurs (m : nat) (needle s : string) :
  substring m (String.length needle) s = needle -> occursIn needle s.
Proof.
  revert s. induction m as [|m IH]; intros s Hs.
  - apply substring_prefix_app in Hs as (post & ->). by exists "", post.
  - destruct s as [|c s].
    + exists "", "". destruct needle; simpl in Hs; by rewrite <- ?Hs.
    + simpl in Hs. destruct (IH s Hs) as (pre & post & ->).
      by exists (String c pre), post.
Qed.

Lemma substring_app_skip (pre s : string) n :
  substring (String.length pre) n (pre +:+ s) = substring 0 n s.
Proof. induction pre as [|c pre IH]; [done | exact IH]. Qed.

Lemma substring_app_prefix (t post : string) :
  substring 0 (String.length t) (t +:+ post) = t.
Proof.
  induction t as [|c t IH]; simpl; [by destruct post | by rewrite IH].
Qed.

(** [s.includes(needle)] is true exactly when [needle] occurs in [s]. *)
Lemma includes_spec (s needle : string) :
  includes s needle = true <-> occursIn needle s.
Proof.
  unfold includes. destruct (index 0 needle s) as [m|] eqn:E.
  - split; [intros _ | done].
    apply index_correct1 in E. by apply (substring_occurs m).
  - split; [done|]. intros (pre & post & ->). exfalso.
    destruct needle as [|c needle].
    { destruct (pre +:+ "" +:+ post); simpl in E; discriminate E. }
    apply (index_correct3 0 (String.length pre) _ _ E); [done | lia|].
    rewrite substring_app_skip. apply substring_app_prefix.
Qed.

(** The search keeps a message exactly when the query is empty or, both
    sides put in lower case by [String.prototype.toLowerCase], occurs in
    the message id, in the document id (when there is one and it is not
    the empty string) or in the hook id. *)
Theorem search_matches_fragments (toLowerCase : string -> string)
    (q : string) (m : ProcessedMessage.t) :
  View.matchesSearch toLowerCase q m = true
  <-> q = ""
      \/ occursIn (toLowerCase q) (toLowerCase (messageId m))
      \/ (exists d, documentId m = Some d /\ d <> "" /\
                    occursIn (toLowerCase q) (toLowerCase d))
      \/ occursIn (toLowerCase q) (toLowerCase (hookId m)).
Proof.
  unfold View.matchesSearch.
  rewrite !orb_true_iff, !includes_spec.
  assert ((if decide (q = "") then true else false) = true <-> q = "") as ->.
  { by destruct (decide (q = "")). }
  destruct (documentId m) as [d|].
  - rewrite andb_true_iff, includes_spec. unfold Route.truthy.
    destruct (decide (d = "")) as [->|Hd].
    + split; [intros [[[?|?]|[? _]]|?]; auto; done|].
      intros [?|[?|[(d & [= <-] & Hd & _)|?]]]; auto. done.
    + split.
      * intros [[[?|?]|[_ ?]]|?]; auto. right. right. left. by exists d.
      * intros [?|[?|[(d' & [= <-] & _ & ?)|?]]]; auto.
  - split; [intros [[[?|?]|?]|?]; auto; done|].
    intros [?|[?|[(d & ? & _)|?]]]; auto. done.
Qed.

(** The theorem on a fragment of the id of [okAggregate] in capitals. *)
Lemma search_matches_fragments_witness :
  View.matchesSearch toLowerCase "M1" okAggregate = true.
Proof.
  apply (search_matches_fragments toLowerCase).
  right. left. by exists "", "".
Defined.

(** ** The table: a second click on a header, badges and expanded rows *)

Lemma StronglySorted_reverse {A} (R : relation A) (l : list A) :
  StronglySorted R l -> StronglySorted (flip R) (reverse l).
Proof.
  induction 1 as [|x l Hl IH Hx]; [constructor|].
  rewrite reverse_cons. apply StronglySorted_app_2; [|done|repeat constructor].
  intros x1 x2 Hx1 ->%list_elem_of_singleton.
  rewrite elem_of_reverse in Hx1. rewrite Forall_forall in Hx. by apply Hx.
Qed.

Lemma NoDup_fmap_eq {A B} (f : A -> B) (l : list A) x y :
  NoDup (f <$> l) -> x ∈ l -> y ∈ l -> f x = f y -> x = y.
Proof.
  intros Hnd Hx Hy Hf.
  apply list_elem_of_lookup in Hx as [i Hi], Hy as [j Hj].
  assert (i = j) as ->; [|congruence].
  apply (NoDup_lookup (f <$> l) i j (f x)); [done| |].
  - by rewrite list_lookup_fmap, Hi.
  - by rewrite list_lookup_fmap, Hj, Hf.
Qed.


(** A click on the header of the column the table is sorted by keeps the
    column and flips the direction; for the columns [oldestAttempt],
    [newestAttempt] and [attemptCount], when no two rows have the same
    value in the column, the table is then the old table in reverse. *)
Theorem header_click_reverses toLowerCase localeCompare q s field direction key
    (M : list ProcessedMessage.t) :
  columnKey field = Some key ->
  NoDup (key <$> View.filteredMessages toLowerCase q s M) ->
  exists direction',
    View.handleSort field direction field = (field, direction') /\
    direction' <> direction /\
    View.sortedMessages toLowerCase localeCompare q s field direction' M
    = reverse (View.sortedMessages toLowerCase localeCompare q s field direction M).
Proof.
  intros Hkey Hnd. exists (otherDirection direction).
  split_and!.
  - unfold View.handleSort. rewrite decide_True by done. by destruct direction.
  - by destruct direction.
  - set (key' := fun m => match otherDirection direction with
                          | View.asc => key m | View.desc => - key m end).
    apply (sortedBy_unique key').
    + intros x y Hx Hy Hxy.
      unfold View.sortedMessages in Hx, Hy.
      rewrite elem_of_reverse in Hy.
      rewrite (array_sort_elem _) in Hx. rewrite (array_sort_elem _) in Hy.
      apply (NoDup_fmap_eq key _ x y Hnd Hx Hy).
      subst key'. simpl in Hxy. destruct direction; simpl in Hxy; lia.
    + apply sortedBy_columnOrder. by apply table_sorted_by_column_aux.
    + pose proof (table_sorted_by_column_aux toLowerCase localeCompare q s field
                    direction key M Hkey) as Hsorted.
      apply StronglySorted_reverse in Hsorted.
      apply sortedBy_columnOrder.
      eapply StronglySorted_weaken; [|exact Hsorted].
      intros a b. unfold flip. by destruct direction.
    + unfold View.sortedMessages.
      by rewrite reverse_Permutation, !(array_sort_Permutation _).
Qed.

(** The theorem on the collection of the second scenario: by attempt
    count, descending then ascending. *)
Lemma header_click_reverses_witness :
  View.sortedMessages toLowerCase (fun _ _ => 0) "" "all"
      View.sort_attemptCount View.asc
    (processApiData (processApiData [] batch1 ∅ [] false) batch2 ∅ [] true)
  = reverse
      (View.sortedMessages toLowerCase (fun _ _ => 0) "" "all"
          View.sort_attemptCount View.desc
         (processApiData (processApiData [] batch1 ∅ [] false) batch2 ∅ [] true)).
Proof.
  destruct (header_click_reverses toLowerCase (fun _ _ => 0) "" "all"
              View.sort_attemptCount
              View.desc (fun m => Z.of_nat (attemptCount m))
              (processApiData (processApiData [] batch1 ∅ [] false) batch2 ∅ [] true))
    as (direction' & Hclick & _ & Hrev).
  - reflexivity.
  - compute_done.
  - injection Hclick as <-. exact Hrev.
Defined.

Lemma float_eqb_zero_hundred (x : float) :
  PrimFloat.eqb x 0 = true -> PrimFloat.eqb x 100 = false.
Proof.
  rewrite !FloatAxioms.eqb_spec. generalize (Prim2SF x). intros sx.
  change (Prim2SF 0) with (S754_zero false).
  replace (Prim2SF 100) with (S754_finite false 7036874417766400 (-46))
    by (symmetry; vm_compute; reflexivity).
  destruct sx as [[]|[]| |[] m e]; simpl; done.
Qed.

Lemma float_between_not_bound (x : float) :
  PrimFloat.ltb 0 x && PrimFloat.ltb x 100 = true ->
  PrimFloat.eqb x 100 = false /\ PrimFloat.eqb x 0 = false.
Proof.
  rewrite andb_true_iff, !FloatAxioms.eqb_spec, !FloatAxioms.ltb_spec. generalize (Prim2SF x). intros sx.
  change (Prim2SF 0) with (S754_zero false).
  generalize (Prim2SF 100). intros hundred.
  unfold SFltb, SFeqb. intros [H0 H100]. split.
  - by destruct (SFcompare sx hundred) as [[]|].
  - destruct sx as [[]|[]| |[] m e]; simpl in *; done.
Qed.

(** The status filter and the badge agree: the filter [success] keeps the
    rows with the badge [Success], [failed] those with [Failed], and every
    row that [partial] keeps has the badge [Partial]; so no row passes two
    of the three filters. *)
Theorem status_filter_agrees_with_badge (m : ProcessedMessage.t) :
  (View.matchesStatus "success" m = true
   <-> View.getStatusBadge (successRate m) = View.Success) /\
  (View.matchesStatus "failed" m = true
   <-> View.getStatusBadge (successRate m) = View.Failed) /\
  (View.matchesStatus "partial" m = true ->
   View.getStatusBadge (successRate m) = View.Partial (successRate m)).
Proof.
  unfold View.matchesStatus, View.getStatusBadge. simpl.
  split_and!.
  - destruct (PrimFloat.eqb (successRate m) 100); [done|].
    by destruct (PrimFloat.eqb (successRate m) 0).
  - destruct (PrimFloat.eqb (successRate m) 0) eqn:E0.
    + by rewrite (float_eqb_zero_hundred _ E0).
    + by destruct (PrimFloat.eqb (successRate m) 100).
  - intros [-> ->]%float_between_not_bound. done.
Qed.

(** Expanding and collapsing: a second click on the same row restores the
    set of expanded rows, and a click never changes another row. *)
Theorem toggleExpand_involutive (prev : gset string) (k : string) :
  View.toggleExpand (View.toggleExpand prev k) k = prev
  /\ (k ∈ View.toggleExpand prev k <-> k ∉ prev)
  /\ forall k', k' <> k -> (k' ∈ View.toggleExpand prev k <-> k' ∈ prev).
Proof.
  unfold View.toggleExpand. split_and!.
  - destruct (decide (k ∈ prev)) as [Hk|Hk].
    + rewrite decide_False
        by (rewrite elem_of_difference, elem_of_singleton; tauto).
      apply set_eq. intros x.
      rewrite elem_of_union, elem_of_difference, elem_of_singleton.
      destruct (decide (x = k)) as [->|]; tauto.
    + rewrite decide_True
        by (rewrite elem_of_union, elem_of_singleton; tauto).
      apply set_eq. intros x.
      rewrite elem_of_difference, elem_of_union, elem_of_singleton.
      destruct (decide (x = k)) as [->|]; tauto.
  - destruct (decide (k ∈ prev)).
    + rewrite elem_of_difference, elem_of_singleton. tauto.
    + rewrite elem_of_union, elem_of_singleton. tauto.
  - intros k' Hk'. destruct (decide (k ∈ prev)).
    + rewrite elem_of_difference, elem_of_singleton. tauto.
    + rewrite elem_of_union, elem_of_singleton. tauto.
Qed.

(** ** Pages *)

Lemma currentMessages_chunk {A} (l : list A) (p ipp : Z) :
  0 < ipp -> 1 <= p ->
  View.currentMessages l p ipp
  = take (Z.to_nat ipp) (drop (Z.to_nat ((p - 1) * ipp)) l).
Proof.
  intros Hipp Hp.
  unfold View.currentMessages, View.slice, View.endIndex, View.startIndex.
  set (start := (p - 1) * ipp). set (n := Z.of_nat (length l)).
  assert (0 <= start) as Hstart by (subst start; nia).
  assert (0 <= n) as Hn by (subst n; lia).
  destruct (Z.ltb_spec start 0) as [?|_]; [lia|].
  destruct (Z.ltb_spec (Z.min (start + ipp) n) 0) as [?|_]; [lia|].
  destruct (decide (start <= n)) as [Hle|Hgt].
  - replace (Z.min start n) with start by lia.
    set (l' := drop (Z.to_nat start) l).
    assert (Z.of_nat (length l') = n - start) as Hlen.
    { subst l' n. rewrite length_drop. lia. }
    destruct (decide (ipp <= n - start)).
    + f_equal. lia.
    + rewrite (take_ge l' (Z.to_nat ipp)) by lia. apply take_ge. lia.
  - replace (Z.min start n) with n by lia.
    replace (Z.min (Z.min (start + ipp) n) n - n) with 0 by lia.
    rewrite (drop_ge l (Z.to_nat start)) by (subst n; lia).
    by rewrite take_nil.
Qed.

Lemma chunks_concat {A} (l : list A) (i c : nat) :
  concat ((fun j => take i (drop (j * i) l)) <$> seq 0 c) = take (c * i) l.
Proof.
  induction c as [|c IH]; [done|].
  rewrite seq_S, fmap_app, concat_app, IH. simpl. rewrite app_nil_r.
  rewrite take_take_drop. f_equal. lia.
Qed.

Lemma ceilDiv_bounds (a b : Z) :
  0 <= a -> 0 < b ->
  (View.ceilDiv a b - 1) * b < a <= View.ceilDiv a b * b.
Proof.
  intros Ha Hb. unfold View.ceilDiv.
  pose proof (Z.div_mod (- a) b ltac:(lia)) as Hdm.
  pose proof (Z.mod_pos_bound (- a) b Hb) as Hmod. nia.
Qed.

(** For a positive page size the pages [1 .. totalPages] cut the table
    into consecutive pieces: put one after the other they are the table,
    each holds between one row and [itemsPerPage] rows, as many as the
    range [startIndex + 1 .. endIndex] the footer announces, and a page
    beyond [totalPages] is empty. *)
Theorem pages_partition {A} (sorted : list A) (itemsPerPage : Z) :
  0 < itemsPerPage ->
  concat ((fun page => View.currentMessages sorted page itemsPerPage)
            <$> seqZ 1 (View.totalPages (length sorted) itemsPerPage))
  = sorted
  /\ (forall page,
        1 <= page <= View.totalPages (length sorted) itemsPerPage ->
        1 <= Z.of_nat (length (View.currentMessages sorted page itemsPerPage))
          <= itemsPerPage
        /\ Z.of_nat (length (View.currentMessages sorted page itemsPerPage))
           = View.endIndex (length sorted) page itemsPerPage
             - View.startIndex page itemsPerPage)
  /\ (forall page,
        View.totalPages (length sorted) itemsPerPage < page ->
        View.currentMessages sorted page itemsPerPage = []).
Proof.
  intros Hipp. unfold View.totalPages.
  pose proof (ceilDiv_bounds (Z.of_nat (length sorted)) itemsPerPage
                ltac:(lia) Hipp) as Hc.
  set (c := View.ceilDiv (Z.of_nat (length sorted)) itemsPerPage) in *.
  assert (0 <= c) as Hc0 by nia.
  split_and!.
  - unfold seqZ. rewrite <- list_fmap_compose.
    transitivity
      (concat ((fun j => take (Z.to_nat itemsPerPage)
                              (drop (j * Z.to_nat itemsPerPage) sorted))
                 <$> seq 0 (Z.to_nat c))).
    + f_equal. apply list_fmap_ext. intros i j _. simpl.
      rewrite currentMessages_chunk by lia. do 2 f_equal. nia.
    + rewrite chunks_concat. apply take_ge. nia.
  - intros page Hpage. rewrite currentMessages_chunk by lia.
    rewrite length_take, length_drop.
    unfold View.endIndex, View.startIndex. nia.
  - intros page Hpage. rewrite currentMessages_chunk by lia.
    rewrite drop_ge; [by rewrite take_nil | nia].
Qed.

(** The theorem on seven rows in pages of three. *)
Lemma pages_partition_witness :
  (fun page => View.currentMessages [1; 2; 3; 4; 5; 6; 7] page 3) <$> seqZ 1 3
  = [[1; 2; 3]; [4; 5; 6]; [7]]
  /\ concat ((fun page => View.currentMessages [1; 2; 3; 4; 5; 6; 7] page 3)
               <$> seqZ 1 (View.totalPages 7 3))
     = [1; 2; 3; 4; 5; 6; 7].
Proof.
  split; [reflexivity|].
  apply (pages_partition [1; 2; 3; 4; 5; 6; 7] 3). lia.
Defined.

Lemma pageNumbersOf_app l1 l2 :
  pageNumbersOf (l1 ++ l2) = pageNumbersOf l1 ++ pageNumbersOf l2.
Proof. apply omap_app. Qed.

Lemma pageNumbersOf_numbers (l : list Z) :
  pageNumbersOf (View.PageNumber <$> l) = l.
Proof. induction l as [|x l IH]; [done|]. csimpl. by rewrite IH. Qed.

Lemma seqZ_sorted (m n : Z) : StronglySorted Z.lt (seqZ m n).
Proof.
  destruct (decide (n <= 0)); [rewrite seqZ_nil by done; constructor|].
  rewrite <- (Z2Nat.id n) by lia. generalize (Z.to_nat n). clear. intros k.
  revert m. induction k as [|k IH]; intros m.
  { rewrite seqZ_nil by lia. constructor. }
  rewrite seqZ_cons by lia. constructor.
  - replace (Z.pred (Z.of_nat (S k))) with (Z.of_nat k) by lia. apply IH.
  - apply Forall_forall. intros x Hx. apply elem_of_seqZ in Hx. lia.
Qed.

(** The page list with more pages than fit: the first page, the pages
    [lo .. hi] around the current one, the last page, and an ellipsis on
    each side where a page is left out. *)
Lemma getPageNumbers_window innerWidth totalPages currentPage :
  maxVisiblePagesOf innerWidth < totalPages ->
  1 <= currentPage <= totalPages ->
  exists lo hi,
    View.getPageNumbers innerWidth totalPages currentPage
    = [View.PageNumber 1]
        ++ (if 2 <? lo then [View.EllipsisStart] else [])
        ++ (View.PageNumber <$> seqZ lo (hi - lo + 1))
        ++ (if hi <? totalPages - 1 then [View.EllipsisEnd] else [])
        ++ [View.PageNumber totalPages]
    /\ 2 <= lo /\ hi <= totalPages - 1
    /\ hi - lo + 1 = maxVisiblePagesOf innerWidth - 2
    /\ (currentPage = 1 \/ lo <= currentPage <= hi
        \/ currentPage = totalPages).
Proof.
  unfold maxVisiblePagesOf, View.getPageNumbers, View.pushPages.
  intros Hmax Hcur.
  destruct (Z.leb_spec 768 innerWidth) as [_|_].
  - destruct (Z.leb_spec totalPages 7) as [?|_]; [lia|].
    change ((7 - 2) / 2) with 2.
    destruct (Z.ltb_spec 1 totalPages) as [_|?]; [|lia].
    destruct (Z.leb_spec currentPage (2 + 1)) as [?|?];
      [|destruct (Z.leb_spec (totalPages - 2) currentPage) as [?|?]].
    all: match goal with
         | |- context [seqZ ?lo (?hi - ?lo + 1)] => exists lo, hi
         end.
    all: split; [|lia].
    all: destruct (2 <? _), (_ <? totalPages - 1); simpl;
      by rewrite <- ?app_assoc.
  - destruct (Z.leb_spec totalPages 5) as [?|_]; [lia|].
    change ((5 - 2) / 2) with 1.
    destruct (Z.ltb_spec 1 totalPages) as [_|?]; [|lia].
    destruct (Z.leb_spec currentPage (1 + 1)) as [?|?];
      [|destruct (Z.leb_spec (totalPages - 1) currentPage) as [?|?]].
    all: match goal with
         | |- context [seqZ ?lo (?hi - ?lo + 1)] => exists lo, hi
         end.
    all: split; [|lia].
    all: destruct (2 <? _), (_ <? totalPages - 1); simpl;
      by rewrite <- ?app_assoc.
Qed.

Lemma getPageNumbers_all innerWidth totalPages currentPage :
  totalPages <= maxVisiblePagesOf innerWidth ->
  View.getPageNumbers innerWidth totalPages currentPage
  = View.PageNumber <$> seqZ 1 totalPages.
Proof.
  unfold maxVisiblePagesOf, View.getPageNumbers, View.pushPages. intros Hmax.
  destruct (768 <=? innerWidth).
  - destruct (Z.leb_spec totalPages 7) as [_|?]; [|lia].
    simpl. do 2 f_equal. lia.
  - destruct (Z.leb_spec totalPages 5) as [_|?]; [|lia].
    simpl. do 2 f_equal. lia.
Qed.

Lemma elem_of_pageNumbersOf items page :
  page ∈ pageNumbersOf items <-> View.PageNumber page ∈ items.
Proof.
  unfold pageNumbersOf. rewrite list_elem_of_omap. split.
  - intros (item & Hitem & Hpage). destruct item; by simplify_eq.
  - intros Hitem. by exists (View.PageNumber page).
Qed.

(** The numbers of the page list, for a current page in range: they
    increase strictly from 1 to [totalPages], the current page is one of
    them, and there are [totalPages] of them when that is at most
    [maxVisiblePages] (7 from a width of 768, else 5) and exactly
    [maxVisiblePages] otherwise. *)
Theorem getPageNumbers_numbers innerWidth totalPages currentPage :
  1 <= currentPage <= totalPages ->
  StronglySorted Z.lt
    (pageNumbersOf (View.getPageNumbers innerWidth totalPages currentPage)) /\
  head (pageNumbersOf (View.getPageNumbers innerWidth totalPages currentPage))
    = Some 1 /\
  last (pageNumbersOf (View.getPageNumbers innerWidth totalPages currentPage))
    = Some totalPages /\
  currentPage
    ∈ pageNumbersOf (View.getPageNumbers innerWidth totalPages currentPage) /\
  Z.of_nat (length (pageNumbersOf
                      (View.getPageNumbers innerWidth totalPages currentPage)))
    = Z.min totalPages (if 768 <=? innerWidth then 7 else 5).
Proof.
  intros Hcur. fold (maxVisiblePagesOf innerWidth).
  destruct (decide (totalPages <= maxVisiblePagesOf innerWidth)) as [Hall|Hmore].
  - rewrite getPageNumbers_all, pageNumbersOf_numbers by done. split_and!.
    + apply seqZ_sorted.
    + by rewrite seqZ_cons by lia.
    + replace totalPages with (Z.of_nat (S (Z.to_nat (totalPages - 1)))) at 1
        by lia.
      rewrite seqZ_S, last_snoc. f_equal. lia.
    + apply elem_of_seqZ. lia.
    + rewrite length_seqZ. unfold maxVisiblePagesOf in *.
      destruct (768 <=? innerWidth); lia.
  - destruct (getPageNumbers_window innerWidth totalPages currentPage)
      as (lo & hi & -> & Hlo & Hhi & Hlen & Hnear); [lia | done|].
    assert (pageNumbersOf
              ([View.PageNumber 1]
                 ++ (if 2 <? lo then [View.EllipsisStart] else [])
                 ++ (View.PageNumber <$> seqZ lo (hi - lo + 1))
                 ++ (if hi <? totalPages - 1 then [View.EllipsisEnd] else [])
                 ++ [View.PageNumber totalPages])
            = 1 :: seqZ lo (hi - lo + 1) ++ [totalPages]) as ->.
    { rewrite !pageNumbersOf_app, pageNumbersOf_numbers.
      by destruct (2 <? lo), (hi <? totalPages - 1). }
    assert (3 <= maxVisiblePagesOf innerWidth - 2 <= 5) as Hmax.
    { unfold maxVisiblePagesOf. destruct (768 <=? innerWidth); lia. }
    split_and!.
    + constructor.
      * apply StronglySorted_app_2; [|apply seqZ_sorted|repeat constructor].
        intros x y Hx%elem_of_seqZ ->%list_elem_of_singleton. lia.
      * apply Forall_app. split; [|repeat constructor; lia].
        apply Forall_forall. intros x Hx%elem_of_seqZ. lia.
    + done.
    + by rewrite app_comm_cons, last_snoc.
    + rewrite elem_of_cons, elem_of_app, elem_of_seqZ, list_elem_of_singleton.
      lia.
    + simpl. rewrite length_app, length_seqZ. simpl.
      unfold maxVisiblePagesOf in *. destruct (768 <=? innerWidth); lia.
Qed.

(** The theorem on page 6 of 12, on a wide window. *)
Lemma getPageNumbers_numbers_witness :
  View.getPageNumbers 1024 12 6
  = [View.PageNumber 1; View.EllipsisStart; View.PageNumber 4;
     View.PageNumber 5; View.PageNumber 6; View.PageNumber 7;
     View.PageNumber 8; View.EllipsisEnd; View.PageNumber 12]
  /\ 6 ∈ pageNumbersOf (View.getPageNumbers 1024 12 6).
Proof.
  split; [reflexivity|].
  apply (getPageNumbers_numbers 1024 12 6). lia.
Defined.

(** With more pages than fit, an ellipsis stands exactly where pages are
    left out: the first one when page 2 is not listed, the second one when
    page [totalPages - 1] is not, and two numbers that follow one another
    in the list are consecutive pages unless an ellipsis is between them. *)
Theorem getPageNumbers_ellipses innerWidth totalPages currentPage :
  (if 768 <=? innerWidth then 7 else 5) < totalPages ->
  1 <= currentPage <= totalPages ->
  let items := View.getPageNumbers innerWidth totalPages currentPage in
  (View.EllipsisStart ∈ items <-> 2 ∉ pageNumbersOf items) /\
  (View.EllipsisEnd ∈ items <-> totalPages - 1 ∉ pageNumbersOf items) /\
  (forall p q,
     p ∈ pageNumbersOf items -> q ∈ pageNumbersOf items -> p < q ->
     (forall r, p < r < q -> r ∉ pageNumbersOf items) ->
     q = p + 1
     \/ (p = 1 /\ View.EllipsisStart ∈ items)
     \/ (q = totalPages /\ View.EllipsisEnd ∈ items)).
Proof.
  intros Hmore Hcur. fold (maxVisiblePagesOf innerWidth) in Hmore.
  destruct (getPageNumbers_window innerWidth totalPages currentPage Hmore Hcur)
    as (lo & hi & -> & Hlo & Hhi & Hlen & Hnear).
  assert (3 <= maxVisiblePagesOf innerWidth - 2 <= 5) as Hmax.
  { unfold maxVisiblePagesOf. destruct (768 <=? innerWidth); lia. }
  simpl.
  assert (forall page,
            page ∈ pageNumbersOf
                     (View.PageNumber 1
                        :: (if 2 <? lo then [View.EllipsisStart] else [])
                        ++ (View.PageNumber <$> seqZ lo (hi - lo + 1))
                        ++ (if hi <? totalPages - 1 then [View.EllipsisEnd] else [])
                        ++ [View.PageNumber totalPages])
            <-> page = 1 \/ lo <= page <= hi \/ page = totalPages) as Hnum.
  { intros page.
    change (View.PageNumber 1 :: ?l) with ([View.PageNumber 1] ++ l).
    rewrite !pageNumbersOf_app, pageNumbersOf_numbers.
    assert (pageNumbersOf (if 2 <? lo then [View.EllipsisStart] else []) = [])
      as -> by (by destruct (2 <? lo)).
    assert (pageNumbersOf (if hi <? totalPages - 1 then [View.EllipsisEnd] else [])
            = []) as -> by (by destruct (hi <? totalPages - 1)).
    simpl. rewrite elem_of_cons, elem_of_app, elem_of_seqZ,
      list_elem_of_singleton. lia. }
  assert (View.EllipsisStart
            ∈ View.PageNumber 1
                :: (if 2 <? lo then [View.EllipsisStart] else [])
                ++ (View.PageNumber <$> seqZ lo (hi - lo + 1))
                ++ (if hi <? totalPages - 1 then [View.EllipsisEnd] else [])
                ++ [View.PageNumber totalPages]
          <-> 2 < lo) as Hstart.
  { rewrite elem_of_cons, !elem_of_app, list_elem_of_fmap,
      list_elem_of_singleton.
    destruct (Z.ltb_spec 2 lo), (hi <? totalPages - 1);
      rewrite ?list_elem_of_singleton, ?elem_of_nil; split; try lia; try tauto;
      intros [?|[?|[(? & ? & _)|[?|?]]]]; done. }
  assert (View.EllipsisEnd
            ∈ View.PageNumber 1
                :: (if 2 <? lo then [View.EllipsisStart] else [])
                ++ (View.PageNumber <$> seqZ lo (hi - lo + 1))
                ++ (if hi <? totalPages - 1 then [View.EllipsisEnd] else [])
                ++ [View.PageNumber totalPages]
          <-> hi < totalPages - 1) as Hend.
  { rewrite elem_of_cons, !elem_of_app, list_elem_of_fmap,
      list_elem_of_singleton.
    destruct (2 <? lo), (Z.ltb_spec hi (totalPages - 1));
      rewrite ?list_elem_of_singleton, ?elem_of_nil; split; try lia; try tauto;
      intros [?|[?|[(? & ? & _)|[?|?]]]]; done. }
  split_and!.
  - rewrite Hstart, Hnum. lia.
  - rewrite Hend, Hnum. lia.
  - intros p q Hp%Hnum Hq%Hnum Hpq Hgap. rewrite Hstart, Hend.
    destruct (decide (q = p + 1)) as [|Hne]; [by left|]. right.
    specialize (Hgap (p + 1) ltac:(lia)). rewrite Hnum in Hgap. lia.
Qed.

(** The theorem on page 2 of 12, on a narrow window. *)
Lemma getPageNumbers_ellipses_witness :
  View.getPageNumbers 400 12 2
  = [View.PageNumber 1; View.PageNumber 2; View.PageNumber 3;
     View.PageNumber 4; View.EllipsisEnd; View.PageNumber 12]
  /\ (View.EllipsisStart ∈ View.getPageNumbers 400 12 2
      <-> 2 ∉ pageNumbersOf (View.getPageNumbers 400 12 2)).
Proof.
  split; [reflexivity|].
  apply (getPageNumbers_ellipses 400 12 2); [reflexivity | lia].
Defined.

Lemma getPageNumbers_in_range innerWidth totalPages currentPage page :
  1 <= currentPage <= totalPages ->
  View.PageNumber page ∈ View.getPageNumbers innerWidth totalPages currentPage ->
  1 <= page <= totalPages.
Proof.
  intros Hcur.
  destruct (decide (totalPages <= maxVisiblePagesOf innerWidth)) as [Hall|Hmore].
  - rewrite getPageNumbers_all by done.
    intros (n & [= ->] & Hn%elem_of_seqZ)%list_elem_of_fmap. lia.
  - destruct (getPageNumbers_window innerWidth totalPages currentPage)
      as (lo & hi & -> & Hlo & Hhi & Hlen & Hnear); [lia | done|].
    rewrite !elem_of_app, list_elem_of_fmap, !list_elem_of_singleton.
    intros [[= ->]|[Hs|[(n & [= ->] & Hn%elem_of_seqZ)|[He|[= ->]]]]].
    + lia.
    + destruct (2 <? lo); [|by apply elem_of_nil in Hs].
      by apply list_elem_of_singleton in Hs.
    + lia.
    + destruct (hi <? totalPages - 1); [|by apply elem_of_nil in He].
      by apply list_elem_of_singleton in He.
    + lia.
Qed.

(** From a page in range, none of the three ways to change the page
    leaves the range: the previous and next buttons stop at the ends, and
    every number of the page list is a page of the table. *)
Theorem navigation_stays_in_range innerWidth totalPages currentPage :
  1 <= currentPage <= totalPages ->
  1 <= View.previousPage currentPage <= totalPages /\
  1 <= View.nextPage totalPages currentPage <= totalPages /\
  forall item,
    item ∈ View.getPageNumbers innerWidth totalPages currentPage ->
    1 <= View.clickPage item currentPage <= totalPages.
Proof.
  intros Hcur. unfold View.previousPage, View.nextPage. split_and!; try lia.
  intros [page| |] Hitem; simpl; try lia.
  by apply (getPageNumbers_in_range innerWidth totalPages currentPage).
Qed.

(** The theorem on the last of 12 pages. *)
Lemma navigation_stays_in_range_witness :
  View.nextPage 12 12 = 12 /\ 1 <= View.previousPage 12 <= 12.
Proof.
  destruct (navigation_stays_in_range 1024 12 12) as (Hprev & _ & _); [lia|].
  split; [reflexivity | exact Hprev].
Defined.

(** ** Loading: what [fetchData] and [handleLoadMore] leave *)





Lemma runCalls_derived (calls : list Call) :
  Forall derivedFromMembers (runCalls calls).
Proof.
  apply (runCalls_Forall derivedFromMembers (fun _ => True)).
  - intros B d e p _. apply processBatch_derived.
  - intros M B d e s _ _ HM Hs. apply mergeExisting_derived.
    rewrite Forall_forall in HM. auto.
  - by apply Forall_forall.
Qed.

Lemma byOldestAsc_key x y :
  (Loader.byOldestAsc x y <? 0) = (oldestAttempt x <? oldestAttempt y).
Proof.
  unfold Loader.byOldestAsc.
  destruct (Z.ltb_spec (oldestAttempt x - oldestAttempt y) 0),
           (Z.ltb_spec (oldestAttempt x) (oldestAttempt y)); lia.
Qed.

(** The message [handleLoadMore] picks is one with the least
    [oldestAttempt]. *)
Lemma oldestMessage_least (M : list ProcessedMessage.t) oldest :
  head (array_sort Loader.byOldestAsc M) = Some oldest ->
  oldest ∈ M /\ forall m, m ∈ M -> oldestAttempt oldest <= oldestAttempt m.
Proof.
  intros Hhead.
  pose proof (array_sort_sorted _ _ byOldestAsc_key M) as Hsorted.
  assert (forall m, m ∈ M <-> m ∈ array_sort Loader.byOldestAsc M) as Helem.
  { intros m. by rewrite (array_sort_elem _). }
  destruct (array_sort Loader.byOldestAsc M) as [|o rest]; [done|].
  injection Hhead as ->. split; [apply Helem; left|].
  intros m [->|Hm]%Helem%elem_of_cons; [done|].
  apply StronglySorted_inv in Hsorted as [_ Hall].
  rewrite Forall_forall in Hall. by apply Hall.
Qed.

Lemma mergeExisting_keeps ids (P : list ProcessedMessage.t) s :
  documentId (mergeExisting ids P s) = documentId s /\
  parsingError (mergeExisting ids P s) = parsingError s /\
  hookId (mergeExisting ids P s) = hookId s.
Proof.
  unfold mergeExisting. destruct (findMessage P (messageId s)); [|done].
  simpl. by destruct (0 <? _)%nat.
Qed.

(** Loading older data never takes anything away: in every state of a
    session and whatever the two routes answer, every aggregate is still
    in the collection after [handleLoadMore], under its message id, with
    every attempt it had and with its document id and decoding error; and
    [isLoadingMore] is false again. *)
Theorem handleLoadMore_keeps_everything
    isoString minuteEarlier fetchAttempts
        fetchMessages firstRejection settings st
    (calls : list Call) m :
  Loader.messages st = runCalls calls ->
  Loader.isLoadingMore st = false ->
  m ∈ Loader.messages st ->
  let st' := Loader.handleLoadMore isoString minuteEarlier fetchAttempts fetchMessages
                                   firstRejection settings st in
  Loader.isLoadingMore st' = false /\
  exists m',
    findMessage (Loader.messages st') (messageId m) = Some m' /\
    (forall a, a ∈ attempts m -> a ∈ attempts m') /\
    documentId m' = documentId m /\
    parsingError m' = parsingError m.
Proof.
  intros HM Hidle Hm st'.
  assert (distinctMessageIds (Loader.messages st)) as Hnd.
  { rewrite HM. apply runCalls_distinct. }
  assert (findMessage (Loader.messages st) (messageId m) = Some m) as Hsame
    by by apply findMessage_NoDup.
  assert (forall st0,
            Loader.messages st0 = Loader.messages st ->
            exists m',
              findMessage (Loader.messages st0) (messageId m) = Some m' /\
              (forall a, a ∈ attempts m -> a ∈ attempts m') /\
              documentId m' = documentId m /\
              parsingError m' = parsingError m) as Hkept.
  { intros st0 ->. by exists m. }
  subst st'. unfold Loader.handleLoadMore. rewrite Hidle.
  destruct (length (Loader.messages st) =? 0)%nat; simpl; [split; auto|].
  destruct (head _) as [oldestMessage|]; [|split; [done | by apply Hkept]].
  destruct (fetchAttempts _) as [first|status errorText|attemptsData],
           (fetchMessages _) as [second|status' errorText'|messagesData];
    try (split; [done | by apply Hkept]).
  - destruct (length (default [] attemptsData) =? 0)%nat;
      [split; [done | by apply Hkept]|].
    split; [done|]. simpl.
    rewrite processApiData_lookup_existing by done.
    eexists. split; [done|]. split; [apply mergeExisting_attempts_incl|].
    destruct (mergeExisting_keeps (buildExistingAttemptMap (Loader.messages st))
                (processBatch (default [] attemptsData) ∅ []) m) as (? & ? & _).
    done.
  - destruct (length (default [] attemptsData) =? 0)%nat;
      [split; [done | by apply Hkept]|].
    split; [done|]. simpl.
    rewrite processApiData_lookup_existing by done.
    eexists. split; [done|]. split; [apply mergeExisting_attempts_incl|].
    destruct (mergeExisting_keeps (buildExistingAttemptMap (Loader.messages st))
                (processBatch (default [] attemptsData)
                   (default ∅ (Loader.documentIds messagesData))
                   (default [] (Loader.messagesWithErrors messagesData))) m)
      as (? & ? & _).
    done.
Qed.

Lemma derived_oldest_bound m a :
  derivedFromMembers m -> a ∈ attempts m ->
  oldestAttempt m <= Attempt.createdAt a.
Proof.
  intros (Hsorted & _ & Hold & _) Ha. rewrite Hold.
  pose proof (sorted_bounds _ Hsorted) as Hb. rewrite Forall_forall in Hb.
  by destruct (Hb a Ha).
Qed.

Lemma attemptsVia_Ok parseDate now token
    hoursEarlier upstream request attemptsData :
  attemptsVia parseDate now token
      hoursEarlier upstream request = Loader.Ok attemptsData ->
  exists body issued,
    Route.GET_attempts parseDate now token hoursEarlier upstream request
      = (Route.JsonOk body, issued)
    /\ attemptsData = Some (Route.ab_attempts body).
Proof.
  unfold attemptsVia.
  destruct (Route.GET_attempts parseDate now token
      hoursEarlier upstream request)
    as [[status e|body] issued]; simpl; [done|].
  intros [= <-]. by exists body, issued.
Qed.

(** Served by the attempts route, [handleLoadMore] brings only attempts
    from before its cutoff: every attempt in the collection afterwards was
    there before, or was created no later than the instant that
    [setMinutes(getMinutes() - 1)] makes of the oldest [createdAt] of the
    collection, the one of the first message by [oldestAttempt]. *)
Theorem load_more_adds_only_before_cutoff
    parseDate now token hoursEarlier upstream isoString minuteEarlier
    fetchMessages firstRejection
    settings st (calls : list Call) :
  Loader.messages st = runCalls calls ->
  (forall oldest,
     head (array_sort Loader.byOldestAsc (Loader.messages st)) = Some oldest ->
     isoString (minuteEarlier (oldestAttempt oldest)) <> "" /\
     parseDate (isoString (minuteEarlier (oldestAttempt oldest)))
     = Some (minuteEarlier (oldestAttempt oldest))) ->
  let st' := Loader.handleLoadMore isoString minuteEarlier
               (attemptsVia parseDate now token
                   hoursEarlier upstream) fetchMessages
               firstRejection settings st in
  forall m' a,
    m' ∈ Loader.messages st' -> a ∈ attempts m' ->
    a ∈ allAttempts (Loader.messages st)
    \/ exists oldest,
         head (array_sort Loader.byOldestAsc (Loader.messages st))
         = Some oldest /\
         Attempt.createdAt a <= minuteEarlier (oldestAttempt oldest) /\
         forall a', a' ∈ allAttempts (Loader.messages st) ->
                    oldestAttempt oldest <= Attempt.createdAt a'.
Proof.
  intros HM Hdate st' m' a.
  assert (forall st0, Loader.messages st0 = Loader.messages st ->
            m' ∈ Loader.messages st0 -> a ∈ attempts m' ->
            a ∈ allAttempts (Loader.messages st)
            \/ exists oldest,
                 head (array_sort Loader.byOldestAsc (Loader.messages st))
                 = Some oldest /\
                 Attempt.createdAt a <= minuteEarlier (oldestAttempt oldest) /\
                 forall a', a' ∈ allAttempts (Loader.messages st) ->
                            oldestAttempt oldest <= Attempt.createdAt a')
    as Hsame.
  { intros st0 -> Hm' Ha. left. apply elem_of_allAttempts. by exists m'. }
  subst st'. unfold Loader.handleLoadMore.
  destruct (Loader.isLoadingMore st || (length (Loader.messages st) =? 0)%nat);
    [by apply Hsame|].
  destruct (head (array_sort Loader.byOldestAsc (Loader.messages st)))
    as [oldest|] eqn:Hhead; [|by apply Hsame].
  destruct (Hdate oldest eq_refl) as [Hne Hparse].
  apply oldestMessage_least in Hhead as [_ Hleast].
  destruct (attemptsVia parseDate now token hoursEarlier upstream _)
    as [first|status errorText|attemptsData] eqn:Hvia;
    destruct (fetchMessages _) as [second|status' errorText'|messagesData];
    try (by apply Hsame).
  all: apply attemptsVia_Ok in Hvia as (body & issued & Hget & ->).
  all: destruct (length (default [] (Some (Route.ab_attempts body))) =? 0)%nat;
    [by apply Hsame|].
  all: cbn [Loader.messages default from_option].
  all: intros Hm' Ha.
  all: eapply processApiData_attempts_from in Ha as [Ha|[Ha _]];
    [by left| |rewrite HM; apply runCalls_distinct|exact Hm'].
  all: right; exists oldest; split; [done|].
  all: apply GET_attempts_answer in Hget
         as (ws & we & Hw & _ & _ & Hatt & _).
  all: apply timeWindowOf_bounds in Hw; cbn [Loader.queryOf Route.before] in Hw.
  all: unfold Route.truthy in Hw; rewrite decide_False in Hw by done.
  all: destruct Hw as [Hwe _]; simpl in Hwe.
  all: rewrite Hparse in Hwe; injection Hwe as <-.
  all: change (a ∈ Route.ab_attempts body) in Ha.
  all: rewrite Hatt, (array_sort_elem _), list_elem_of_filter, inWindow_spec
         in Ha.
  all: split; [lia|].
  all: intros a' (m & Hm & Ha')%elem_of_allAttempts.
  all: specialize (Hleast m Hm).
  all: assert (oldestAttempt m <= Attempt.createdAt a') by
         (apply derived_oldest_bound; [|done];
          pose proof (runCalls_derived calls) as Hd;
          rewrite Forall_forall in Hd; apply Hd; by rewrite <- HM).
  all: lia.
Qed.



(** The theorem on [recentState] and a route that answers with
    [olderAttempt]: the aggregate of [m1] keeps [recentAttempt]. *)
Lemma handleLoadMore_keeps_everything_witness :
  exists m',
    findMessage
      (Loader.messages
         (Loader.handleLoadMore decimalInstant utcMinuteEarlier olderAttempts messagesDown
                                (fun first _ => first) sampleSettings
                                recentState))
      "m1" = Some m'
    /\ recentAttempt ∈ attempts m'.
Proof.
  destruct (handleLoadMore_keeps_everything decimalInstant utcMinuteEarlier olderAttempts
              messagesDown (fun first _ => first) sampleSettings recentState
              [mkCall [recentAttempt] ∅ [] false]
              (deriveMessage ∅ ∅ ("m1", [recentAttempt])))
    as (_ & m' & Hfind & Hattempts & _).
  - reflexivity.
  - reflexivity.
  - vm_compute. left.
  - exists m'. split; [exact Hfind|]. apply Hattempts. vm_compute. left.
Defined.

(** The theorem on [recentState] and an upstream that holds [olderAttempt]
    and, once more, [recentAttempt]: the first is merged, the second is
    outside the window that is asked for. *)
Lemma load_more_adds_only_before_cutoff_witness :
  attempts
    <$> Loader.messages
          (Loader.handleLoadMore decimalInstant utcMinuteEarlier
             (attemptsVia parseDecimalInstant 100000000 (Some "token") utcHoursEarlier
                          olderUpstream)
             messagesDown (fun first _ => first) sampleSettings recentState)
  = [[olderAttempt; recentAttempt]]
  /\ Attempt.createdAt olderAttempt
     <= utcMinuteEarlier (Attempt.createdAt recentAttempt).
Proof.
  split; [by vm_compute|].
  destruct (load_more_adds_only_before_cutoff parseDecimalInstant 100000000
              (Some "token") utcHoursEarlier olderUpstream decimalInstant
              utcMinuteEarlier messagesDown
              (fun first _ => first) sampleSettings recentState
              [mkCall [recentAttempt] ∅ [] false] eq_refl)
    with (m' := updateMessage (deriveMessage ∅ ∅ ("m1", [recentAttempt]))
                              [olderAttempt])
         (a := olderAttempt) as [Hin|(oldest & Hhead & Hle & _)].
  - intros oldest Hhead. vm_compute in Hhead. injection Hhead as <-.
    split; [done | reflexivity].
  - vm_compute. left.
  - vm_compute. left.
  - vm_compute in Hin. apply list_elem_of_singleton in Hin. discriminate Hin.
  - vm_compute in Hhead. injection Hhead as <-. exact Hle.
Defined.


(** ** The sequential handlers always answer *)

(** Both sequential handlers answer whatever the upstream does, after at
    most 20 upstream requests; request [i] asks for 50 records from offset
    [50 i], so no offset reaches [MAX_OFFSET]. *)
Theorem sequential_handlers_return now hoursEarlier token JSON_parse
    JSON_stringify fetchFailed bodyUnusable request :
  (forall fetch,
     exists response issued,
       Sequential.GET_messages now hoursEarlier token JSON_parse JSON_stringify
         fetchFailed bodyUnusable fetch request
         = Some (response, issued) /\
       (length issued <= 20)%nat /\
       forall i rq, issued !! i = Some rq ->
         Route.limitQuery rq = Some 50 /\
         Route.offsetQuery rq = Some (50 * Z.of_nat i) /\
         50 * Z.of_nat i < Sequential.MAX_OFFSET)
  /\
  (forall fetch,
     exists response issued,
       Sequential.GET_attempts now hoursEarlier token JSON_parse JSON_stringify
         fetchFailed bodyUnusable fetch request
         = Some (response, issued) /\
       (length issued <= 20)%nat /\
       forall i rq, issued !! i = Some rq ->
         Route.limitQuery rq = Some 50 /\
         Route.offsetQuery rq = Some (50 * Z.of_nat i) /\
         50 * Z.of_nat i < Sequential.MAX_OFFSET).
Proof.
  split; intros fetch.
  - apply sequential_messages_returns.
  - apply sequential_attempts_returns.
Qed.
